(** * Object-identity resolution and image aggregation (BIPGroup6)

    A shallow embedding of the identifier normalisers, the filesystem image
    index, the metadata merger and the description run loop of the scripts
    under [scripts/], together with the properties the specification states
    about them.

    Conventions of the model.
    - A Python [str] is a list of characters; a character is a code point
      below 256 (Latin-1), which covers every file name and catalogue number
      of the collection.  [str.lower], [str.isspace] and the regex classes
      [\d] and [\s] are the restrictions of Python's to that range.
    - A [dict] is a [gmap], a [set] is a [gset]; lists stay lists.
    - [sorted(xs, key=f)] is the stable sort by [f]; it is written as a stable
      insertion sort.
    - The filesystem, the spreadsheet reader and the remote API are inputs:
      a directory listing is the list [rglob] yields, a sheet is its list of
      rows, the API is the sequence of its replies.
    - A Python [float] is a binary64 float; [float(s)] and [float(n)] round
      once, to the nearest float, ties to even, whatever the size of the
      number.  [time.sleep] is taken to return: the model logs the pause. *)

From Stdlib Require Import Ascii String ZArith Lia Permutation.
From Stdlib Require Import PrimFloat.
From Stdlib Require Uint63.
From Stdlib Require Import Decimal DecimalNat DecimalString.
From Stdlib Require Import SpecFloat FloatOps.
From stdpp Require Import gmap strings list fin_maps sorting.

Local Open Scope Z_scope.
#[local] Set Warnings "-inexact-float,-clear-no-such-hyp".

(* ===================================================================== *)
(** * Strings *)
(* ===================================================================== *)

Abbreviation str := (list ascii).

Definition lit (s : string) : str := list_ascii_of_string s.

Module Str.

Definition code (a : ascii) : Z := Z.of_N (N_of_ascii a).

Definition in_range (lo hi : Z) (a : ascii) : bool :=
  (lo <=? code a) && (code a <=? hi).

(** [\d] and [str.isdigit] below code point 256. *)
Definition is_digit (a : ascii) : bool := in_range 48 57 a.

(** [\s] and [str.isspace] below code point 256:
    TAB..CR, FS..US, space, NEL and NBSP. *)
Definition is_space (a : ascii) : bool :=
  in_range 9 13 a || in_range 28 32 a || (code a =? 133) || (code a =? 160).

(** [str.lower] on one character: A..Z and the Latin-1 capitals
    (all of 0xC0..0xDE but the multiplication sign 0xD7) move up by 32. *)
Definition lower_char (a : ascii) : ascii :=
  if in_range 65 90 a || (in_range 192 222 a && negb (code a =? 215))
  then ascii_of_N (Z.to_N (code a + 32))
  else a.

Definition lower (s : str) : str := map lower_char s.

Fixpoint lstrip (s : str) : str :=
  match s with
  | a :: s' => if is_space a then lstrip s' else s
  | [] => []
  end.

Definition rstrip (s : str) : str := rev (lstrip (rev s)).

(** [s.strip()] *)
Definition strip (s : str) : str := rstrip (lstrip s).

(** [s.startswith(p)] *)
Fixpoint startswith (p s : str) : bool :=
  match p, s with
  | [], _ => true
  | a :: p', b :: s' => Ascii.eqb a b && startswith p' s'
  | _ :: _, [] => false
  end.

(** [p in s] for strings *)
Fixpoint contains (p s : str) : bool :=
  startswith p s ||
  match s with
  | [] => false
  | _ :: s' => contains p s'
  end.

(** [int(s)] on a string of decimal digits *)
Definition digit_val (a : ascii) : Z := code a - 48.

Definition int_of (s : str) : Z :=
  fold_left (fun acc a => 10 * acc + digit_val a) s 0.

(** Python compares strings code point by code point. *)
Fixpoint compare (s t : str) : comparison :=
  match s, t with
  | [], [] => Eq
  | [], _ :: _ => Lt
  | _ :: _, [] => Gt
  | a :: s', b :: t' =>
      match Z.compare (code a) (code b) with
      | Eq => compare s' t'
      | c => c
      end
  end.

Definition leb (s t : str) : bool :=
  match compare s t with Gt => false | _ => true end.

(** [sep.join(parts)] *)
Fixpoint join (sep : str) (parts : list str) : str :=
  match parts with
  | [] => []
  | [p] => p
  | p :: ps => p ++ sep ++ join sep ps
  end.

(** [s.rfind(".")]: the part before the last dot and the part from it on,
    when there is a dot. *)
Fixpoint rsplit_dot (s : str) : option (str * str) :=
  match s with
  | [] => None
  | a :: s' =>
      match rsplit_dot s' with
      | Some (pre, suf) => Some (a :: pre, suf)
      | None => if Ascii.eqb a "."%char then Some ([], s) else None
      end
  end.

(** [str(n)] and [f"{n}"] for a natural number: its decimal digits. *)
Definition of_nat (n : nat) : str :=
  list_ascii_of_string (NilEmpty.string_of_uint (Nat.to_uint n)).

(** [s.split(sep)] for a separator of one character. *)
Fixpoint split (sep : ascii) (s : str) : list str :=
  match s with
  | [] => [[]]
  | a :: s' =>
      if Ascii.eqb a sep then [] :: split sep s'
      else match split sep s' with
           | w :: ws => (a :: w) :: ws
           | [] => [[a]]
           end
  end.

(** Python compares lists of strings item by item. *)
Fixpoint compare_list (l1 l2 : list str) : comparison :=
  match l1, l2 with
  | [], [] => Eq
  | [], _ :: _ => Lt
  | _ :: _, [] => Gt
  | s :: l1', t :: l2' =>
      match compare s t with
      | Eq => compare_list l1' l2'
      | c => c
      end
  end.

Definition leb_list (l1 l2 : list str) : bool :=
  match compare_list l1 l2 with Gt => false | _ => true end.

End Str.

(* ===================================================================== *)
(** * Regular expressions *)
(* ===================================================================== *)

(** The fragment of Python's [re] the scripts use: character classes,
    sequencing, greedy [?], greedy [*] over a class, numbered groups and the
    anchors [^] and [$].  Matching is by backtracking in Python's priority
    order, written in continuation-passing style. *)

Module Re.

Inductive regex : Type :=
| Eps
| Cls (c : ascii -> bool)
| Cat (r1 r2 : regex)
| Opt (r : regex)
| Star (c : ascii -> bool)
| Grp (i : nat) (r : regex)
| Bol
| Eol.

(** Captured groups, most recent binding first. *)
Definition captures := list (nat * str).

Fixpoint group (i : nat) (caps : captures) : option str :=
  match caps with
  | [] => None
  | (j, s) :: caps' => if Nat.eqb i j then Some s else group i caps'
  end.

Definition cont := bool -> str -> captures -> option captures.

(** [\n] *)
Definition newline : ascii := ascii_of_N 10.

(** [$] matches at the end and just before a final newline. *)
Definition at_eol (s : str) : bool :=
  match s with
  | [] => true
  | [a] => Ascii.eqb a newline
  | _ => false
  end.

(** [m r bol s caps k]: match [r] at the head of [s]; [bol] tells whether
    the head of [s] is the start of the subject string. *)
Fixpoint m (r : regex) (bol : bool) (s : str) (caps : captures) (k : cont)
  : option captures :=
  match r with
  | Eps => k bol s caps
  | Cls c =>
      match s with
      | a :: s' => if c a then k false s' caps else None
      | [] => None
      end
  | Cat r1 r2 => m r1 bol s caps (fun b' s' caps' => m r2 b' s' caps' k)
  | Opt r1 =>
      match m r1 bol s caps k with
      | Some res => Some res
      | None => k bol s caps
      end
  | Star c =>
      (fix star (b : bool) (t : str) : option captures :=
         match t with
         | a :: t' =>
             if c a then
               match star false t' with
               | Some res => Some res
               | None => k b t caps
               end
             else k b t caps
         | [] => k b t caps
         end) bol s
  | Grp i r1 =>
      m r1 bol s caps
        (fun b' s' caps' =>
           k b' s' ((i, take (length s - length s') s) :: caps'))
  | Bol => if bol then k bol s caps else None
  | Eol => if at_eol s then k bol s caps else None
  end.

Definition accept : cont := fun _ _ caps => Some caps.

(** [pattern.match(s)] *)
Definition re_match (r : regex) (s : str) : option captures :=
  m r true s [] accept.

(** [pattern.search(s)]: the first start position, left to right, at
    which the pattern matches. *)
Fixpoint search_from (r : regex) (bol : bool) (s : str) : option captures :=
  match m r bol s [] accept with
  | Some caps => Some caps
  | None =>
      match s with
      | [] => None
      | _ :: s' => search_from r false s'
      end
  end.

Definition re_search (r : regex) (s : str) : option captures :=
  search_from r true s.

(** Derived forms. *)
Definition seq (rs : list regex) : regex := foldr Cat Eps rs.
Definition chr (a : ascii) : regex := Cls (Ascii.eqb a).
Definition digit : regex := Cls Str.is_digit.
Definition plus (c : ascii -> bool) : regex := Cat (Cls c) (Star c).
Fixpoint rep (n : nat) (r : regex) : regex :=
  match n with
  | O => Eps
  | S n' => Cat r (rep n' r)
  end.
(** [[/-]] *)
Definition is_sep (a : ascii) : bool :=
  Ascii.eqb a "/"%char || Ascii.eqb a "-"%char.

End Re.

(* ===================================================================== *)
(** * Texts *)
(* ===================================================================== *)

(** A text of any characters, such as the prompt: a character is its code
    point.  [widen] reads a Latin-1 string as a text. *)
Abbreviation text := (list N).

Definition widen (s : str) : text := map N_of_ascii s.

Module Text.
Section Replace.
Context {C : Type} `{EqDecision C}.

Fixpoint startswith (p s : list C) : bool :=
  match p, s with
  | [], _ => true
  | a :: p', b :: s' => bool_decide (a = b) && startswith p' s'
  | _ :: _, [] => false
  end.

(** The scan of [s.replace(old, new)] for a non-empty [old]: occurrences
    are taken from left to right, each starting after the end of the one
    before; [skip] counts the characters of the occurrence just replaced
    that are still to be passed. *)
Fixpoint replace_go (old new : list C) (skip : nat) (s : list C) : list C :=
  match s with
  | [] => []
  | a :: s' =>
      match skip with
      | S k => replace_go old new k s'
      | O =>
          if startswith old s
          then new ++ replace_go old new (length old - 1) s'
          else a :: replace_go old new 0 s'
      end
  end.

(** [s.replace(old, new)]; an empty [old] matches between all characters
    and at both ends. *)
Definition replace (old new s : list C) : list C :=
  match old with
  | [] => new ++ flat_map (fun a => a :: new) s
  | _ :: _ => replace_go old new 0 s
  end.

End Replace.
End Text.

(* ===================================================================== *)
(** * Paths, sort keys and [sorted] *)
(* ===================================================================== *)

(** A [pathlib.Path] as a directory walk yields it, with what the
    filesystem answers for it: [is_file()] and [stat().st_size]
    ([None] when [stat] raises [OSError]). *)
Record Path : Type := mkPath {
  parent : str;
  name : str;
  is_file : bool;
  st_size : option Z
}.

(** The position of the last dot, accepted by [pathlib] as the start of a
    suffix when it is neither the first nor the last character. *)
Definition split_ext (nm : str) : option (str * str) :=
  match Str.rsplit_dot nm with
  | Some (pre, suf) =>
      if (0 <? Z.of_nat (length pre)) && (1 <? Z.of_nat (length suf))
      then Some (pre, suf) else None
  | None => None
  end.

(** [path.suffix] *)
Definition suffix (p : Path) : str :=
  match split_ext (name p) with Some (_, suf) => suf | None => [] end.

(** [path.stem] *)
Definition stem (p : Path) : str :=
  match split_ext (name p) with Some (pre, _) => pre | None => name p end.

Definition ALLOWED_EXTS : list str :=
  [lit ".jpg"; lit ".jpeg"; lit ".png"; lit ".tif"; lit ".tiff"; lit ".bmp"].

(** The tuples [(int, int, str)] the sort keys are, compared as Python
    compares tuples. *)
Definition sort_key : Type := Z * Z * str.

Definition key_compare (k1 k2 : sort_key) : comparison :=
  let '(a1, b1, s1) := k1 in
  let '(a2, b2, s2) := k2 in
  match Z.compare a1 a2 with
  | Eq => match Z.compare b1 b2 with
          | Eq => Str.compare s1 s2
          | c => c
          end
  | c => c
  end.

Definition key_leb (k1 k2 : sort_key) : bool :=
  match key_compare k1 k2 with Gt => false | _ => true end.

Section PySorted.
Context {A K : Type} (leb : K -> K -> bool) (key : A -> K).

(** [x] goes in front of the first element whose key is not smaller, so
    that elements with equal keys keep their order. *)
Fixpoint insert_by (x : A) (l : list A) : list A :=
  match l with
  | [] => [x]
  | y :: l' => if leb (key x) (key y) then x :: l else y :: insert_by x l'
  end.

(** [sorted(l, key=key)] *)
Definition sorted_by (l : list A) : list A := foldr insert_by [] l.
End PySorted.

(** A directory tree: what [root.exists()] and [root.rglob("*")] answer for
    each root; [None] is a root that does not exist. *)
Definition filesystem : Type := str -> option (list Path).

(** The folders of the disk: what [d.is_dir()] and [d.iterdir()] answer
    for the path [d]; [None] is a path that is no folder. *)
Definition folders : Type := str -> option (list Path).

(** [PurePath.parts] of a path given as a string: the root, if any, and
    the components, without the empty ones and the single dots. *)
Definition parts_of (s : str) : list str :=
  (if Str.startswith (lit "/") s then [lit "/"] else [])
  ++ List.filter (fun w => negb (bool_decide (w = []) || bool_decide (w = lit ".")))
       (Str.split "/" s).

(** [str(path)] from the parts. *)
Definition str_of_parts (ps : list str) : str :=
  match ps with
  | [] => lit "."
  | r :: rest =>
      if bool_decide (r = lit "/") then r ++ Str.join (lit "/") rest
      else Str.join (lit "/") ps
  end.

(** [str(d / nm)] for a folder [d] and a name [nm]. *)
Definition child_str (d nm : str) : str := str_of_parts (parts_of d ++ [nm]).

(** [path.parts] and [str(path)]; paths are ordered by their parts. *)
Definition parts (p : Path) : list str := parts_of (parent p) ++ [name p].

Definition path_str (p : Path) : str := child_str (parent p) (name p).

(* ===================================================================== *)
(** * scripts/build_site.py *)
(* ===================================================================== *)

Module BuildSite.

(** [^\d+-\d{4}-\d{4}-(\d{3})-(\d{3})$] *)
Definition SUFFIX_RE : Re.regex :=
  Re.seq [Re.Bol; Re.plus Str.is_digit; Re.chr "-"; Re.rep 4 Re.digit;
          Re.chr "-"; Re.rep 4 Re.digit; Re.chr "-";
          Re.Grp 1 (Re.rep 3 Re.digit); Re.chr "-";
          Re.Grp 2 (Re.rep 3 Re.digit); Re.Eol].

Definition suffix_sort_key (p : Path) : sort_key :=
  match Re.re_match SUFFIX_RE (stem p) with
  | Some caps =>
      match Re.group 1 caps, Re.group 2 caps with
      | Some a, Some b => (Str.int_of a, Str.int_of b, Str.lower (name p))
      | _, _ => (999999, 999999, Str.lower (name p))
      end
  | None => (999999, 999999, Str.lower (name p))
  end.

(** The collecting loop over one root's listing. *)
Definition candidate (prefix_lower : str) (p : Path) : bool :=
  is_file p
  && bool_decide (Str.lower (suffix p) ∈ ALLOWED_EXTS)
  && Str.startswith prefix_lower (Str.lower (name p)).

Definition size_of (p : Path) : Z :=
  match st_size p with Some n => n | None => -1 end.

Definition collect_candidates (fs : filesystem) (roots : list str)
    (obj_id : str) : list (Path * str * Z) :=
  let prefix_lower := Str.lower (obj_id ++ lit "-") in
  flat_map
    (fun root =>
       match fs root with
       | None => []
       | Some listing =>
           map (fun p => (p, Str.lower (name p), size_of p))
               (List.filter (candidate prefix_lower) listing)
       end)
    roots.

(** The de-duplicating loop: [seen] is the set of keys met so far. *)
Fixpoint unique_loop (seen : gset (str * Z)) (cands : list (Path * str * Z))
  : list Path :=
  match cands with
  | [] => []
  | (p, name_lower, size) :: rest =>
      if bool_decide ((name_lower, size) ∈ seen)
      then unique_loop seen rest
      else p :: unique_loop ({[ (name_lower, size) ]} ∪ seen) rest
  end.

Definition collect_images_for_object (fs : filesystem) (roots : list str)
    (obj_id : str) : list Path :=
  sorted_by key_leb suffix_sort_key
    (unique_loop ∅ (collect_candidates fs roots obj_id)).

End BuildSite.

(* ===================================================================== *)
(** * scripts/copy_RelevantImages.py *)
(* ===================================================================== *)

Module CopyRelevant.

(** [(\d+)\s*/\s*(\d{4})\s*/\s*(\d{3,4})\s+(\d+)], not anchored. *)
Definition OBJ_RE : Re.regex :=
  Re.seq [Re.Grp 1 (Re.plus Str.is_digit); Re.Star Str.is_space;
          Re.chr "/"; Re.Star Str.is_space;
          Re.Grp 2 (Re.rep 4 Re.digit); Re.Star Str.is_space;
          Re.chr "/"; Re.Star Str.is_space;
          Re.Grp 3 (Re.Cat (Re.rep 3 Re.digit) (Re.Opt Re.digit));
          Re.plus Str.is_space; Re.Grp 4 (Re.plus Str.is_digit)].

Record parsed : Type := mkParsed { base_prefix : str; year : str }.

(** [raw] is [None] for a cell that is not a string. *)
Definition parse_object_number (raw : option str) : option parsed :=
  match raw with
  | None => None
  | Some s =>
      match Re.re_search OBJ_RE s with
      | None => None
      | Some caps =>
          match Re.group 1 caps, Re.group 2 caps, Re.group 3 caps with
          | Some g1, Some yr, Some g3 =>
              Some (mkParsed (g1 ++ lit "-" ++ yr ++ lit "-" ++ g3 ++ lit "-") yr)
          | _, _, _ => None
          end
      end
  end.

Definition IMAGES_ROOT : str := lit "images".
Definition T1_HEADER : str := lit "t1".

(** A cell of a sheet: blank, a string, or another value (a number, a
    date), which [v] tells from the other values. *)
Inductive cell : Type :=
| NaN
| Text (s : str)
| Other (v : Z).

#[global] Instance cell_eq_dec : EqDecision cell.
Proof. solve_decision. Defined.

Definition as_str (c : cell) : option str :=
  match c with Text s => Some s | _ => None end.

(** What a function returns, or how it ends otherwise: with the
    [KeyError] of a missing column, or in a loop that the fuel given does
    not see the end of. *)
Inductive result (A : Type) : Type :=
| Done (a : A)
| KeyError
| OutOfFuel.
Arguments Done {A} a.
Arguments KeyError {A}.
Arguments OutOfFuel {A}.

(** The column under [header_name], each cell with its row index; a sheet
    is its columns by header. *)
Definition read_excel_column (sheet : gmap str (list cell)) (header_name : str)
  : option (list (nat * cell)) :=
  (fun col => zip (seq 0 (length col)) col) <$> sheet !! header_name.

Definition find_matching_files (fs : folders) (images_root yr base_prefix : str)
  : list Path * option str :=
  let year_dir := child_str images_root yr in
  match fs year_dir with
  | None => ([], Some (lit "Missing year folder: " ++ year_dir))
  | Some entries =>
      let bp_l := Str.lower base_prefix in
      (List.filter
         (fun p => is_file p
                   && bool_decide (Str.lower (suffix p) ∈ ALLOWED_EXTS)
                   && Str.startswith bp_l (Str.lower (name p)))
         entries,
       None)
  end.

(** The rows of the two logs. *)
Record copied_row : Type := mkCopied {
  row_index : nat;
  raw_T1 : cell;
  row_year : str;
  row_base_prefix : str;
  source_path : str;
  target_path : str
}.

Record miss_row : Type := mkMiss {
  miss_row_index : nat;
  miss_raw_T1 : cell;
  reason : str
}.

(** What [process_list] keeps while it runs, and the target folder: the
    names [final_dst.exists()] finds there, and the copies [shutil.copy2]
    has made into it, each with its source and the name it was given. *)
Record state : Type := mkState {
  copied_rows : list copied_row;
  misses_rows : list miss_row;
  seen_outputs : gset str;
  seen_src_paths : gset str;
  seen_prefixes : gset (str * str);
  out_files : gset str;
  copies : list (Path * str)
}.

(** [final_dst.name.lower() in seen_outputs or final_dst.exists()] *)
Definition taken (st_outputs st_files : gset str) (nm : str) : bool :=
  bool_decide (Str.lower nm ∈ st_outputs) || bool_decide (nm ∈ st_files).

(** The [while] loop that moves on to [stem_n.suffix] as long as the name
    is taken; [fuel] bounds the number of its turns. *)
Fixpoint free_name (fuel : nat) (outputs files : gset str) (stm suf : str)
    (n : nat) (final : str) : option str :=
  if taken outputs files final then
    match fuel with
    | O => None
    | S fuel' =>
        free_name fuel' outputs files stm suf (S n)
          (stm ++ lit "_" ++ Str.of_nat n ++ suf)
    end
  else Some final.

Section Copy.
Variable fuel : nat.
(** [str(src.resolve())] *)
Variable resolve : Path -> str.

(** One turn of the loop of [copy_matches]; [meta_row] is the row index,
    the cell, the year and the base prefix. *)
Definition copy_one (out_dir : str) (meta_row : nat * cell * str * str)
    (st : state) (src : Path) : option state :=
  let '(idx, raw, yr, bp) := meta_row in
  let src_key := Str.lower (resolve src) in
  if bool_decide (src_key ∈ seen_src_paths st) then Some st
  else
    match free_name fuel (seen_outputs st) (out_files st)
                    (stem src) (suffix src) 1 (name src) with
    | None => None
    | Some final =>
        Some (mkState
                (copied_rows st
                   ++ [mkCopied idx raw yr bp (path_str src)
                                (child_str out_dir final)])
                (misses_rows st)
                ({[ Str.lower final ]} ∪ seen_outputs st)
                ({[ src_key ]} ∪ seen_src_paths st)
                (seen_prefixes st)
                ({[ final ]} ∪ out_files st)
                (copies st ++ [(src, final)]))
    end.

Fixpoint copy_loop (out_dir : str) (meta_row : nat * cell * str * str)
    (files : list Path) (st : state) : option state :=
  match files with
  | [] => Some st
  | src :: rest =>
      match copy_one out_dir meta_row st src with
      | Some st' => copy_loop out_dir meta_row rest st'
      | None => None
      end
  end.

Definition copy_matches (files : list Path) (out_dir : str)
    (meta_row : nat * cell * str * str) (st : state) : option state :=
  copy_loop out_dir meta_row (sorted_by Str.leb_list parts files) st.

Definition NO_NUMBER : str :=
  lit "No object number in format '1/1997/1063 0' found".

Definition add_miss (st : state) (idx : nat) (raw : cell) (why : str) : state :=
  mkState (copied_rows st) (misses_rows st ++ [mkMiss idx raw why])
          (seen_outputs st) (seen_src_paths st) (seen_prefixes st)
          (out_files st) (copies st).

Definition add_prefix (st : state) (key : str * str) : state :=
  mkState (copied_rows st) (misses_rows st) (seen_outputs st)
          (seen_src_paths st) ({[ key ]} ∪ seen_prefixes st)
          (out_files st) (copies st).

(** The body of the loop of [process_list] over the cells. *)
Definition process_cell (fs : folders) (out_dir : str) (st : state)
    (idx : nat) (raw : cell) : option state :=
  match parse_object_number (as_str raw) with
  | None => Some (add_miss st idx raw NO_NUMBER)
  | Some parsed =>
      let bp := base_prefix parsed in
      let yr := year parsed in
      let key := (yr, Str.lower bp) in
      if bool_decide (key ∈ seen_prefixes st) then Some st
      else
        let st1 := add_prefix st key in
        match find_matching_files fs IMAGES_ROOT yr bp with
        | (_, Some err) => Some (add_miss st1 idx raw err)
        | ([], None) =>
            Some (add_miss st1 idx raw
                    (lit "No files with prefix '" ++ bp
                       ++ lit "' in images/" ++ yr))
        | (files, None) => copy_matches files out_dir (idx, raw, yr, bp) st1
        end
  end.

Fixpoint process_cells (fs : folders) (out_dir : str)
    (series : list (nat * cell)) (st : state) : option state :=
  match series with
  | [] => Some st
  | (idx, raw) :: rest =>
      match process_cell fs out_dir st idx raw with
      | Some st' => process_cells fs out_dir rest st'
      | None => None
      end
  end.

(** [series.iloc[row_slice]] for a slice of two natural numbers. *)
Definition iloc (row_slice : option (nat * nat)) (series : list (nat * cell))
  : list (nat * cell) :=
  match row_slice with
  | None => series
  | Some (a, b) => take (b - a) (drop a series)
  end.

Definition strip_cell (c : cell) : cell :=
  match c with Text s => Text (Str.strip s) | _ => c end.

(** [drop_duplicates]: the first cell of each value stays. *)
Fixpoint drop_duplicates (seen : list cell) (series : list (nat * cell))
  : list (nat * cell) :=
  match series with
  | [] => []
  | (idx, v) :: rest =>
      if bool_decide (v ∈ seen) then drop_duplicates seen rest
      else (idx, v) :: drop_duplicates (v :: seen) rest
  end.

(** [series.dropna().map(strip).drop_duplicates()] *)
Definition clean (series : list (nat * cell)) : list (nat * cell) :=
  drop_duplicates []
    (map (fun '(idx, v) => (idx, strip_cell v))
       (List.filter (fun '(_, v) => negb (bool_decide (v = NaN))) series)).

(** The state [process_list] starts from, in a target folder that holds
    the files [existing]. *)
Definition initial (existing : gset str) : state :=
  mkState [] [] ∅ ∅ ∅ existing [].

(** [process_list], up to the writing of the two logs: the state it ends
    in holds their rows. *)
Definition process_list (fs : folders) (sheet : gmap str (list cell))
    (existing : gset str) (out_dir : str) (row_slice : option (nat * nat))
    (header_name : str) : result state :=
  match read_excel_column sheet header_name with
  | None => KeyError
  | Some series =>
      match process_cells fs out_dir (clean (iloc row_slice series))
                          (initial existing) with
      | Some st => Done st
      | None => OutOfFuel
      end
  end.
End Copy.

End CopyRelevant.

(* ===================================================================== *)
(** * scripts/copy_images_from_excel.py *)
(* ===================================================================== *)

Module CopyExcel.

(** [^\s*(?P<prefix>\d+)[\/-](?P<year>\d{4})[\/-](?P<code>\d{4})\s+(?P<variant>\d+)\s*$];
    the named groups are numbered 1 to 4 in this order. *)
Definition OBJECT_REGEX : Re.regex :=
  Re.seq [Re.Bol; Re.Star Str.is_space;
          Re.Grp 1 (Re.plus Str.is_digit); Re.Cls Re.is_sep;
          Re.Grp 2 (Re.rep 4 Re.digit); Re.Cls Re.is_sep;
          Re.Grp 3 (Re.rep 4 Re.digit);
          Re.plus Str.is_space; Re.Grp 4 (Re.plus Str.is_digit);
          Re.Star Str.is_space; Re.Eol].

(** Returns [(original, prefix, year, code, variant)]. *)
Definition parse_object_number (value : option str)
  : option (str * str * str * str * str) :=
  match value with
  | None => None
  | Some v =>
      let s := Str.strip v in
      match s with
      | [] => None
      | _ :: _ =>
          match Re.re_match OBJECT_REGEX s with
          | None => None
          | Some caps =>
              match Re.group 1 caps, Re.group 2 caps,
                    Re.group 3 caps, Re.group 4 caps with
              | Some prefix, Some yr, Some code, Some variant =>
                  Some (s, prefix, yr, code, variant)
              | _, _, _, _ => None
              end
          end
      end
  end.

Definition build_search_prefix (prefix yr code variant : str) : str :=
  prefix ++ lit "-" ++ yr ++ lit "-" ++ code ++ lit " " ++ variant.

Definition find_matching_files (fs : folders) (images_root yr search_prefix : str)
  : list Path :=
  match fs (child_str images_root yr) with
  | None => []
  | Some entries =>
      List.filter
        (fun entry => is_file entry && Str.startswith search_prefix (name entry))
        entries
  end.

(** A row of the report. *)
Record report_row : Type := mkReport {
  object : str;
  year : str;
  pattern : str;
  matches : nat;
  copied : nat;
  note : str
}.

(** What [main] has got so far: the report, the counter, and the copies
    [shutil.copy2] has made, each with its source and its target. *)
Record run : Type := mkRun {
  report_rows : list report_row;
  total_copied : nat;
  copies : list (Path * str)
}.

Section Main.
(** [shutil.copy2(src, dest)]: it succeeds, or raises with a message. *)
Variable copy2 : Path -> str -> option str.
Variable fs : folders.
Variable images_root output_root : str.
Variable make_subdirs : bool.

(** The loop over the matches of one object: the number copied, the rows
    of the copies that failed, the copies made. *)
Fixpoint copy_all (original yr search_prefix : str) (n_matches : nat)
    (dest_dir : str) (srcs : list Path) (copied_for_object : nat)
    (rows : list report_row) (log : list (Path * str))
  : nat * list report_row * list (Path * str) :=
  match srcs with
  | [] => (copied_for_object, rows, log)
  | src :: rest =>
      let dest := child_str dest_dir (name src) in
      match copy2 src dest with
      | None =>
          copy_all original yr search_prefix n_matches dest_dir rest
                   (S copied_for_object) rows (log ++ [(src, dest)])
      | Some e =>
          copy_all original yr search_prefix n_matches dest_dir rest
                   copied_for_object
                   (rows ++ [mkReport original yr search_prefix n_matches
                               copied_for_object (lit "copy_error:" ++ e)])
                   log
      end
  end.

(** The body of the loop over the unique values. *)
Definition process_value (st : run) (raw : str) : run :=
  match parse_object_number (Some raw) with
  | None =>
      mkRun (report_rows st ++ [mkReport raw [] [] 0 0 (lit "parse_failed")])
            (total_copied st) (copies st)
  | Some (original, prefix, yr, code, variant) =>
      let search_prefix := build_search_prefix prefix yr code variant in
      let found := find_matching_files fs images_root yr search_prefix in
      let dest_dir :=
        if make_subdirs then child_str output_root search_prefix
        else output_root in
      let '(copied_for_object, rows, log) :=
        copy_all original yr search_prefix (length found) dest_dir found 0
                 (report_rows st) (copies st) in
      mkRun (rows
               ++ [mkReport original yr search_prefix (length found)
                     copied_for_object
                     (if (copied_for_object =? length found)%nat
                      then lit "ok" else lit "partial_or_none")])
            (total_copied st + copied_for_object)%nat log
  end.

(** The values to work on.  A sheet is its columns in order, each with
    its header and its cells; a cell is the string [str] makes of it, or
    [None] when it is blank. *)
Definition values_of (df : list (str * list (option str))) (column : str)
  : list str :=
  match List.find (fun c => bool_decide (c.1 = column)) df with
  | Some (_, cells) => omap id cells
  | None =>
      flat_map
        (fun c =>
           List.filter
             (fun s0 => match Re.re_match OBJECT_REGEX s0 with
                        | Some _ => true
                        | None => false
                        end)
             (map Str.strip (omap id c.2)))
        df
  end.

(** The loop that drops the values seen before. *)
Fixpoint unique_loop (seen : gset str) (values : list str) : list str :=
  match values with
  | [] => []
  | v :: rest =>
      if bool_decide (v ∈ seen) then unique_loop seen rest
      else v :: unique_loop ({[ v ]} ∪ seen) rest
  end.

(** [main] from the sheet on. *)
Definition main (df : list (str * list (option str))) (column : str) : run :=
  foldl process_value (mkRun [] 0 []) (unique_loop ∅ (values_of df column)).
End Main.

End CopyExcel.

(* ===================================================================== *)
(** * scripts/autoOpenAIDescription.py *)
(* ===================================================================== *)

Module AutoDesc.

Definition MAX_IMAGES_PER_OBJECT : nat := 5.
Definition REQUEST_COOLDOWN_SEC : float := 2.5%float.
Definition MAX_RETRIES : nat := 6.
Definition BATCH_LIMIT : nat := 10.

(** ** Object ids and images *)

(** [^(\d+)-(\d{4})-(\d{4})] *)
Definition OBJ_ID_PATTERN : Re.regex :=
  Re.seq [Re.Bol; Re.Grp 1 (Re.plus Str.is_digit); Re.chr "-";
          Re.Grp 2 (Re.rep 4 Re.digit); Re.chr "-";
          Re.Grp 3 (Re.rep 4 Re.digit)].

(** [^\d+-\d{4}-\d{4}-(\d{3})-(\d{3})] *)
Definition SUFFIX_PATTERN : Re.regex :=
  Re.seq [Re.Bol; Re.plus Str.is_digit; Re.chr "-"; Re.rep 4 Re.digit;
          Re.chr "-"; Re.rep 4 Re.digit; Re.chr "-";
          Re.Grp 1 (Re.rep 3 Re.digit); Re.chr "-";
          Re.Grp 2 (Re.rep 3 Re.digit)].

Definition extract_object_id (filename : str) : option str :=
  match Re.re_match OBJ_ID_PATTERN filename with
  | Some caps =>
      match Re.group 1 caps, Re.group 2 caps, Re.group 3 caps with
      | Some g1, Some g2, Some g3 => Some (Str.join (lit "-") [g1; g2; g3])
      | _, _, _ => None
      end
  | None => None
  end.

Definition suffix_sort_key (p : Path) : sort_key :=
  match Re.re_match SUFFIX_PATTERN (stem p) with
  | Some caps =>
      match Re.group 1 caps, Re.group 2 caps with
      | Some a, Some b => (Str.int_of a, Str.int_of b, Str.lower (stem p))
      | _, _ => (999999, 999999, Str.lower (name p))
      end
  | None => (999999, 999999, Str.lower (name p))
  end.

Definition is_image_file (p : Path) : bool :=
  is_file p && bool_decide (Str.lower (suffix p) ∈ ALLOWED_EXTS).

(** The loop of [unique_by_filename], with its [seen] set. *)
Fixpoint unique_loop (seen : gset str) (paths : list Path) : list Path :=
  match paths with
  | [] => []
  | p :: rest =>
      let key := Str.lower (name p) in
      if bool_decide (key ∈ seen) then unique_loop seen rest
      else p :: unique_loop ({[ key ]} ∪ seen) rest
  end.

Definition unique_by_filename (paths : list Path) : list Path :=
  unique_loop ∅ paths.

(** [groups[obj_id].append(path)] on a [defaultdict(list)] *)
Definition append_to (groups : gmap str (list Path)) (obj_id : str) (p : Path)
  : gmap str (list Path) :=
  <[ obj_id := default [] (groups !! obj_id) ++ [p] ]> groups.

(** One turn of the inner loop; an id that is [None] or empty is falsy. *)
Definition scan_path (groups : gmap str (list Path)) (p : Path)
  : gmap str (list Path) :=
  if is_image_file p then
    match extract_object_id (name p) with
    | Some (c :: obj_id) => append_to groups (c :: obj_id) p
    | Some [] => groups
    | None => groups
    end
  else groups.

Definition scan_root (fs : filesystem) (groups : gmap str (list Path))
    (root : str) : gmap str (list Path) :=
  match fs root with
  | None => groups
  | Some listing => foldl scan_path groups listing
  end.

Definition collect_images_by_object (fs : filesystem) (dirs : list str)
  : gmap str (list Path) :=
  (fun paths => sorted_by key_leb suffix_sort_key (unique_by_filename paths))
    <$> foldl (scan_root fs) ∅ dirs.

(** ** Metadata *)

(** [^\s*(\d+)[/-](\d{4})[/-](\d{4})] *)
Definition OBJ_FROM_T1_PATTERN : Re.regex :=
  Re.seq [Re.Bol; Re.Star Str.is_space;
          Re.Grp 1 (Re.plus Str.is_digit); Re.Cls Re.is_sep;
          Re.Grp 2 (Re.rep 4 Re.digit); Re.Cls Re.is_sep;
          Re.Grp 3 (Re.rep 4 Re.digit)].

Definition normalize_obj_id_from_excel (value : option str) : option str :=
  match value with
  | None => None
  | Some v =>
      match Re.re_search OBJ_FROM_T1_PATTERN (Str.strip v) with
      | None => None
      | Some caps =>
          match Re.group 1 caps, Re.group 2 caps, Re.group 3 caps with
          | Some g1, Some g2, Some g3 =>
              Some (g1 ++ lit "-" ++ g2 ++ lit "-" ++ g3)
          | _, _, _ => None
          end
      end
  end.

Definition NO_DATA : str := lit "No Data".

Definition safe_str (x : option str) : str :=
  match x with
  | None => NO_DATA
  | Some v => match Str.strip v with [] => NO_DATA | s => s end
  end.

Definition EXCEL_TO_FIELDS : list (str * str) :=
  [ (lit "t1", lit "InventoryNo");
    (lit "t2", lit "Contributors");
    (lit "t3", lit "Materials");
    (lit "t5", lit "Dimensions");
    (lit "t8", lit "Location");
    (lit "t9", lit "LocationDescription");
    (lit "t12", lit "DetailedObjectName");
    (lit "t14", lit "YearOfManufacture") ].

Definition FIELDS_ORDER : list str :=
  [ lit "InventoryNo"; lit "Contributors"; lit "Materials";
    lit "Dimensions"; lit "Location"; lit "LocationDescription";
    lit "DetailedObjectName"; lit "YearOfManufacture" ].

(** A sheet row after the header clean-up: lower-case header to cell. *)
Definition read_row (mapping : gmap str (gmap str str)) (row : gmap str str)
  : gmap str (gmap str str) :=
  match normalize_obj_id_from_excel (row !! lit "t1") with
  | None => mapping
  | Some [] => mapping
  | Some obj_norm =>
      let entry :=
        foldl (fun (e : gmap str str) '(excel_key, field) =>
                 <[ field := safe_str (row !! excel_key) ]> e)
              ∅ EXCEL_TO_FIELDS in
      let entry :=
        if bool_decide (entry !! lit "InventoryNo" = Some NO_DATA)
        then <[ lit "InventoryNo" := obj_norm ]> entry else entry in
      <[ obj_norm := entry ]> mapping
  end.

(** [sheet] is [None] when the file does not exist. *)
Definition read_metadata_excel (sheet : option (list (gmap str str)))
  : gmap str (gmap str str) :=
  match sheet with
  | None => ∅
  | Some rows => foldl read_row ∅ rows
  end.

(** [base[k]]; every key read is a key of [FIELDS_ORDER], which [base]
    holds from its construction on. *)
Definition get (base : gmap str str) (k : str) : str :=
  default [] (base !! k).

Definition fill_field (found base : gmap str str) (k : str) : gmap str str :=
  if bool_decide (get base k = NO_DATA) then
    match found !! k with
    | Some v =>
        if bool_decide (safe_str (Some v) = NO_DATA) then base
        else <[ k := safe_str (Some v) ]> base
    | None => base
    end
  else base.

Definition all_filled (base : gmap str str) : bool :=
  forallb (fun k => negb (bool_decide (get base k = NO_DATA))) FIELDS_ORDER.

(** The loop over the sources; the second component counts the sources the
    loop has reached. *)
Fixpoint merge_loop (obj_id : str) (maps : list (gmap str (gmap str str)))
    (base : gmap str str) (visited : nat) : gmap str str * nat :=
  match maps with
  | [] => (base, visited)
  | mp :: rest =>
      match mp !! obj_id with
      | Some found =>
          let base' := foldl (fill_field found) base FIELDS_ORDER in
          if all_filled base' then (base', S visited)
          else merge_loop obj_id rest base' (S visited)
      | None => merge_loop obj_id rest base (S visited)
      end
  end.

Definition empty_record : gmap str str :=
  foldl (fun (b : gmap str str) k => <[ k := NO_DATA ]> b) ∅ FIELDS_ORDER.

Definition build_metadata_for_object (obj_id : str)
    (maps : list (gmap str (gmap str str))) : gmap str str :=
  let base := fst (merge_loop obj_id maps empty_record 0) in
  if bool_decide (get base (lit "InventoryNo") = NO_DATA)
  then <[ lit "InventoryNo" := obj_id ]> base
  else base.

Definition metadata_csv_line (meta : gmap str str) : str :=
  Str.join (lit ", ") (map (fun k => default NO_DATA (meta !! k)) FIELDS_ORDER).

(** ** The remote call *)

(** [try again in ([0-9]+(\.[0-9]+)?)s], ignoring case. *)
Definition ichr (a : ascii) : Re.regex :=
  Re.Cls (fun b => Ascii.eqb (Str.lower_char b) (Str.lower_char a)).

Definition WAIT_HINT_PATTERN : Re.regex :=
  Re.seq (map ichr (lit "try again in ")
          ++ [Re.Grp 1 (Re.Cat (Re.plus Str.is_digit)
                          (Re.Opt (Re.Grp 2 (Re.Cat (Re.chr ".")
                                               (Re.plus Str.is_digit)))));
              ichr "s"]).

(** [float(z)] for an integer: the nearest binary64 float, ties to even. *)
Definition float_of_Z (z : Z) : float :=
  SF2Prim (binary_normalize prec emax z 0 false).

(** The binary64 float nearest to the fraction [n / d] of two positive
    integers, ties to even: the quotient is rounded once, whatever the
    size of [n] and [d]. *)
Definition nearest_ratio (n d : Z) : float :=
  match n, d with
  | Zpos pn, Zpos pd =>
      SF2Prim (SFdiv prec emax (S754_finite false pn 0) (S754_finite false pd 0))
  | _, _ => 0%float
  end.

(** [float(s)] for [s] of the shape [digits] or [digits.digits]: the
    float nearest to the decimal, which is the integer the digits spell
    over the power of ten of the fraction. *)
Definition float_of_decimal (s : str) : float :=
  match Str.rsplit_dot s with
  | Some (ip, _ :: fp) =>
      nearest_ratio (Str.int_of (ip ++ fp)) (10 ^ Z.of_nat (length fp))
  | _ => float_of_Z (Str.int_of s)
  end.

(** What [client.chat.completions.create] does: it returns a response
    whose message content may be [None], or it raises an exception with a
    message. *)
Inductive reply : Type :=
| Reply (content : option str)
| Failure (msg : str).

(** What is sent: the metadata that fills the prompt and the images. *)
Definition content : Type := gmap str str * list Path.

(** The world outside the script: the API's reply to the n-th request,
    the n-th value [random.uniform(0, 0.5)] draws, and the log of the
    pauses [time.sleep] has made. *)
Record world : Type := mkWorld {
  api : nat -> content -> reply;
  calls : nat;
  rnd : nat -> float;
  draws : nat;
  slept : list float
}.

Definition create (c : content) (w : world) : reply * world :=
  (api w (calls w) c,
   mkWorld (api w) (S (calls w)) (rnd w) (draws w) (slept w)).

Definition uniform (w : world) : float * world :=
  (rnd w (draws w),
   mkWorld (api w) (calls w) (rnd w) (S (draws w)) (slept w)).

(** [time.sleep(d)], taken to return: the pause is logged. *)
Definition sleep (d : float) (w : world) : world :=
  mkWorld (api w) (calls w) (rnd w) (draws w) (slept w ++ [d]).

(** A function that returns a string or raises an exception. *)
Inductive outcome : Type :=
| Return (s : str)
| Raise (msg : str).

Definition is_rate_limit (msg : str) : bool :=
  Str.contains (lit "429") msg
  || Str.contains (lit "rate_limit") (Str.lower msg).

Definition is_server_error (msg : str) : bool :=
  existsb (fun code => Str.contains code msg)
          [lit "500"; lit "502"; lit "503"; lit "504"].

(** [float(m.group(1)) if m else None] *)
Definition hint_of (msg : str) : option float :=
  match Re.re_search WAIT_HINT_PATTERN msg with
  | Some caps =>
      match Re.group 1 caps with
      | Some g => Some (float_of_decimal g)
      | None => None
      end
  | None => None
  end.

(** [hinted + 0.5 if hinted else wait]: [None] and [0.0] are falsy. *)
Definition rate_limit_pause (hinted : option float) (wait : float) : float :=
  match hinted with
  | Some h => if PrimFloat.eqb h 0%float then wait else PrimFloat.add h 0.5%float
  | None => wait
  end.

(** [min(wait * 1.8, 30.0)] *)
Definition next_wait (wait : float) : float :=
  let x := PrimFloat.mul wait 1.8%float in
  if PrimFloat.ltb 30.0%float x then 30.0%float else x.

Definition MAX_RETRIES_MSG : str :=
  lit "Maximum retry attempts reached (rate limit / server error).".

(** The [for attempt in range(1, MAX_RETRIES + 1)] loop, by the number of
    attempts left. *)
Fixpoint retry_loop (left : nat) (wait : float) (c : content) (w : world)
  : outcome * world :=
  match left with
  | O => (Raise MAX_RETRIES_MSG, w)
  | S left' =>
      let '(r, w1) := create c w in
      match r with
      | Reply text =>
          (Return (Str.strip (default [] text)), sleep REQUEST_COOLDOWN_SEC w1)
      | Failure msg =>
          if is_rate_limit msg then
            let sleep_for := rate_limit_pause (hint_of msg) wait in
            let '(j, w2) := uniform w1 in
            retry_loop left' (next_wait wait) c
                       (sleep (PrimFloat.add sleep_for j) w2)
          else if is_server_error msg then
            let '(j, w2) := uniform w1 in
            retry_loop left' (next_wait wait) c
                       (sleep (PrimFloat.add wait j) w2)
          else (Raise msg, w1)
      end
  end.

Definition call_openai_with_retry (c : content) (w : world)
  : outcome * world :=
  retry_loop MAX_RETRIES 2.0%float c w.

Definition describe_object (obj_id : str) (image_paths : list Path)
    (meta : gmap str str) (w : world) : outcome * world :=
  let selected := take MAX_IMAGES_PER_OBJECT image_paths in
  call_openai_with_retry (meta, selected) w.

(** ** The prompt and the message *)

(** [f"[{k}]"] *)
Definition placeholder (k : str) : text :=
  widen (lit "[" ++ k ++ lit "]").

Definition fill_prompt (template : text) (meta : gmap str str) : text :=
  foldl (fun txt k =>
           Text.replace (placeholder k)
                        (widen (default NO_DATA (meta !! k))) txt)
        template FIELDS_ORDER.

Definition bytes : Type := list Byte.byte.

Definition RESIZE_MAX_SIDE : Z := 1024.

(** The type read off the extension. *)
Definition mime_of (ext : str) : str :=
  if bool_decide (ext ∈ [lit ".jpg"; lit ".jpeg"]) then lit "image/jpeg"
  else if bool_decide (ext = lit ".png") then lit "image/png"
  else if bool_decide (ext ∈ [lit ".tif"; lit ".tiff"]) then lit "image/tiff"
  else if bool_decide (ext = lit ".bmp") then lit "image/bmp"
  else lit "application/octet-stream".

(** [int(x)] for a float: its value cut off towards zero. *)
Definition int_of_float (x : float) : Z :=
  match Prim2SF x with
  | S754_finite sign mant e =>
      let v := if 0 <=? e then Zpos mant * 2 ^ e else Zpos mant / 2 ^ (- e) in
      if sign then - v else v
  | _ => 0
  end.

(** The size an image of [w] by [h] pixels is brought to; [None] when it
    is left as it is. *)
Definition new_size (w h : Z) : option (Z * Z) :=
  let max_side := Z.max w h in
  if RESIZE_MAX_SIDE <? max_side then
    let scale := PrimFloat.div (float_of_Z RESIZE_MAX_SIDE) (float_of_Z max_side) in
    Some (int_of_float (PrimFloat.mul (float_of_Z w) scale),
          int_of_float (PrimFloat.mul (float_of_Z h) scale))
  else None.

(** What Pillow does with a file: [Image.open(path).convert("RGB").size],
    and the bytes [im.save] writes as JPEG after [im.resize] to the size
    given, if any; [None] when it raises. *)
Record pillow : Type := mkPillow {
  open_rgb : Path -> option (Z * Z);
  save_jpeg : Path -> option (Z * Z) -> option bytes
}.

(** An item of the chat content. *)
Inductive item : Type :=
| TextItem (txt : text)
| ImageUrl (url : str).

Section Images.
(** [path.read_bytes()]; [None] when it raises. *)
Variable read_bytes : Path -> option bytes.
(** Pillow, when it could be imported. *)
Variable PIL : option pillow.
(** [base64.b64encode(data).decode("utf-8")] *)
Variable b64encode : bytes -> str.

(** [None] when the function raises. *)
Definition load_and_optionally_resize (p : Path) : option (str * bytes) :=
  let mime := mime_of (Str.lower (suffix p)) in
  match read_bytes p with
  | None => None
  | Some raw =>
      match PIL with
      | None => Some (mime, raw)
      | Some pil =>
          match open_rgb pil p with
          | None => Some (mime, raw)
          | Some (w, h) =>
              match save_jpeg pil p (new_size w h) with
              | Some data => Some (lit "image/jpeg", data)
              | None => Some (mime, raw)
              end
          end
      end
  end.

Definition build_message_content (prompt_text : text)
    (image_paths : list Path) : list item :=
  foldl (fun content p =>
           match load_and_optionally_resize p with
           | Some (mime, data) =>
               content
                 ++ [ImageUrl (lit "data:" ++ mime ++ lit ";base64,"
                                 ++ b64encode data)]
           | None => content
           end)
        [TextItem prompt_text] image_paths.

(** What [describe_object] sends for an object. *)
Definition message_for (template : text) (image_paths : list Path)
    (meta : gmap str str) : list item :=
  build_message_content (fill_prompt template meta)
                        (take MAX_IMAGES_PER_OBJECT image_paths).
End Images.

(** ** The run loop *)

(** A row of the result store; [object_id] is [None] for a blank cell. *)
Record row : Type := mkRow {
  object_id : option str;
  description : str;
  metadata : str
}.

Record run_state : Type := mkState {
  rows : list row;
  done : gset str;
  processed_this_run : nat;
  the_world : world;
  store : option (list row)
}.

(** [{str(x).strip() for x in df_exist.get("object_id", []) if pd.notna(x)}] *)
Definition done_of (saved : list row) : gset str :=
  list_to_set (omap (fun r => Str.strip <$> object_id r) saved).

Definition error_placeholder (e : str) : str :=
  lit "[Error during description: " ++ e ++ lit "]".

Section Run.
Variable groups : gmap str (list Path).
Variable md_maps : list (gmap str (gmap str str)).

(** The body of the loop for an object that is neither done nor beyond
    the batch limit. *)
Definition process (obj_id : str) (st : run_state) : run_state :=
  let imgs := default [] (groups !! obj_id) in
  let meta := build_metadata_for_object obj_id md_maps in
  let meta_line := metadata_csv_line meta in
  let '(res, w') := describe_object obj_id imgs meta (the_world st) in
  let description :=
    match res with
    | Return d => d
    | Raise e => error_placeholder e
    end in
  let rows' := rows st ++ [mkRow (Some obj_id) description meta_line] in
  mkState rows' ({[ obj_id ]} ∪ done st) (S (processed_this_run st))
          w' (Some rows').

Fixpoint run_loop (objs : list str) (st : run_state) : run_state :=
  match objs with
  | [] => st
  | obj_id :: rest =>
      if bool_decide (obj_id ∈ done st) then run_loop rest st
      else if (BATCH_LIMIT <=? processed_this_run st)%nat then st
      else run_loop rest (process obj_id st)
  end.

(** The state the loop starts from: the result store as found. *)
Definition resume (saved : option (list row)) (w : world) : run_state :=
  match saved with
  | Some old => mkState old (done_of old) 0 w saved
  | None => mkState [] ∅ 0 w saved
  end.

Definition all_objs : list str :=
  sorted_by Str.leb id (elements (dom groups)).

(** [main] from the resume step on; with no images it returns at once. *)
Definition main (saved : option (list row)) (w : world) : run_state :=
  if bool_decide (groups = ∅) then resume saved w
  else run_loop all_objs (resume saved w).
End Run.

End AutoDesc.

(* ===================================================================== *)
(** * Vocabulary of the properties *)
(* ===================================================================== *)

(** ** Matching *)

(** What a successful match of a regex consumed: from the state
    [(b, s, caps)] it leaves [(b', s', caps')]. *)
Fixpoint den (r : Re.regex) (b : bool) (s : str) (caps : Re.captures)
    (b' : bool) (s' : str) (caps' : Re.captures) : Prop :=
  match r with
  | Re.Eps => b' = b /\ s' = s /\ caps' = caps
  | Re.Cls c => exists a, s = a :: s' /\ c a = true /\ b' = false /\ caps' = caps
  | Re.Cat r1 r2 =>
      exists b1 s1 caps1,
        den r1 b s caps b1 s1 caps1 /\ den r2 b1 s1 caps1 b' s' caps'
  | Re.Opt r1 =>
      den r1 b s caps b' s' caps' \/ (b' = b /\ s' = s /\ caps' = caps)
  | Re.Star c =>
      exists pre,
        s = pre ++ s' /\ Forall (fun a => c a = true) pre /\ caps' = caps
        /\ b' = match pre with [] => b | _ => false end
  | Re.Grp i r1 =>
      exists caps1,
        den r1 b s caps b' s' caps1
        /\ caps' = (i, take (length s - length s') s) :: caps1
  | Re.Bol => b = true /\ b' = b /\ s' = s /\ caps' = caps
  | Re.Eol => Re.at_eol s = true /\ b' = b /\ s' = s /\ caps' = caps
  end.

(** A string of [n] decimal digits. *)
Definition digits (n : nat) (s : str) : Prop :=
  length s = n /\ Forall (fun a => Str.is_digit a = true) s.

(** A non-empty string of decimal digits. *)
Definition number (s : str) : Prop :=
  s <> [] /\ Forall (fun a => Str.is_digit a = true) s.

(** A string of white space. *)
Definition blank (s : str) : Prop := Forall (fun a => Str.is_space a = true) s.

(** The head of [s], if any, is outside the class [c]: a greedy [c*] stops
    in front of [s]. *)
Definition stops (c : ascii -> bool) (s : str) : Prop :=
  match s with
  | [] => True
  | a :: _ => c a = false
  end.

(** Matching at the i-th position of the subject. *)
Definition match_at (r : Re.regex) (s : str) (i : nat) : option Re.captures :=
  Re.m r (Nat.eqb i 0) (drop i s) [] Re.accept.

(** ** Catalogue numbers *)

(** A raw catalogue number that spells the triple [(p, y, c)]: optional
    white space, the three groups with [/] or [-] between them, and
    whatever follows (a variant number, white space, other text). *)
Definition spells (raw p y c : str) : Prop :=
  exists ws s1 s2 rest,
    raw = ws ++ p ++ s1 :: y ++ s2 :: c ++ rest
    /\ Forall (fun a => Str.is_space a = true) ws
    /\ number p /\ digits 4 y /\ digits 4 c
    /\ Re.is_sep s1 = true /\ Re.is_sep s2 = true.

(** The canonical identifier of a triple. *)
Definition canonical (p y c : str) : str :=
  p ++ lit "-" ++ y ++ lit "-" ++ c.

(** A text that starts with a catalogue number in the slashed spelling
    [copy_RelevantImages.py] looks for: the groups [p], [y], [c] and a
    variant number [v], with optional white space around the slashes. *)
Definition starts_slashed (s p y c v : str) : Prop :=
  exists w1 w2 w3 w4 w5 rest,
    s = p ++ w1 ++ "/"%char :: w2 ++ y ++ w3 ++ "/"%char :: w4 ++ c
          ++ w5 ++ v ++ rest
    /\ number p /\ blank w1 /\ blank w2 /\ digits 4 y /\ blank w3 /\ blank w4
    /\ (digits 3 c \/ digits 4 c) /\ w5 <> [] /\ blank w5 /\ number v.

(** A trimmed text that is a catalogue number and nothing else, as
    [copy_images_from_excel.py] requires. *)
Definition is_exactly (s p y c v : str) : Prop :=
  exists ws s1 s2 w tail,
    s = ws ++ p ++ s1 :: y ++ s2 :: c ++ w ++ v ++ tail
    /\ blank ws /\ number p /\ digits 4 y /\ digits 4 c
    /\ Re.is_sep s1 = true /\ Re.is_sep s2 = true
    /\ w <> [] /\ blank w /\ number v /\ blank tail.

(** ** The files of an object *)

(** What a root contributes, in the order its walk yields it. *)
Definition listing_of (fs : filesystem) (root : str) : list Path :=
  match fs root with Some listing => listing | None => [] end.

(** What a root contributes to an object in [build_site.py], and the files
    gathered for the object, in root-list order. *)
Definition site_contrib (fs : filesystem) (obj_id : str) (root : str)
  : list Path :=
  List.filter (BuildSite.candidate (Str.lower (obj_id ++ lit "-")))
              (listing_of fs root).

Definition gathered_site (fs : filesystem) (roots : list str) (obj_id : str)
  : list Path :=
  flat_map (site_contrib fs obj_id) roots.

(** The files [autoOpenAIDescription.py] gathers for an object, in
    root-list order. *)
Definition belongs (obj_id : str) (p : Path) : bool :=
  AutoDesc.is_image_file p
  && bool_decide (AutoDesc.extract_object_id (name p) = Some obj_id)
  && negb (bool_decide (obj_id = [])).

Definition desc_contrib (fs : filesystem) (obj_id : str) (root : str)
  : list Path :=
  List.filter (belongs obj_id) (listing_of fs root).

Definition gathered_desc (fs : filesystem) (dirs : list str) (obj_id : str)
  : list Path :=
  flat_map (desc_contrib fs obj_id) dirs.

(** The entry of the description index for an object; an object without
    files has no entry, which consumers read as no images. *)
Definition index_entry (fs : filesystem) (dirs : list str) (obj_id : str)
  : list Path :=
  default [] (AutoDesc.collect_images_by_object fs dirs !! obj_id).

(** What the description index can see of a root: the image files whose
    name yields an identifier, in the order the walk yields them. *)
Definition indexable (p : Path) : bool :=
  AutoDesc.is_image_file p
  && match AutoDesc.extract_object_id (name p) with
     | Some (_ :: _) => true
     | _ => false
     end.

Definition visible_desc (fs : filesystem) (root : str) : list Path :=
  List.filter indexable (listing_of fs root).

(** ** De-duplication *)

(** Keeping the first element of each key: the shape both de-duplicating
    loops have. *)
Fixpoint keep_first {A K : Type} `{Countable K} (key : A -> K)
    (seen : gset K) (l : list A) : list A :=
  match l with
  | [] => []
  | x :: rest =>
      if bool_decide (key x ∈ seen) then keep_first key seen rest
      else x :: keep_first key ({[ key x ]} ∪ seen) rest
  end.

(** [out] holds one element for each key of [l], and that element is the
    first of its key in [l]. *)
Definition first_of_each {A K : Type} (key : A -> K) (l out : list A) : Prop :=
  NoDup (map key out)
  /\ (forall x, x ∈ l -> exists y, y ∈ out /\ key y = key x)
  /\ (forall y, y ∈ out ->
        exists l1 l2, l = l1 ++ y :: l2 /\ forall x, x ∈ l1 -> key x <> key y).

(** The kept copy comes from the first root, in root-list order, that holds
    a file of its key. *)
Definition from_first_root {K : Type} (key : Path -> K)
    (contrib : str -> list Path) (roots : list str) (y : Path) : Prop :=
  exists r1 r r2,
    roots = r1 ++ r :: r2 /\ y ∈ contrib r
    /\ forall r' x, r' ∈ r1 -> x ∈ contrib r' -> key x <> key y.

(** The two de-duplication keys. *)
Definition name_key (p : Path) : str := Str.lower (name p).
Definition name_size_key (p : Path) : str * Z :=
  (Str.lower (name p), BuildSite.size_of p).

(** ** The order of the images *)

(** The order [sorted] establishes. *)
Definition key_le {A K : Type} (leb : K -> K -> bool) (key : A -> K)
    (x y : A) : Prop :=
  leb (key x) (key y) = true.




(** The stem of a file name carries the sequence blocks [a] and [b]: the
    three groups of the identifier, the two blocks of three digits, and a
    tail that the script accepts. *)
Definition has_sequence (tail_ok : str -> Prop) (stm a b : str) : Prop :=
  exists p y c rest,
    stm = p ++ "-"%char :: y ++ "-"%char :: c ++ "-"%char :: a
            ++ "-"%char :: b ++ rest
    /\ number p /\ digits 4 y /\ digits 4 c /\ digits 3 a /\ digits 3 b
    /\ tail_ok rest.

(** The tail each script accepts after the blocks: anything for the
    description script, the end of the stem for the site builder. *)
Definition any_tail (rest : str) : Prop := True.




(** Among the files the roots contribute to an object, no root holds two
    of one de-duplication key, and files that tie in the sort key have
    one de-duplication key: no order of the walk can show in the entry. *)
Definition tie_free {K : Type} (dkey : Path -> K) (skey : Path -> sort_key)
    (contrib : str -> list Path) (roots : list str) : Prop :=
  (forall root, root ∈ roots -> NoDup (map dkey (contrib root)))
  /\ (forall p q,
        p ∈ flat_map contrib roots -> q ∈ flat_map contrib roots ->
        skey p = skey q -> dkey p = dkey q).

(** ** Metadata sources *)

(** The metadata source [mp] has, for the object and the field [k], the
    value [v], which is not the sentinel. *)
Definition supplies (mp : gmap str (gmap str str)) (obj_id k v : str) : Prop :=
  exists found raw,
    mp !! obj_id = Some found /\ found !! k = Some raw
    /\ AutoDesc.safe_str (Some raw) = v /\ v <> AutoDesc.NO_DATA.

(** The source has nothing for the object and the field. *)
Definition silent (mp : gmap str (gmap str str)) (obj_id k : str) : Prop :=
  forall v, ~ supplies mp obj_id k v.

(** ** The result store *)

(** The row the loop writes for an object, given what the description
    call came back with. *)
Definition row_for (md_maps : list (gmap str (gmap str str))) (obj_id : str)
    (res : AutoDesc.outcome) : AutoDesc.row :=
  AutoDesc.mkRow (Some obj_id)
    (match res with
     | AutoDesc.Return d => d
     | AutoDesc.Raise e => AutoDesc.error_placeholder e
     end)
    (AutoDesc.metadata_csv_line
       (AutoDesc.build_metadata_for_object obj_id md_maps)).

(** The rows of the result store as a run finds them. *)
Definition stored (saved : option (list AutoDesc.row)) : list AutoDesc.row :=
  default [] saved.

(** ** The retry loop *)



(** The back-off after [i] failures. *)
Definition backoff (i : nat) : float := Nat.iter i AutoDesc.next_wait 2.0%float.







(** A decimal number as a hint writes it: digits, or digits, a dot and
    digits. *)
Definition decimal (d : str) : Prop :=
  number d
  \/ exists ip fp, d = ip ++ "."%char :: fp /\ number ip /\ number fp.

(** The text [s] starts with a hint at the waiting time [d]: the words
    [try again in ] in any case, the decimal, and an [s] in any case. *)
Definition starts_hint (s d : str) : Prop :=
  exists w u rest,
    s = w ++ d ++ u :: rest
    /\ Str.lower w = lit "try again in "
    /\ decimal d
    /\ Str.lower_char u = "s"%char.

(** The leftmost hint of a message is at the waiting time [d]. *)
Definition hints_at (msg d : str) : Prop :=
  exists i,
    starts_hint (drop i msg) d
    /\ forall j d', (j < i)%nat -> ~ starts_hint (drop j msg) d'.

(** The pause that the hint [d] asks for, at the back-off [wait]: the
    float nearest to the decimal plus half a second, or the back-off when
    that float is zero. *)
Definition hinted_pause (d : str) (wait : float) : float :=
  if PrimFloat.eqb (AutoDesc.float_of_decimal d) 0%float then wait
  else PrimFloat.add (AutoDesc.float_of_decimal d) 0.5%float.

(** ** Identifiers in file names *)

(** A character of a canonical identifier: a digit or the dash. *)
Definition plain (a : ascii) : Prop := Str.is_digit a = true \/ a = "-"%char.

(** ** The prompt *)

(** The brackets of a placeholder. *)
Definition OPEN : N := 91%N.
Definition CLOSE : N := 93%N.

(** The character [c] occurs in [s]. *)
Definition has (c : N) (s : text) : bool := existsb (N.eqb c) s.

(** A template in pieces: plain text and bracketed words. *)
Inductive piece : Type :=
| Plain (s : text)
| Word (w : text).

(** A piece as it is written in the template. *)
Definition written (pc : piece) : text :=
  match pc with
  | Plain s => s
  | Word w => OPEN :: w ++ [CLOSE]
  end.

(** Plain text has no opening bracket; a bracketed word has no bracket
    inside. *)
Definition well_formed (pc : piece) : bool :=
  match pc with
  | Plain s => negb (has OPEN s)
  | Word w => negb (has OPEN w) && negb (has CLOSE w)
  end.

(** [meta.get(k, "No Data")] *)
Definition value_of (meta : gmap str str) (k : str) : text :=
  widen (default AutoDesc.NO_DATA (meta !! k)).

(** The field that a bracketed word names, if any. *)
Definition field_named (w : text) : option str :=
  List.find (fun k => bool_decide (widen k = w)) AutoDesc.FIELDS_ORDER.

(** A piece with the value of its field in its place. *)
Definition filled (meta : gmap str str) (pc : piece) : text :=
  match pc with
  | Plain s => s
  | Word w =>
      match field_named w with
      | Some k => value_of meta k
      | None => written pc
      end
  end.

(** [old] occurs in [s]. *)
Definition occurs (old s : text) : Prop :=
  exists pre post, s = pre ++ old ++ post.

(** A template from its pieces. *)
Definition render (pcs : list piece) : text := concat (map written pcs).

(** One pass of [fill_prompt] over a template in pieces. *)
Definition pass (k : text) (v : text) (pc : piece) : piece :=
  match pc with
  | Word w => if bool_decide (w = k) then Plain v else pc
  | Plain _ => pc
  end.

(** The pieces after the passes for the fields [ks]. *)
Definition filled_by (meta : gmap str str) (ks : list str) (pc : piece) : text :=
  match pc with
  | Plain s => s
  | Word w =>
      match List.find (fun k => bool_decide (widen k = w)) ks with
      | Some k => value_of meta k
      | None => written pc
      end
  end.

(** ** The images of the message *)

(** The types of the images that are sent as images. *)
Definition IMAGE_TYPES : list str :=
  [lit "image/jpeg"; lit "image/png"; lit "image/tiff"; lit "image/bmp"].

(** [f"data:{mime};base64,{b64}"] *)
Definition data_url (b64encode : AutoDesc.bytes -> str)
    (loaded : str * AutoDesc.bytes) : str :=
  lit "data:" ++ loaded.1 ++ lit ";base64," ++ b64encode loaded.2.

(** ** The copies of copy_RelevantImages.py *)

(** The name the renaming loop tries at its n-th turn. *)
Definition numbered (stm suf : str) (n : nat) : str :=
  stm ++ lit "_" ++ Str.of_nat n ++ suf.

(** The group of a row of the log, as [seen_prefixes] holds it. *)
Definition row_key (r : CopyRelevant.copied_row) : str * str :=
  (CopyRelevant.row_year r, Str.lower (CopyRelevant.row_base_prefix r)).

(** The name a copy was given: the name of its source, or the stem with a
    number and the extension. *)
Definition kept_name (c : Path * str) : Prop :=
  c.2 = name c.1
  \/ exists n, (1 <= n)%nat /\ c.2 = numbered (stem c.1) (suffix c.1) n.

(** The row [r] of the log records the copy [c] into [out_dir]. *)
Definition records (out_dir : str) (r : CopyRelevant.copied_row)
    (c : Path * str) : Prop :=
  CopyRelevant.source_path r = path_str c.1
  /\ CopyRelevant.target_path r = child_str out_dir c.2
  /\ Str.startswith (Str.lower (CopyRelevant.row_base_prefix r))
                    (Str.lower (name c.1)) = true.

(** A file that [find_matching_files] returns for the prefix [bp]. *)
Definition matching (bp : str) (src : Path) : Prop :=
  is_file src = true
  /\ Str.lower (suffix src) ∈ ALLOWED_EXTS
  /\ Str.startswith (Str.lower bp) (Str.lower (name src)) = true.

(** The file a copy makes in [out_dir]. *)
Definition copy_file (out_dir : str) (c : Path * str) : Path :=
  mkPath out_dir c.2 true (st_size c.1).

(** What [process_list] keeps true from cell to cell, for a target folder
    that held the files [existing] and the cells [cells] of the cleaned
    column. *)
Section Invariant.
Variable resolve : Path -> str.
Variable existing : gset str.
Variable out_dir : str.
Variable cells : list (nat * CopyRelevant.cell).

Record Inv (st : CopyRelevant.state) : Prop := mkInv {
  inv_seen :
    forall c, c ∈ CopyRelevant.copies st ->
      Str.lower c.2 ∈ CopyRelevant.seen_outputs st
      /\ Str.lower (resolve c.1) ∈ CopyRelevant.seen_src_paths st;
  inv_targets :
    NoDup (map (fun c : Path * str => Str.lower c.2) (CopyRelevant.copies st));
  inv_sources :
    NoDup (map (fun c : Path * str => Str.lower (resolve c.1))
               (CopyRelevant.copies st));
  inv_files :
    CopyRelevant.out_files st
    = existing ∪ list_to_set (CopyRelevant.copies st).*2;
  inv_fresh : forall c, c ∈ CopyRelevant.copies st -> c.2 ∉ existing;
  inv_rows :
    Forall2 (records out_dir) (CopyRelevant.copied_rows st)
            (CopyRelevant.copies st);
  inv_src :
    forall c, c ∈ CopyRelevant.copies st ->
      is_file c.1 = true /\ Str.lower (suffix c.1) ∈ ALLOWED_EXTS
      /\ kept_name c;
  inv_cells :
    forall r, r ∈ CopyRelevant.copied_rows st ->
      (CopyRelevant.row_index r, CopyRelevant.raw_T1 r) ∈ cells
      /\ CopyRelevant.parse_object_number
           (CopyRelevant.as_str (CopyRelevant.raw_T1 r))
         = Some (CopyRelevant.mkParsed (CopyRelevant.row_base_prefix r)
                                       (CopyRelevant.row_year r))
      /\ row_key r ∈ CopyRelevant.seen_prefixes st;
  inv_group :
    forall r1 r2,
      r1 ∈ CopyRelevant.copied_rows st -> r2 ∈ CopyRelevant.copied_rows st ->
      row_key r1 = row_key r2 ->
      CopyRelevant.row_index r1 = CopyRelevant.row_index r2
      /\ CopyRelevant.raw_T1 r1 = CopyRelevant.raw_T1 r2;
  inv_misses :
    forall m, m ∈ CopyRelevant.misses_rows st ->
      (CopyRelevant.miss_row_index m, CopyRelevant.miss_raw_T1 m) ∈ cells
}.

End Invariant.

(** The rows of the group being copied all come from the cell at hand. *)
Definition same_cell (idx : nat) (raw : CopyRelevant.cell) (key : str * str)
    (st : CopyRelevant.state) : Prop :=
  forall r, r ∈ CopyRelevant.copied_rows st -> row_key r = key ->
    CopyRelevant.row_index r = idx /\ CopyRelevant.raw_T1 r = raw.

(** The names held do not outnumber the files there were and the copies
    made, of which there are at most [n]. *)
Definition within (existing : gset str) (n : nat)
    (st : CopyRelevant.state) : Prop :=
  (size (CopyRelevant.seen_outputs st) + size (CopyRelevant.out_files st)
   <= size existing + 2 * n)%nat.

(** The row [idx] of [column] lies in the slice, its cell is not blank and
    reads [raw] once trimmed, and no row of the slice before it has a
    cell that reads the same. *)
Definition first_row_of (column : list CopyRelevant.cell)
    (row_slice : option (nat * nat)) (idx : nat) (raw : CopyRelevant.cell)
  : Prop :=
  let in_slice (i : nat) :=
    match row_slice with
    | None => True
    | Some (a, b) => (a <= i < b)%nat
    end in
  in_slice idx
  /\ (exists raw0,
        column !! idx = Some raw0 /\ raw0 <> CopyRelevant.NaN
        /\ raw = CopyRelevant.strip_cell raw0)
  /\ forall j raw1,
       (j < idx)%nat -> in_slice j -> column !! j = Some raw1 ->
       CopyRelevant.strip_cell raw1 <> raw.

(** ** The report of copy_images_from_excel.py *)

(** A row of the report for a copy that failed. *)
Definition is_copy_error (r : CopyExcel.report_row) : Prop :=
  exists e, CopyExcel.note r = lit "copy_error:" ++ e.

(** What the run reports for the value [raw]: the rows [errors] of the
    copies that failed and the closing row [summary]. *)
Definition block_of (fs : folders) (images_root : str) (raw : str)
    (errors : list CopyExcel.report_row) (summary : CopyExcel.report_row)
  : Prop :=
  Forall is_copy_error errors
  /\ match CopyExcel.parse_object_number (Some raw) with
     | None =>
         errors = []
         /\ summary = CopyExcel.mkReport raw [] [] 0 0 (lit "parse_failed")
     | Some (original, prefix, yr, code, variant) =>
         let search_prefix :=
           CopyExcel.build_search_prefix prefix yr code variant in
         CopyExcel.object summary = original
         /\ CopyExcel.year summary = yr
         /\ CopyExcel.pattern summary = search_prefix
         /\ CopyExcel.matches summary
            = length (CopyExcel.find_matching_files fs images_root yr
                        search_prefix)
         /\ CopyExcel.matches summary
            = (CopyExcel.copied summary + length errors)%nat
         /\ CopyExcel.note summary
            = (if bool_decide (errors = []) then lit "ok"
               else lit "partial_or_none")
     end.

(** The rows of the report, block by block. *)
Definition rows_of (blocks : list (list CopyExcel.report_row
                                   * CopyExcel.report_row))
  : list CopyExcel.report_row :=
  flat_map (fun b => b.1 ++ [b.2]) blocks.

(* ===================================================================== *)
(** * Sample inputs *)
(* ===================================================================== *)

(** A cell with a note in front of two catalogue numbers. *)
Definition noted_cell : str := lit "Inv. 1/1997/1063 0 und 2/1998/0002 1".

Definition file (dir nm : string) (size : Z) : Path :=
  mkPath (lit dir) (lit nm) true (Some size).

(** Two roots that hold a photo of the same name in two sizes. *)
Definition photo_aeg : Path := file "output/aeg" "1-1997-0457-000-000.jpg" 10.
Definition photo_typewriters : Path :=
  file "output/schreibmaschinen" "1-1997-0457-000-000.jpg" 20.

Definition two_roots : list str :=
  [lit "output/aeg"; lit "output/schreibmaschinen"].

Definition fs_two_sizes : filesystem :=
  fun root =>
    if bool_decide (root = lit "output/aeg") then Some [photo_aeg]
    else if bool_decide (root = lit "output/schreibmaschinen")
         then Some [photo_typewriters]
         else None.

(** Three photos of one object, out of order. *)
Definition shot_000 : Path := file "images/1997" "1-1997-0457-000-000.jpg" 10.
Definition shot_001 : Path := file "images/1997" "1-1997-0457-000-001.jpg" 11.
Definition shot_010 : Path := file "images/1997" "1-1997-0457-000-010.jpg" 12.
Definition shot_plain : Path := file "images/1997" "1-1997-0457-front.jpg" 13.

(** Two states of the disk that differ in what the index does not look
    at: a text file, a folder, a root that is not configured, and a
    configured root that is missing in one and empty in the other. *)
Definition fs_plain : filesystem :=
  fun root =>
    if bool_decide (root = lit "output/aeg") then Some [shot_001; shot_000]
    else None.

Definition year_folder : Path := mkPath (lit "output/aeg") (lit "1997") false None.
Definition notes_file : Path := file "output/aeg" "notes.txt" 3.

Definition fs_cluttered : filesystem :=
  fun root =>
    if bool_decide (root = lit "output/aeg")
    then Some [year_folder; shot_001; notes_file; shot_000]
    else if bool_decide (root = lit "output/schreibmaschinen") then Some []
    else if bool_decide (root = lit "backup") then Some [shot_010]
    else None.

(** An API that answers the first request with a rate-limit error that
    hints at two minutes, and every later one with a text; the jitter
    drawn is a quarter of a second. *)
Definition hinted_message : str :=
  lit "Error code: 429 - rate_limit_exceeded: please try again in 120s.".

Definition hinting_world : AutoDesc.world :=
  AutoDesc.mkWorld
    (fun n _ => match n with
                | O => AutoDesc.Failure hinted_message
                | _ => AutoDesc.Reply (Some (lit " A typewriter. "))
                end)
    0 (fun _ => 0.25%float) 0 [].

Definition no_content : AutoDesc.content := (∅, []).

(** An API that refuses every request for a reason that is not
    transient, and one that is down with a 503 on every request. *)
Definition refusing_world : AutoDesc.world :=
  AutoDesc.mkWorld
    (fun _ _ => AutoDesc.Failure (lit "Error code: 401 - invalid api key"))
    0 (fun _ => 0.25%float) 0 [].

Definition down_world : AutoDesc.world :=
  AutoDesc.mkWorld
    (fun _ _ => AutoDesc.Failure (lit "Error code: 503 - overloaded"))
    0 (fun _ => 0.25%float) 0 [].

(** The same two files of one stem, walked in the two possible orders. *)
Definition scan_jpg : Path := file "output/aeg" "1-1997-0457-000-000.jpg" 10.
Definition scan_png : Path := file "output/aeg" "1-1997-0457-000-000.png" 10.

Definition fs_jpg_first : filesystem :=
  fun root =>
    if bool_decide (root = lit "output/aeg") then Some [scan_jpg; scan_png]
    else None.

Definition fs_png_first : filesystem :=
  fun root =>
    if bool_decide (root = lit "output/aeg") then Some [scan_png; scan_jpg]
    else None.

(** Two copies of one photo in two folders of one root, in two sizes,
    walked in the two possible orders; and the files of [fs_cluttered],
    walked in another order. *)
Definition copy_front : Path :=
  file "output/aeg/front" "1-1997-0457-000-000.jpg" 10.
Definition copy_back : Path :=
  file "output/aeg/back" "1-1997-0457-000-000.jpg" 20.

Definition fs_front_first : filesystem :=
  fun root =>
    if bool_decide (root = lit "output/aeg") then Some [copy_front; copy_back]
    else None.

Definition fs_back_first : filesystem :=
  fun root =>
    if bool_decide (root = lit "output/aeg") then Some [copy_back; copy_front]
    else None.

Definition fs_shuffled : filesystem :=
  fun root =>
    if bool_decide (root = lit "output/aeg")
    then Some [shot_000; year_folder; notes_file; shot_001]
    else if bool_decide (root = lit "output/schreibmaschinen") then Some []
    else None.

(** Two metadata sources for one object: the first has the materials, the
    second the materials and the location. *)
Definition typewriters_sheet : gmap str (gmap str str) :=
  {[ lit "1-1997-0457" := {[ lit "Materials" := lit " steel " ]} ]}.

Definition aeg_sheet : gmap str (gmap str str) :=
  {[ lit "1-1997-0457" :=
       <[ lit "Materials" := lit "wood" ]>
         {[ lit "Location" := lit "Depot" ]} ]}.

(** A sheet that lists one object twice, the later row with more in it,
    and another object after it. *)
Definition row_early : gmap str str :=
  {[ lit "t1" := lit "1/1997/0457 0" ]}.

Definition row_late : gmap str str :=
  <[ lit "t1" := lit " 1/1997/0457 0 " ]>
    (<[ lit "t3" := lit " Stahl " ]> {[ lit "t8" := lit "Depot" ]}).

Definition row_other : gmap str str :=
  {[ lit "t1" := lit "1/1997/1063 0" ]}.

(** An index of one object, and a result store that has it. *)
Definition one_group : gmap str (list Path) :=
  {[ lit "1-1997-0457" := [shot_000; shot_001] ]}.

Definition store_with_it : list AutoDesc.row :=
  [AutoDesc.mkRow (Some (lit " 1-1997-0457 ")) (lit "A typewriter.")
     (lit "1-1997-0457, No Data")].

(** A template in pieces: two placeholders of fields and a bracketed word
    that is no field. *)
Definition sample_pieces : list piece :=
  [Plain (widen (lit "Object "));
   Word (widen (lit "InventoryNo"));
   Plain (widen (lit ", made of "));
   Word (widen (lit "Materials"));
   Word (widen (lit "unknown"))].

Definition sample_meta : gmap str str :=
  <[ lit "InventoryNo" := lit "1-1997-0457" ]>
    {[ lit "Materials" := lit "steel" ]}.

(** The names a run has given out, in lower case, and a file of the
    target folder. *)
Definition names_given : gset str := {[ lit "a.jpg"; lit "a_1.jpg" ]}.
Definition names_on_disk : gset str := {[ lit "A_2.jpg" ]}.

(** A list of two cells for one object, a blank cell, a cell without a
    number and a cell whose year has no folder; the folder of 1997 holds
    two photos of the object, a photo of another one and a text file; the
    target folder holds a file of the name of the first photo. *)
Definition sample_sheet : gmap str (list CopyRelevant.cell) :=
  {[ lit "t1" :=
       [CopyRelevant.Text (lit "1/1997/1063 0");
        CopyRelevant.NaN;
        CopyRelevant.Text (lit "Inv. 1 / 1997 / 1063 1 ");
        CopyRelevant.Text (lit "ohne Nummer");
        CopyRelevant.Text (lit "2/1998/0002 0")] ]}.

Definition scan_a : Path := file "images/1997" "1-1997-1063-000-000.jpg" 10.
Definition scan_b : Path := file "images/1997" "1-1997-1063-000-001.JPG" 11.
Definition scan_c : Path := file "images/1997" "1-1997-0457-000-000.jpg" 12.
Definition scan_txt : Path := file "images/1997" "1-1997-1063-notes.txt" 3.

Definition sample_folders : folders :=
  fun d =>
    if bool_decide (d = lit "images/1997")
    then Some [scan_b; scan_txt; scan_c; scan_a]
    else None.

Definition sample_resolve (p : Path) : str := lit "/srv/" ++ path_str p.

Definition sample_existing : gset str := {[ lit "1-1997-1063-000-000.jpg" ]}.

(** [process_list] on the sample list, and the state it ends in. *)
Definition sample_run : CopyRelevant.result CopyRelevant.state :=
  CopyRelevant.process_list 8 sample_resolve sample_folders sample_sheet
    sample_existing (lit "output/aeg") None (lit "t1").

Definition sample_final : CopyRelevant.state :=
  match sample_run with
  | CopyRelevant.Done st => st
  | _ => CopyRelevant.initial sample_existing
  end.

(** The copies of the sample run, and the rows of its log. *)
Definition copy_a : Path * str := (scan_a, lit "1-1997-1063-000-000_1.jpg").
Definition copy_b : Path * str := (scan_b, lit "1-1997-1063-000-001.JPG").

Definition logged_a : CopyRelevant.copied_row :=
  CopyRelevant.mkCopied 0 (CopyRelevant.Text (lit "1/1997/1063 0"))
    (lit "1997") (lit "1-1997-1063-")
    (lit "images/1997/1-1997-1063-000-000.jpg")
    (lit "output/aeg/1-1997-1063-000-000_1.jpg").

Definition logged_b : CopyRelevant.copied_row :=
  CopyRelevant.mkCopied 0 (CopyRelevant.Text (lit "1/1997/1063 0"))
    (lit "1997") (lit "1-1997-1063-")
    (lit "images/1997/1-1997-1063-000-001.JPG")
    (lit "output/aeg/1-1997-1063-000-001.JPG").

(** A sheet without a column [T1], and a folder with a file named after
    the catalogue number with its variant. *)
Definition sample_df : list (str * list (option str)) :=
  [(lit "Nummer", [Some (lit " 1/2024/0501 0 "); None; Some (lit "Olympia")]);
   (lit "Titel", [Some (lit "Schreibmaschine"); Some (lit "1-2024-0502 1")])].

Definition spaced_photo : Path := file "images/2024" "1-2024-0501 0 front.jpg" 10.

Definition folders_2024 : folders :=
  fun d =>
    if bool_decide (d = lit "images/2024")
    then Some [spaced_photo; file "images/2024" "1-2024-0501-000-000.jpg" 11]
    else None.

(** A [copy2] that never fails. *)
Definition copy_fine (src : Path) (dest : str) : option str := None.

(* ===================================================================== *)
(** * Facts about strings *)
(* ===================================================================== *)

Lemma startswith_spec (p s : str) :
  Str.startswith p s = true <-> exists rest, s = p ++ rest.
Proof.
  revert s. induction p as [|a p IH]; intros s; simpl.
  - split; [intros _; now exists s|reflexivity].
  - destruct s as [|b s]; [split; [discriminate|intros [? ?]; discriminate]|].
    rewrite andb_true_iff, IH. split.
    + intros [->%Ascii.eqb_eq [rest ->]]. now exists rest.
    + intros [rest [= -> ->]]. split; [apply Ascii.eqb_refl|now exists rest].
Qed.

Lemma rsplit_dot_none (s : str) :
  Str.rsplit_dot s = None <-> Forall (fun a => a <> "."%char) s.
Proof.
  induction s as [|a s IH]; cbn [Str.rsplit_dot].
  - split; [constructor|reflexivity].
  - destruct (Str.rsplit_dot s) as [[pre suf]|].
    + split; [discriminate|]. intros [_ H]%Forall_cons.
      apply IH in H. discriminate.
    + destruct (Ascii.eqb_spec a "."%char) as [->|Hne].
      * split; [discriminate|]. now intros [H _]%Forall_cons.
      * split; [|reflexivity]. intros _. constructor; [assumption|].
        now apply IH.
Qed.

Lemma rsplit_dot_some (s pre suf : str) :
  Str.rsplit_dot s = Some (pre, suf) <->
  s = pre ++ suf
  /\ exists t, suf = "."%char :: t /\ Forall (fun a => a <> "."%char) t.
Proof.
  revert pre. induction s as [|a s IH]; intros pre; cbn [Str.rsplit_dot].
  - split; [discriminate|]. intros [E (t & -> & _)]. now destruct pre.
  - destruct (Str.rsplit_dot s) as [[pre' suf']|] eqn:Es.
    + split.
      * intros [= <- <-]. destruct (proj1 (IH pre') eq_refl) as [-> Ht].
        now split.
      * intros [E (t & -> & Ht)]. destruct pre as [|b pre].
        -- cbn in E. injection E as -> ->.
           apply rsplit_dot_none in Ht. congruence.
        -- cbn in E. injection E as -> E.
           assert (Some (pre', suf') = Some (pre, "."%char :: t)) as [= -> ->];
             [|reflexivity].
           apply IH. split; [assumption|now exists t].
    + apply rsplit_dot_none in Es.
      destruct (Ascii.eqb_spec a "."%char) as [->|Hne].
      * split.
        -- intros [= <- <-]. split; [reflexivity|now exists s].
        -- intros [E (t & -> & Ht)]. destruct pre as [|b pre].
           ++ cbn in E. now injection E as <-.
           ++ cbn in E. injection E as <- ->.
              apply Forall_app in Es as [_ Es].
              apply Forall_cons in Es as [Es _]. congruence.
      * split; [discriminate|]. intros [E (t & -> & Ht)].
        destruct pre as [|b pre]; cbn in E.
        -- injection E as -> _. congruence.
        -- injection E as -> ->.
           apply Forall_app in Es as [_ Es].
           apply Forall_cons in Es as [Es _]. congruence.
Qed.

Lemma code_inj (a b : ascii) : Str.code a = Str.code b -> a = b.
Proof.
  unfold Str.code. intros H%N2Z.inj.
  rewrite <- (ascii_N_embedding a), <- (ascii_N_embedding b).
  now rewrite H.
Qed.

Lemma str_compare_refl (s : str) : Str.compare s s = Eq.
Proof.
  induction s as [|a s IH]; simpl; [reflexivity|].
  now rewrite Z.compare_refl.
Qed.

Lemma str_compare_eq (s t : str) : Str.compare s t = Eq -> s = t.
Proof.
  revert t. induction s as [|a s IH]; intros [|b t]; simpl; try discriminate.
  - reflexivity.
  - destruct (Z.compare_spec (Str.code a) (Str.code b)) as [E| |];
      try discriminate.
    intros H. apply code_inj in E. subst b. f_equal. now apply IH.
Qed.

Lemma str_compare_antisym (s t : str) :
  Str.compare t s = CompOpp (Str.compare s t).
Proof.
  revert t. induction s as [|a s IH]; intros [|b t]; simpl; try reflexivity.
  rewrite (Z.compare_antisym (Str.code a) (Str.code b)).
  destruct (Str.code a ?= Str.code b); simpl; auto.
Qed.

Lemma str_compare_trans (c : comparison) (s t u : str) :
  Str.compare s t = c -> Str.compare t u = c -> Str.compare s u = c.
Proof.
  revert t u. induction s as [|a s IH]; intros [|b t] [|d u]; simpl;
    try congruence.
  destruct (Z.compare_spec (Str.code a) (Str.code b)) as [E|L|G];
    destruct (Z.compare_spec (Str.code b) (Str.code d)) as [E'|L'|G'];
    intros H1 H2; subst c; try congruence.
  - rewrite E, E', Z.compare_refl. eapply IH; eauto.
  - rewrite E. now apply Z.compare_lt_iff in L' as ->.
  - rewrite E. now apply Z.compare_gt_iff in G' as ->.
  - rewrite <- E'. now apply Z.compare_lt_iff in L as ->.
  - assert (Str.code a < Str.code d) as ->%Z.compare_lt_iff by lia.
    reflexivity.
  - rewrite <- E'. now apply Z.compare_gt_iff in G as ->.
  - assert (Str.code d < Str.code a) as ->%Z.compare_gt_iff by lia.
    reflexivity.
Qed.

(** The order on sort keys is a total preorder. *)

Lemma key_compare_antisym (k1 k2 : sort_key) :
  key_compare k2 k1 = CompOpp (key_compare k1 k2).
Proof.
  destruct k1 as [[a1 b1] s1], k2 as [[a2 b2] s2]. simpl.
  rewrite (Z.compare_antisym a1 a2), (Z.compare_antisym b1 b2),
    (str_compare_antisym s1 s2).
  destruct (a1 ?= a2); simpl; auto.
  destruct (b1 ?= b2); simpl; auto.
Qed.

Lemma key_compare_eq (k1 k2 : sort_key) : key_compare k1 k2 = Eq -> k1 = k2.
Proof.
  destruct k1 as [[a1 b1] s1], k2 as [[a2 b2] s2]. simpl.
  destruct (Z.compare_spec a1 a2); try discriminate.
  destruct (Z.compare_spec b1 b2); try discriminate.
  intros ->%str_compare_eq. congruence.
Qed.

Lemma key_compare_trans (c : comparison) (k1 k2 k3 : sort_key) :
  key_compare k1 k2 = c -> key_compare k2 k3 = c -> key_compare k1 k3 = c.
Proof.
  destruct k1 as [[a1 b1] s1], k2 as [[a2 b2] s2], k3 as [[a3 b3] s3]. simpl.
  destruct (Z.compare_spec a1 a2) as [E|L|G];
    destruct (Z.compare_spec a2 a3) as [E'|L'|G'];
    intros H1 H2; subst; try congruence;
    try (rewrite Z.compare_refl);
    try (match goal with
         | L : ?x < ?y |- context [?x ?= ?y] =>
             apply Z.compare_lt_iff in L; rewrite L
         | G : ?y < ?x |- context [?x ?= ?y] =>
             apply Z.compare_gt_iff in G; rewrite G
         end; congruence).
  - destruct (Z.compare_spec b1 b2) as [E|L|G];
      destruct (Z.compare_spec b2 b3) as [E'|L'|G'];
      subst; try congruence;
      try (rewrite Z.compare_refl);
      try (match goal with
           | L : ?x < ?y |- context [?x ?= ?y] =>
               apply Z.compare_lt_iff in L; rewrite L
           | G : ?y < ?x |- context [?x ?= ?y] =>
               apply Z.compare_gt_iff in G; rewrite G
           end; congruence).
    + eapply str_compare_trans; eauto.
    + assert (b1 < b3) as ->%Z.compare_lt_iff by lia. congruence.
    + assert (b3 < b1) as ->%Z.compare_gt_iff by lia. congruence.
  - assert (a1 < a3) as ->%Z.compare_lt_iff by lia. congruence.
  - assert (a3 < a1) as ->%Z.compare_gt_iff by lia. congruence.
Qed.

Lemma key_leb_total (k1 k2 : sort_key) :
  key_leb k1 k2 = true \/ key_leb k2 k1 = true.
Proof.
  unfold key_leb. rewrite (key_compare_antisym k1 k2).
  destruct (key_compare k1 k2); simpl; auto.
Qed.

Lemma key_leb_trans (k1 k2 k3 : sort_key) :
  key_leb k1 k2 = true -> key_leb k2 k3 = true -> key_leb k1 k3 = true.
Proof.
  unfold key_leb.
  destruct (key_compare k1 k2) eqn:E12; try discriminate;
    destruct (key_compare k2 k3) eqn:E23; try discriminate; intros _ _.
  - apply key_compare_eq in E12. subst. now rewrite E23.
  - apply key_compare_eq in E12. subst. now rewrite E23.
  - apply key_compare_eq in E23. subst. now rewrite E12.
  - now rewrite (key_compare_trans Lt _ _ _ E12 E23).
Qed.

(* ===================================================================== *)
(** * Facts about [sorted] *)
(* ===================================================================== *)

Section SortFacts.
Context {A K : Type} (leb : K -> K -> bool) (key : A -> K).

Lemma insert_by_perm (x : A) (l : list A) :
  Permutation (insert_by leb key x l) (x :: l).
Proof.
  induction l as [|y l IH]; simpl; [reflexivity|].
  destruct (leb (key x) (key y)); [reflexivity|].
  rewrite IH. apply perm_swap.
Qed.

Lemma sorted_by_perm (l : list A) : Permutation (sorted_by leb key l) l.
Proof.
  induction l as [|x l IH]; simpl; [reflexivity|].
  rewrite insert_by_perm. now constructor.
Qed.

Lemma sorted_by_elem (x : A) (l : list A) :
  x ∈ sorted_by leb key l <-> x ∈ l.
Proof. now rewrite (sorted_by_perm l). Qed.



Hypothesis leb_total : forall a b, leb a b = true \/ leb b a = true.
Hypothesis leb_trans :
  forall a b c, leb a b = true -> leb b c = true -> leb a c = true.

Lemma insert_by_sorted (x : A) (l : list A) :
  StronglySorted (key_le leb key) l ->
  StronglySorted (key_le leb key) (insert_by leb key x l).
Proof.
  induction 1 as [|y l Hs IH Hall]; simpl.
  - repeat constructor.
  - destruct (leb (key x) (key y)) eqn:E.
    + constructor; [now constructor|].
      constructor; [exact E|].
      eapply Forall_impl; [exact Hall|].
      intros z Hz. eapply leb_trans; eauto.
    + constructor; [exact IH|].
      rewrite (insert_by_perm x l). constructor; [|exact Hall].
      destruct (leb_total (key x) (key y)) as [H|H]; [congruence|exact H].
Qed.

Lemma sorted_by_sorted (l : list A) :
  StronglySorted (key_le leb key) (sorted_by leb key l).
Proof.
  induction l as [|x l IH]; simpl; [constructor|].
  now apply insert_by_sorted.
Qed.
End SortFacts.

(* ===================================================================== *)
(** * Facts about de-duplication *)
(* ===================================================================== *)

Section KeepFirst.
Context {A K : Type} `{Countable K} (key : A -> K).

Lemma keep_first_elem (seen : gset K) (l : list A) (y : A) :
  y ∈ keep_first key seen l -> y ∈ l /\ key y ∉ seen.
Proof.
  revert seen. induction l as [|x l IH]; intros seen; simpl.
  - intros Hy. inversion Hy.
  - case_bool_decide as Hx.
    + intros [? ?]%IH. split; [now right|assumption].
    + intros [->|Hy]%elem_of_cons.
      * split; [now left|assumption].
      * apply IH in Hy as [? ?]. split; [now right|set_solver].
Qed.

Lemma keep_first_nodup (seen : gset K) (l : list A) :
  NoDup (map key (keep_first key seen l)).
Proof.
  revert seen. induction l as [|x l IH]; intros seen; simpl.
  - constructor.
  - case_bool_decide as Hx; [apply IH|].
    simpl. constructor; [|apply IH].
    intros (y & Hk & Hy)%(list_elem_of_fmap_1 key).
    apply keep_first_elem in Hy as [_ Hy]. set_solver.
Qed.

Lemma keep_first_complete (seen : gset K) (l : list A) (x : A) :
  x ∈ l -> key x ∉ seen -> exists y, y ∈ keep_first key seen l /\ key y = key x.
Proof.
  revert seen. induction l as [|z l IH]; intros seen Hx Hseen.
  - inversion Hx.
  - simpl. apply elem_of_cons in Hx as [->|Hx].
    + rewrite bool_decide_eq_false_2 by assumption.
      exists z. split; [now left|reflexivity].
    + case_bool_decide as Hz; [now apply IH|].
      destruct (decide (key x = key z)) as [E|N].
      * exists z. split; [now left|now symmetry].
      * destruct (IH ({[key z]} ∪ seen) Hx) as (y & Hy & E); [set_solver|].
        exists y. split; [now right|assumption].
Qed.

Lemma keep_first_first (seen : gset K) (l : list A) (y : A) :
  y ∈ keep_first key seen l ->
  exists l1 l2, l = l1 ++ y :: l2 /\ forall x, x ∈ l1 -> key x <> key y.
Proof.
  revert seen. induction l as [|z l IH]; intros seen; simpl.
  - intros Hy. inversion Hy.
  - case_bool_decide as Hz.
    + intros Hy. pose proof (keep_first_elem _ _ _ Hy) as [_ Hn].
      apply IH in Hy as (l1 & l2 & -> & Hl1).
      exists (z :: l1), l2. split; [reflexivity|].
      intros x [->|Hx]%elem_of_cons; [congruence|now apply Hl1].
    + intros [->|Hy]%elem_of_cons.
      * exists [], l. split; [reflexivity|]. intros x Hx. inversion Hx.
      * pose proof (keep_first_elem _ _ _ Hy) as [_ Hn].
        apply IH in Hy as (l1 & l2 & -> & Hl1).
        exists (z :: l1), l2. split; [reflexivity|].
        intros x [->|Hx]%elem_of_cons; [set_solver|now apply Hl1].
Qed.

Lemma keep_first_spec (l : list A) :
  first_of_each key l (keep_first key ∅ l).
Proof.
  split; [apply keep_first_nodup|split].
  - intros x Hx. apply keep_first_complete; [assumption|set_solver].
  - intros y Hy. eapply keep_first_first; eassumption.
Qed.

Lemma first_of_each_perm (l out out' : list A) :
  Permutation out out' -> first_of_each key l out -> first_of_each key l out'.
Proof.
  intros HP (Hnd & Hall & Hfirst). split; [|split].
  - assert (map key out ≡ₚ map key out') as <- by now apply Permutation_map.
    exact Hnd.
  - intros x Hx. destruct (Hall x Hx) as (y & Hy & E).
    exists y. split; [now rewrite <- HP|assumption].
  - intros y Hy. apply Hfirst. now rewrite HP.
Qed.

End KeepFirst.

Lemma desc_unique_loop_keep_first (seen : gset str) (l : list Path) :
  AutoDesc.unique_loop seen l = keep_first name_key seen l.
Proof.
  revert seen. induction l as [|p l IH]; intros seen; simpl; [reflexivity|].
  unfold name_key at 1 3. now rewrite !IH.
Qed.

Lemma site_unique_loop_keep_first (seen : gset (str * Z)) (l : list Path) :
  BuildSite.unique_loop seen
    (map (fun p => (p, Str.lower (name p), BuildSite.size_of p)) l)
  = keep_first name_size_key seen l.
Proof.
  revert seen. induction l as [|p l IH]; intros seen; simpl; [reflexivity|].
  unfold name_size_key at 1 3. now rewrite !IH.
Qed.

Lemma site_candidates_gathered (fs : filesystem) (roots : list str) (obj_id : str) :
  BuildSite.collect_candidates fs roots obj_id
  = map (fun p => (p, Str.lower (name p), BuildSite.size_of p))
        (gathered_site fs roots obj_id).
Proof.
  unfold BuildSite.collect_candidates, gathered_site, site_contrib, listing_of.
  generalize (Str.lower (obj_id ++ lit "-")). intros pre.
  induction roots as [|r roots IH]; cbn [flat_map]; [reflexivity|].
  rewrite map_app, <- IH. now destruct (fs r).
Qed.

(** The last turn of a concatenation over the roots that holds a given
    position. *)
Lemma flat_map_split {A B : Type} (g : A -> list B) (rs : list A)
    (l1 l2 : list B) (y : B) :
  flat_map g rs = l1 ++ y :: l2 ->
  exists r1 r r2 a b,
    rs = r1 ++ r :: r2 /\ g r = a ++ y :: b /\ l1 = flat_map g r1 ++ a.
Proof.
  revert l1. induction rs as [|r rs IH]; intros l1; cbn [flat_map].
  - intros E. now destruct l1.
  - intros E. apply List.app_eq_app in E as [l [[E1 E2]|[E1 E2]]].
    + destruct l as [|y' l].
      * rewrite app_nil_r in E1. simpl in E2. symmetry in E2.
        destruct (IH [] E2) as (r1 & r0 & r2 & a & b & -> & Hg & E3).
        exists (r :: r1), r0, r2, a, b. cbn [flat_map].
        split; [reflexivity|]. split; [assumption|].
        rewrite <- app_assoc, <- E3, app_nil_r. congruence.
      * injection E2 as -> _.
        exists [], r, rs, l1, l. now rewrite E1.
    + destruct (IH l E2) as (r1 & r0 & r2 & a & b & -> & Hg & ->).
      exists (r :: r1), r0, r2, a, b. cbn [flat_map].
      split; [reflexivity|]. split; [assumption|].
      now rewrite E1, app_assoc.
Qed.

(* ===================================================================== *)
(** * The image index, object by object *)
(* ===================================================================== *)

Lemma scan_path_lookup (g : gmap str (list Path)) (p : Path) (obj_id : str) :
  AutoDesc.scan_path g p !! obj_id
  = if belongs obj_id p then Some (default [] (g !! obj_id) ++ [p])
    else g !! obj_id.
Proof.
  unfold AutoDesc.scan_path, belongs, AutoDesc.append_to.
  destruct (AutoDesc.is_image_file p); [|reflexivity]. cbn [andb].
  destruct (AutoDesc.extract_object_id (name p)) as [[|c o]|] eqn:E.
  - case_bool_decide as H1; [|reflexivity].
    injection H1 as <-. now rewrite bool_decide_eq_true_2.
  - case_bool_decide as H1.
    + injection H1 as <-. cbn. now rewrite lookup_insert_eq.
    + cbn. rewrite lookup_insert_ne; [reflexivity|congruence].
  - now rewrite bool_decide_eq_false_2.
Qed.

Lemma scan_listing_lookup (listing : list Path) (g : gmap str (list Path))
    (obj_id : str) :
  foldl AutoDesc.scan_path g listing !! obj_id
  = match List.filter (belongs obj_id) listing with
    | [] => g !! obj_id
    | l => Some (default [] (g !! obj_id) ++ l)
    end.
Proof.
  revert g. induction listing as [|p listing IH]; intros g; [reflexivity|].
  cbn [foldl List.filter]. rewrite IH, scan_path_lookup.
  destruct (belongs obj_id p); [|reflexivity].
  destruct (List.filter (belongs obj_id) listing) as [|q l]; simpl.
  - reflexivity.
  - f_equal. rewrite <- app_assoc. reflexivity.
Qed.

Lemma scan_roots_lookup (fs : filesystem) (dirs : list str)
    (g : gmap str (list Path)) (obj_id : str) :
  foldl (AutoDesc.scan_root fs) g dirs !! obj_id
  = match gathered_desc fs dirs obj_id with
    | [] => g !! obj_id
    | l => Some (default [] (g !! obj_id) ++ l)
    end.
Proof.
  unfold gathered_desc, desc_contrib.
  revert g. induction dirs as [|r dirs IH]; intros g; [reflexivity|].
  cbn [foldl flat_map]. rewrite IH.
  assert (AutoDesc.scan_root fs g r !! obj_id
          = match List.filter (belongs obj_id) (listing_of fs r) with
            | [] => g !! obj_id
            | l => Some (default [] (g !! obj_id) ++ l)
            end) as ->.
  { unfold AutoDesc.scan_root, listing_of.
    destruct (fs r); [apply scan_listing_lookup|reflexivity]. }
  destruct (List.filter (belongs obj_id) (listing_of fs r)) as [|a l];
    [reflexivity|].
  destruct (flat_map _ dirs) as [|b l']; simpl.
  - now rewrite app_nil_r.
  - f_equal. rewrite <- app_assoc. reflexivity.
Qed.

(** The entry of the index for an object: the gathered files, first of
    each name kept, sorted; no entry when nothing was gathered. *)
Lemma index_lookup (fs : filesystem) (dirs : list str) (obj_id : str) :
  AutoDesc.collect_images_by_object fs dirs !! obj_id
  = match gathered_desc fs dirs obj_id with
    | [] => None
    | l => Some (sorted_by key_leb AutoDesc.suffix_sort_key
                   (AutoDesc.unique_by_filename l))
    end.
Proof.
  unfold AutoDesc.collect_images_by_object.
  rewrite lookup_fmap, scan_roots_lookup, lookup_empty.
  now destruct (gathered_desc fs dirs obj_id).
Qed.

Lemma index_entry_eq (fs : filesystem) (dirs : list str) (obj_id : str) :
  index_entry fs dirs obj_id
  = sorted_by key_leb AutoDesc.suffix_sort_key
      (AutoDesc.unique_by_filename (gathered_desc fs dirs obj_id)).
Proof.
  unfold index_entry. rewrite index_lookup.
  now destruct (gathered_desc fs dirs obj_id).
Qed.

(* ===================================================================== *)
(** * C1: one entry per duplicate, the first in root order *)
(* ===================================================================== *)

Lemma first_of_each_root {K : Type} (key : Path -> K)
    (contrib : str -> list Path) (roots : list str) (out : list Path) (y : Path) :
  first_of_each key (flat_map contrib roots) out ->
  y ∈ out -> from_first_root key contrib roots y.
Proof.
  intros (_ & _ & Hfirst) Hy.
  destruct (Hfirst y Hy) as (l1 & l2 & E & Hl1).
  apply flat_map_split in E as (r1 & r & r2 & a & b & -> & Hr & ->).
  exists r1, r, r2. split; [reflexivity|]. split.
  - rewrite Hr. apply list_elem_of_In, in_elt.
  - intros r' x Hr' Hx. apply Hl1.
    apply elem_of_app. left.
    apply list_elem_of_In, in_flat_map. exists r'.
    split; now apply list_elem_of_In.
Qed.

Lemma site_first_of_each (fs : filesystem) (roots : list str) (obj_id : str) :
  first_of_each name_size_key (gathered_site fs roots obj_id)
                (BuildSite.collect_images_for_object fs roots obj_id).
Proof.
  unfold BuildSite.collect_images_for_object.
  rewrite site_candidates_gathered, site_unique_loop_keep_first.
  eapply first_of_each_perm; [|apply keep_first_spec].
  symmetry. apply sorted_by_perm.
Qed.

Lemma desc_first_of_each (fs : filesystem) (dirs : list str) (obj_id : str) :
  first_of_each name_key (gathered_desc fs dirs obj_id)
                (index_entry fs dirs obj_id).
Proof.
  rewrite index_entry_eq. unfold AutoDesc.unique_by_filename.
  rewrite desc_unique_loop_keep_first.
  eapply first_of_each_perm; [|apply keep_first_spec].
  symmetry. apply sorted_by_perm.
Qed.

(** C1 (as amended).  In both image indexes the entry of an object holds
    exactly one file for each de-duplication key among the files gathered
    for the object across the roots, and the file kept is the first of its
    key, which comes from the first root in root-list order holding one.
    The key is (lowercased filename, file size) in [build_site.py] and the
    lowercased filename alone in [autoOpenAIDescription.py]. *)
Theorem C1_first_copy_per_key (fs : filesystem) (roots : list str) (obj_id : str) :
  (first_of_each name_size_key (gathered_site fs roots obj_id)
                 (BuildSite.collect_images_for_object fs roots obj_id)
   /\ forall y, y ∈ BuildSite.collect_images_for_object fs roots obj_id ->
        from_first_root name_size_key (site_contrib fs obj_id) roots y)
  /\ (first_of_each name_key (gathered_desc fs roots obj_id)
                    (index_entry fs roots obj_id)
      /\ forall y, y ∈ index_entry fs roots obj_id ->
           from_first_root name_key (desc_contrib fs obj_id) roots y).
Proof.
  split; split.
  - apply site_first_of_each.
  - intros y. apply first_of_each_root, site_first_of_each.
  - apply desc_first_of_each.
  - intros y. apply first_of_each_root, desc_first_of_each.
Qed.

(** C1, the claim as stated, fails on the description index: of two files
    of one name and different sizes, found under two roots, only the first
    has an entry, although their (lowercased filename, size) keys differ. *)
Lemma C1_counterexample :
  gathered_desc fs_two_sizes two_roots (lit "1-1997-0457")
    = [photo_aeg; photo_typewriters]
  /\ name_size_key photo_aeg <> name_size_key photo_typewriters
  /\ index_entry fs_two_sizes two_roots (lit "1-1997-0457") = [photo_aeg]
  /\ ~ first_of_each name_size_key
         (gathered_desc fs_two_sizes two_roots (lit "1-1997-0457"))
         (index_entry fs_two_sizes two_roots (lit "1-1997-0457")).
Proof.
  assert (gathered_desc fs_two_sizes two_roots (lit "1-1997-0457")
          = [photo_aeg; photo_typewriters]) as Eg by (vm_compute; reflexivity).
  assert (index_entry fs_two_sizes two_roots (lit "1-1997-0457") = [photo_aeg])
    as Ei by (vm_compute; reflexivity).
  assert (name_size_key photo_aeg <> name_size_key photo_typewriters) as Hk
    by (vm_compute; discriminate).
  repeat split; try assumption.
  rewrite Eg, Ei. intros (_ & Hall & _).
  destruct (Hall photo_typewriters) as (y & Hy & E).
  - right. left.
  - apply list_elem_of_singleton in Hy. subst y. contradiction.
Qed.

(* ===================================================================== *)
(** * Facts about matching *)
(* ===================================================================== *)

(** Whatever the matcher returns came from a match of the regex followed by
    the continuation. *)
Lemma m_sound (r : Re.regex) :
  forall b s caps k res,
    Re.m r b s caps k = Some res ->
    exists b' s' caps', den r b s caps b' s' caps' /\ k b' s' caps' = Some res.
Proof.
  induction r as [|c|r1 IH1 r2 IH2|r1 IH1|c|i r1 IH1| |];
    intros b s caps k res; cbn [Re.m den].
  - intros H. now exists b, s, caps.
  - destruct s as [|a s]; [discriminate|].
    destruct (c a) eqn:Ec; [|discriminate].
    intros H. exists false, s, caps. split; [|assumption]. now exists a.
  - intros H. apply IH1 in H as (b1 & s1 & c1 & D1 & H).
    apply IH2 in H as (b2 & s2 & c2 & D2 & H).
    exists b2, s2, c2. split; [|assumption]. now exists b1, s1, c1.
  - destruct (Re.m r1 b s caps k) as [res'|] eqn:E.
    + intros [= <-]. apply IH1 in E as (b1 & s1 & c1 & D1 & H).
      exists b1, s1, c1. split; [now left|assumption].
    + intros H. exists b, s, caps. split; [now right|assumption].
  - revert b. induction s as [|a s IHs]; intros b.
    + intros H. exists b, [], caps. split; [|assumption].
      exists []. repeat split. constructor.
    + destruct (c a) eqn:Ec.
      * match goal with
        | |- match ?inner with _ => _ end = _ -> _ => destruct inner eqn:E
        end.
        -- intros [= <-]. apply IHs in E as (b' & s' & caps' & D & H).
           destruct D as (pre & -> & Hpre & -> & Hb).
           exists b', s', caps. split; [|assumption].
           exists (a :: pre). repeat split.
           ++ now constructor.
           ++ now destruct pre.
        -- intros H. exists b, (a :: s), caps. split; [|assumption].
           exists []. repeat split. constructor.
      * intros H. exists b, (a :: s), caps. split; [|assumption].
        exists []. repeat split. constructor.
  - intros H. apply IH1 in H as (b1 & s1 & c1 & D1 & H).
    exists b1, s1, ((i, take (length s - length s1) s) :: c1).
    split; [|assumption]. now exists c1.
  - destruct b; [|discriminate]. intros H. now exists true, s, caps.
  - destruct (Re.at_eol s) eqn:E; [|discriminate].
    intros H. now exists b, s, caps.
Qed.

Lemma re_match_sound (r : Re.regex) (s : str) (caps : Re.captures) :
  Re.re_match r s = Some caps -> exists b' s', den r true s [] b' s' caps.
Proof.
  intros H. apply m_sound in H as (b' & s' & caps' & D & [= <-]).
  now exists b', s'.
Qed.

(** [n] digits in a row. *)
Lemma den_rep_digit (n : nat) :
  forall b s caps b' s' caps',
    den (Re.rep n Re.digit) b s caps b' s' caps' ->
    exists ds, s = ds ++ s' /\ digits n ds /\ caps' = caps.
Proof.
  induction n as [|n IH]; intros b s caps b' s' caps'; cbn [Re.rep den].
  - intros (-> & -> & ->). exists []. repeat split. constructor.
  - intros (b1 & s1 & c1 & (a & -> & Ha & -> & ->) & D).
    apply IH in D as (ds & -> & [Hlen Hds] & ->).
    exists (a :: ds). repeat split; simpl; [now f_equal|now constructor].
Qed.

(** One or more characters of a class. *)
Lemma den_plus (c : ascii -> bool) b s caps b' s' caps' :
  den (Re.plus c) b s caps b' s' caps' ->
  exists pre,
    s = pre ++ s' /\ pre <> [] /\ Forall (fun a => c a = true) pre
    /\ caps' = caps.
Proof.
  cbn [Re.plus den].
  intros (b1 & s1 & c1 & (a & -> & Ha & -> & ->) & pre & -> & Hpre & -> & _).
  exists (a :: pre). repeat split; [discriminate|now constructor].
Qed.

Lemma den_chr (x : ascii) b s caps b' s' caps' :
  den (Re.chr x) b s caps b' s' caps' -> s = x :: s' /\ caps' = caps.
Proof.
  cbn [Re.chr den]. intros (a & -> & Ha & -> & ->).
  apply Ascii.eqb_eq in Ha. now subst.
Qed.

(** The text a group captured. *)
Lemma take_consumed (pre rest : str) :
  take (length (pre ++ rest) - length rest) (pre ++ rest) = pre.
Proof.
  rewrite length_app, Nat.add_sub. apply take_app_length.
Qed.

Ltac den_step :=
  match goal with
  | H : exists _, _ |- _ => destruct H as [? H]
  | H : _ /\ _ |- _ => destruct H as [? H]
  | H : _ \/ _ |- _ => destruct H as [H|H]
  | H : den (Re.plus _) _ _ _ _ _ _ |- _ =>
      apply den_plus in H
  | H : den (Re.rep _ Re.digit) _ _ _ _ _ _ |- _ =>
      apply den_rep_digit in H
  | H : den (Re.chr _) _ _ _ _ _ _ |- _ =>
      apply den_chr in H
  | H : den Re.digit _ _ _ _ _ _ |- _ =>
      unfold Re.digit in H; cbn [den] in H
  end.

Ltac close_shape := repeat (first [assumption | reflexivity | split]).

Ltac den_inv H :=
  cbn [foldr den Re.seq] in H; repeat den_step; subst;
  rewrite ?take_consumed in *.



Lemma obj_id_pattern_sound (s : str) (caps : Re.captures) :
  Re.re_match AutoDesc.OBJ_ID_PATTERN s = Some caps ->
  exists p y c rest,
    s = p ++ "-"%char :: y ++ "-"%char :: c ++ rest
    /\ number p /\ digits 4 y /\ digits 4 c
    /\ caps = [(3%nat, c); (2%nat, y); (1%nat, p)].
Proof.
  intros H. apply re_match_sound in H as (b' & s' & D).
  unfold AutoDesc.OBJ_ID_PATTERN in D. den_inv D.
  match goal with
  | |- exists p y c rest, ?p0 ++ _ :: ?y0 ++ _ :: ?c0 ++ ?r0 = _ /\ _ =>
      exists p0, y0, c0, r0
  end.
  close_shape.
Qed.

(** ** Digits as integers *)




(* ===================================================================== *)
(** * Running the matcher forward *)
(* ===================================================================== *)

(** Each lemma says where the first alternative Python tries leads: when the
    continuation succeeds there, that is the result. *)

Lemma run_cat r1 r2 b s caps k R :
  Re.m r1 b s caps (fun b' s' caps' => Re.m r2 b' s' caps' k) = Some R ->
  Re.m (Re.Cat r1 r2) b s caps k = Some R.
Proof. exact id. Qed.

Lemma run_seq_cons r rs b s caps k R :
  Re.m r b s caps (fun b' s' caps' => Re.m (Re.seq rs) b' s' caps' k) = Some R ->
  Re.m (Re.seq (r :: rs)) b s caps k = Some R.
Proof. exact id. Qed.

Lemma run_seq_nil b s caps k R :
  k b s caps = Some R -> Re.m (Re.seq []) b s caps k = Some R.
Proof. exact id. Qed.

Lemma run_bol s caps k R :
  k true s caps = Some R -> Re.m Re.Bol true s caps k = Some R.
Proof. exact id. Qed.

Lemma run_cls c a b s caps k R :
  c a = true -> k false s caps = Some R ->
  Re.m (Re.Cls c) b (a :: s) caps k = Some R.
Proof. intros Hc Hk. cbn [Re.m]. now rewrite Hc. Qed.

Lemma run_grp i r b s caps k R :
  Re.m r b s caps
    (fun b' s' caps' => k b' s' ((i, take (length s - length s') s) :: caps'))
    = Some R ->
  Re.m (Re.Grp i r) b s caps k = Some R.
Proof. exact id. Qed.

Lemma run_eol s b caps k R :
  Re.at_eol s = true -> k b s caps = Some R ->
  Re.m Re.Eol b s caps k = Some R.
Proof. intros He Hk. cbn [Re.m]. now rewrite He. Qed.

Lemma run_star_stop c b s caps k :
  stops c s -> Re.m (Re.Star c) b s caps k = k b s caps.
Proof.
  destruct s as [|a s]; cbn [Re.m stops]; [reflexivity|].
  now intros ->.
Qed.

Lemma run_star c pre rest b caps k R :
  Forall (fun a => c a = true) pre -> stops c rest ->
  k (match pre with [] => b | _ => false end) rest caps = Some R ->
  Re.m (Re.Star c) b (pre ++ rest) caps k = Some R.
Proof.
  intros Hpre Hstop. revert b. induction Hpre as [|a pre Ha Hpre IH]; intros b Hk.
  - simpl app. now rewrite run_star_stop.
  - specialize (IH false). simpl app. cbn [Re.m] in IH |- *. rewrite Ha.
    rewrite IH; [reflexivity|]. now destruct pre.
Qed.

Lemma run_plus c pre rest b caps k R :
  pre <> [] -> Forall (fun a => c a = true) pre -> stops c rest ->
  k false rest caps = Some R ->
  Re.m (Re.plus c) b (pre ++ rest) caps k = Some R.
Proof.
  intros Hne Hpre Hstop Hk. destruct pre as [|a pre]; [contradiction|].
  inversion Hpre as [|? ? Ha Hpre']; subst.
  apply run_cat. simpl app. apply run_cls; [assumption|].
  apply run_star; [assumption|assumption|]. now destruct pre.
Qed.

Lemma run_rep_digit ds rest b caps k R :
  Forall (fun a => Str.is_digit a = true) ds ->
  k (match ds with [] => b | _ => false end) rest caps = Some R ->
  Re.m (Re.rep (length ds) Re.digit) b (ds ++ rest) caps k = Some R.
Proof.
  intros Hds. revert b. induction Hds as [|a ds Ha Hds IH]; intros b Hk.
  - exact Hk.
  - cbn [length Re.rep]. apply run_cat. simpl app.
    apply run_cls; [assumption|]. apply IH. now destruct ds.
Qed.

(** ** White space around a string *)

Lemma digit_not_space (a : ascii) : Str.is_digit a = true -> Str.is_space a = false.
Proof. unfold Str.is_digit, Str.is_space, Str.in_range. lia. Qed.

Lemma sep_not_digit (a : ascii) : Re.is_sep a = true -> Str.is_digit a = false.
Proof.
  unfold Re.is_sep. intros [H|H]%orb_true_iff; apply Ascii.eqb_eq in H;
    subst a; reflexivity.
Qed.

Lemma lstrip_spaces (ws t : str) :
  Forall (fun a => Str.is_space a = true) ws ->
  Str.lstrip (ws ++ t) = Str.lstrip t.
Proof.
  induction 1 as [|a ws Ha Hws IH]; [reflexivity|].
  simpl. now rewrite Ha.
Qed.

Lemma lstrip_app_nonspace (x y : str) (a : ascii) :
  Str.is_space a = false ->
  Str.lstrip (x ++ a :: y) = Str.lstrip x ++ a :: y.
Proof.
  intros Ha. induction x as [|b x IH]; simpl.
  - now rewrite Ha.
  - destruct (Str.is_space b); [assumption|reflexivity].
Qed.

Lemma rstrip_app_nonspace (x y : str) (a : ascii) :
  Str.is_space a = false ->
  Str.rstrip (x ++ a :: y) = x ++ a :: Str.rstrip y.
Proof.
  intros Ha. unfold Str.rstrip.
  rewrite rev_app_distr. simpl rev. rewrite <- app_assoc. simpl app.
  rewrite lstrip_app_nonspace by assumption.
  rewrite rev_app_distr. simpl rev. rewrite <- app_assoc, rev_involutive.
  reflexivity.
Qed.

(** Trimming leaves a string that starts and ends outside white space as
    it is, up to what follows its last character. *)
Lemma strip_core (ws x y : str) (a b : ascii) :
  Forall (fun a => Str.is_space a = true) ws ->
  Str.is_space a = false -> Str.is_space b = false ->
  Str.strip (ws ++ a :: x ++ b :: y) = a :: x ++ b :: Str.rstrip y.
Proof.
  intros Hws Ha Hb. unfold Str.strip.
  rewrite lstrip_spaces by assumption. cbn [Str.lstrip]. rewrite Ha.
  exact (rstrip_app_nonspace (a :: x) y b Hb).
Qed.

Lemma run_rep_digits n ds rest b caps k R :
  digits (S n) ds ->
  k false rest caps = Some R ->
  Re.m (Re.rep (S n) Re.digit) b (ds ++ rest) caps k = Some R.
Proof.
  intros [Hlen Hds] Hk. rewrite <- Hlen.
  apply run_rep_digit; [assumption|]. now destruct ds.
Qed.

Lemma search_hit (r : Re.regex) (b : bool) (s : str) (caps : Re.captures) :
  Re.m r b s [] Re.accept = Some caps -> Re.search_from r b s = Some caps.
Proof. intros H. destruct s; simpl; now rewrite H. Qed.

(** An anchored pattern can only match at the start of the subject, so
    [search] on it is [match]. *)
Lemma search_anchored (r : Re.regex) (s : str) :
  Re.re_search (Re.Cat Re.Bol r) s = Re.re_match (Re.Cat Re.Bol r) s.
Proof.
  unfold Re.re_search, Re.re_match.
  assert (forall t, Re.search_from (Re.Cat Re.Bol r) false t = None) as Hno.
  { induction t as [|a t IH]; simpl; [reflexivity|exact IH]. }
  destruct s as [|a s]; cbn [Re.search_from].
  - now destruct (Re.m (Re.Cat Re.Bol r) true [] [] Re.accept).
  - destruct (Re.m (Re.Cat Re.Bol r) true (a :: s) [] Re.accept);
      [reflexivity|apply Hno].
Qed.

Ltac run_re :=
  repeat (cbv beta;
    lazymatch goal with
    | |- Re.m (Re.seq []) _ _ _ _ = _ => apply run_seq_nil
    | |- Re.m (Re.seq (_ :: _)) _ _ _ _ = _ => apply run_seq_cons
    | |- Re.m Re.Bol true _ _ _ = _ => apply run_bol
    | |- Re.m (Re.Grp _ _) _ _ _ _ = _ => apply run_grp
    | |- Re.m Re.Eol _ _ _ _ = _ => apply run_eol; [assumption|]
    | |- Re.m (Re.rep (S _) Re.digit) _ (_ ++ _) _ _ = _ =>
        apply run_rep_digits; [assumption|]
    | |- Re.m (Re.plus _) _ (_ ++ _) _ _ = _ =>
        apply run_plus; [assumption|assumption|assumption|]
    | |- Re.m (Re.chr _) _ (_ :: _) _ _ = _ =>
        apply run_cls; [apply Ascii.eqb_refl|]
    | |- Re.m (Re.Cls _) _ (_ :: _) _ _ = _ =>
        apply run_cls; [assumption|]
    end).

Lemma t1_match_forward (p y c rest : str) (s1 s2 : ascii) :
  number p -> digits 4 y -> digits 4 c ->
  Re.is_sep s1 = true -> Re.is_sep s2 = true ->
  Re.re_search AutoDesc.OBJ_FROM_T1_PATTERN (p ++ s1 :: y ++ s2 :: c ++ rest)
  = Some [(3%nat, c); (2%nat, y); (1%nat, p)].
Proof.
  intros [Hne Hp] Hy Hc Hs1 Hs2.
  assert (stops Str.is_digit (s1 :: y ++ s2 :: c ++ rest)) as Hstop
    by (now apply sep_not_digit).
  assert (stops Str.is_space (p ++ s1 :: y ++ s2 :: c ++ rest)) as Hsp.
  { destruct p as [|d p]; [contradiction|]. simpl.
    inversion Hp; subst. now apply digit_not_space. }
  apply search_hit. unfold AutoDesc.OBJ_FROM_T1_PATTERN.
  apply run_seq_cons, run_bol, run_seq_cons.
  rewrite run_star_stop by assumption.
  run_re. unfold Re.accept. now rewrite !take_consumed.
Qed.

(** What the normaliser returns on a raw string that spells a triple. *)
Lemma normalize_spells (raw p y c : str) :
  spells raw p y c ->
  AutoDesc.normalize_obj_id_from_excel (Some raw) = Some (canonical p y c).
Proof.
  intros (ws & s1 & s2 & rest & -> & Hws & Hp & Hy & Hc & Hs1 & Hs2).
  unfold AutoDesc.normalize_obj_id_from_excel.
  assert (exists rest', Str.strip (ws ++ p ++ s1 :: y ++ s2 :: c ++ rest)
                        = p ++ s1 :: y ++ s2 :: c ++ rest') as [rest' ->].
  { destruct Hc as [Hlen Hc].
    destruct c as [|c1 [|c2 [|c3 [|c4 [|]]]]]; try discriminate.
    destruct Hp as [Hne Hp]. destruct p as [|d p]; [contradiction|].
    exists (Str.rstrip rest).
    replace (ws ++ (d :: p) ++ s1 :: y ++ s2 :: [c1; c2; c3; c4] ++ rest)
      with (ws ++ d :: (p ++ s1 :: y ++ s2 :: [c1; c2; c3]) ++ c4 :: rest)
      by (now repeat (rewrite <- ?app_assoc; cbn [app])).
    rewrite strip_core.
    - now repeat (rewrite <- ?app_assoc; cbn [app]).
    - assumption.
    - inversion Hp; subst. now apply digit_not_space.
    - apply digit_not_space.
      repeat match goal with H : Forall _ (_ :: _) |- _ =>
        inversion H; clear H; subst end. assumption. }
  rewrite t1_match_forward by assumption. reflexivity.
Qed.

Lemma lstrip_decompose (s : str) :
  exists lead, s = lead ++ Str.lstrip s
               /\ Forall (fun a => Str.is_space a = true) lead.
Proof.
  induction s as [|a s (lead & IH & Hlead)]; simpl.
  - exists []. split; [reflexivity|constructor].
  - destruct (Str.is_space a) eqn:Ha.
    + exists (a :: lead). split; [simpl; now f_equal|now constructor].
    + exists []. split; [reflexivity|constructor].
Qed.

Lemma strip_decompose (s : str) :
  exists lead trail,
    s = lead ++ Str.strip s ++ trail
    /\ Forall (fun a => Str.is_space a = true) lead
    /\ Forall (fun a => Str.is_space a = true) trail.
Proof.
  destruct (lstrip_decompose s) as (lead & Es & Hlead).
  destruct (lstrip_decompose (rev (Str.lstrip s))) as (tr & Er & Htr).
  exists lead, (rev tr). split; [|split; [assumption|]].
  - unfold Str.strip, Str.rstrip. rewrite <- rev_app_distr, <- Er.
    now rewrite rev_involutive.
  - now apply List.Forall_rev.
Qed.

Lemma t1_match_sound (s : str) (caps : Re.captures) :
  Re.re_search AutoDesc.OBJ_FROM_T1_PATTERN s = Some caps ->
  exists ws p s1 y s2 c rest,
    s = ws ++ p ++ s1 :: y ++ s2 :: c ++ rest
    /\ Forall (fun a => Str.is_space a = true) ws
    /\ number p /\ digits 4 y /\ digits 4 c
    /\ Re.is_sep s1 = true /\ Re.is_sep s2 = true
    /\ caps = [(3%nat, c); (2%nat, y); (1%nat, p)].
Proof.
  unfold AutoDesc.OBJ_FROM_T1_PATTERN. cbn [Re.seq foldr].
  rewrite search_anchored.
  intros H. apply re_match_sound in H as (b' & s' & D).
  den_inv D.
  match goal with
  | |- exists ws p s1 y s2 c rest,
         ?w0 ++ ?p0 ++ ?a1 :: ?y0 ++ ?a2 :: ?c0 ++ ?r0 = _ /\ _ =>
      exists w0, p0, a1, y0, a2, c0, r0
  end.
  close_shape.
Qed.

(** Every raw string the normaliser accepts spells a triple, and the
    identifier is the canonical form of that triple. *)
Lemma normalize_accepted_spells (raw id : str) :
  AutoDesc.normalize_obj_id_from_excel (Some raw) = Some id ->
  exists p y c, spells raw p y c /\ id = canonical p y c.
Proof.
  unfold AutoDesc.normalize_obj_id_from_excel.
  destruct (Re.re_search AutoDesc.OBJ_FROM_T1_PATTERN (Str.strip raw))
    as [caps|] eqn:E; [|discriminate].
  apply t1_match_sound in E
    as (ws & p & s1 & y & s2 & c & rest & Es & Hws & Hp & Hy & Hc & H1 & H2 & ->).
  cbn [Re.group Nat.eqb]. intros [= <-].
  exists p, y, c. split; [|reflexivity].
  destruct (strip_decompose raw) as (lead & trail & Er & Hlead & Htrail).
  exists (lead ++ ws), s1, s2, (rest ++ trail).
  split; [|split; [now apply Forall_app|close_shape]].
  rewrite Er at 1. rewrite Es.
  now repeat (rewrite <- ?app_assoc; cbn [app]).
Qed.

Lemma run_opt r b s caps k R :
  Re.m r b s caps k = Some R -> Re.m (Re.Opt r) b s caps k = Some R.
Proof. intros H. cbn [Re.m]. now rewrite H. Qed.

Lemma run_opt_skip r b s caps k :
  Re.m r b s caps k = None -> Re.m (Re.Opt r) b s caps k = k b s caps.
Proof. intros H. cbn [Re.m]. now rewrite H. Qed.

(* ===================================================================== *)
(** * C2: the order of an object's images *)
(* ===================================================================== *)

















(** The blocks [000-000], [000-001], [000-010] come out in exactly this
    order, and a file without blocks after them. *)
Example sequence_order_desc :
  sorted_by key_leb AutoDesc.suffix_sort_key
    [shot_plain; shot_010; shot_000; shot_001]
  = [shot_000; shot_001; shot_010; shot_plain].
Proof. vm_compute. reflexivity. Qed.

Example sequence_order_site :
  sorted_by key_leb BuildSite.suffix_sort_key
    [shot_plain; shot_010; shot_000; shot_001]
  = [shot_000; shot_001; shot_010; shot_plain].
Proof. vm_compute. reflexivity. Qed.

(* ===================================================================== *)
(** * C3: one identifier for one triple *)
(* ===================================================================== *)

(** C3.  Two raw strings that spell the same three numeric groups (prefix,
    four-digit year, four-digit code) are normalised to the same canonical
    identifier, whichever of [/] and [-] separates the groups, whatever
    white space leads or trails, and whatever follows the code. *)
Theorem C3_same_triple_same_identifier (raw1 raw2 p y c : str) :
  spells raw1 p y c -> spells raw2 p y c ->
  AutoDesc.normalize_obj_id_from_excel (Some raw1) = Some (canonical p y c)
  /\ AutoDesc.normalize_obj_id_from_excel (Some raw2)
     = AutoDesc.normalize_obj_id_from_excel (Some raw1).
Proof.
  intros H1 H2. rewrite !(normalize_spells _ p y c) by assumption.
  now split.
Qed.

(** C3 at two spellings of one catalogue number: slashes, white space and
    a variant number on one side, dashes on the other. *)
Lemma C3_witness :
  AutoDesc.normalize_obj_id_from_excel (Some (lit "  1/1997/1063 0 "))
    = Some (lit "1-1997-1063")
  /\ AutoDesc.normalize_obj_id_from_excel (Some (lit "1-1997-1063"))
     = AutoDesc.normalize_obj_id_from_excel (Some (lit "  1/1997/1063 0 ")).
Proof.
  apply (C3_same_triple_same_identifier
           (lit "  1/1997/1063 0 ") (lit "1-1997-1063")
           (lit "1") (lit "1997") (lit "1063")).
  - exists (lit "  "), "/"%char, "/"%char, (lit " 0 ").
    repeat split; try reflexivity; try discriminate; repeat constructor.
  - exists [], "-"%char, "-"%char, [].
    repeat split; try reflexivity; try discriminate; repeat constructor.
Defined.

(* ===================================================================== *)
(** * C9: where in the string the identifier is read *)
(* ===================================================================== *)

Lemma search_from_leftmost (r : Re.regex) (s : str) :
  forall b caps,
    Re.search_from r b s = Some caps ->
    exists i, (i <= length s)%nat
      /\ Re.m r (match i with O => b | _ => false end) (drop i s) [] Re.accept
         = Some caps
      /\ forall j, (j < i)%nat ->
           Re.m r (match j with O => b | _ => false end) (drop j s) [] Re.accept
           = None.
Proof.
  induction s as [|a s IH]; intros b caps; cbn [Re.search_from].
  - destruct (Re.m r b [] [] Re.accept) eqn:E; [|discriminate].
    intros [= <-]. exists 0%nat.
    split; [reflexivity|]. split; [assumption|]. intros j Hj. lia.
  - destruct (Re.m r b (a :: s) [] Re.accept) eqn:E.
    + intros [= <-]. exists 0%nat.
      split; [simpl; lia|]. split; [assumption|]. intros j Hj. lia.
    + intros H. apply IH in H as (i & Hi & Hm & Hj).
      exists (S i). split; [simpl; lia|]. split.
      * destruct i; exact Hm.
      * intros [|j] Hlt; [exact E|].
        specialize (Hj j ltac:(lia)). destruct j; exact Hj.
Qed.

Lemma search_from_first (r : Re.regex) (s : str) :
  forall b i caps,
    (i <= length s)%nat ->
    Re.m r (match i with O => b | _ => false end) (drop i s) [] Re.accept
      = Some caps ->
    (forall j, (j < i)%nat ->
       Re.m r (match j with O => b | _ => false end) (drop j s) [] Re.accept
       = None) ->
    Re.search_from r b s = Some caps.
Proof.
  induction s as [|a s IH]; intros b i caps Hi Hm Hj.
  - destruct i; [|simpl in Hi; lia]. now apply search_hit.
  - destruct i as [|i]; [now apply search_hit|].
    cbn [Re.search_from].
    pose proof (Hj 0%nat ltac:(lia)) as H0. cbn [drop] in H0. rewrite H0.
    apply (IH false i); [simpl in Hi; lia| |].
    + destruct i; exact Hm.
    + intros j Hlt. specialize (Hj (S j) ltac:(lia)). destruct j; exact Hj.
Qed.

Lemma match_at_eq (r : Re.regex) (s : str) (i : nat) :
  match_at r s i
  = Re.m r (match i with O => true | _ => false end) (drop i s) [] Re.accept.
Proof. unfold match_at. now destruct i. Qed.

(** [search] returns the match at the leftmost position that has one. *)
Lemma search_leftmost (r : Re.regex) (s : str) (caps : Re.captures) :
  Re.re_search r s = Some caps <->
  exists i, (i <= length s)%nat /\ match_at r s i = Some caps
            /\ forall j, (j < i)%nat -> match_at r s j = None.
Proof.
  unfold Re.re_search. split.
  - intros H. apply search_from_leftmost in H as (i & Hi & Hm & Hj).
    exists i. rewrite match_at_eq. split; [assumption|]. split; [assumption|].
    intros j Hlt. rewrite match_at_eq. now apply Hj.
  - intros (i & Hi & Hm & Hj). apply (search_from_first r s true i);
      [assumption|now rewrite <- match_at_eq|].
    intros j Hlt. rewrite <- match_at_eq. now apply Hj.
Qed.

Lemma m_accept_sound (r : Re.regex) (b : bool) (s : str) (caps : Re.captures) :
  Re.m r b s [] Re.accept = Some caps -> exists b' s', den r b s [] b' s' caps.
Proof.
  intros H. apply m_sound in H as (b' & s' & caps' & D & [= <-]).
  now exists b', s'.
Qed.

Lemma digits_snoc (n : nat) (ds : str) (d : ascii) :
  digits n ds -> Str.is_digit d = true -> digits (S n) (ds ++ [d]).
Proof.
  intros [Hl Hf] Hd. split.
  - rewrite length_app, Hl. simpl. lia.
  - apply Forall_app. split; [assumption|now constructor].
Qed.

Lemma obj_re_sound (b : bool) (s : str) (caps : Re.captures) :
  Re.m CopyRelevant.OBJ_RE b s [] Re.accept = Some caps ->
  exists p y c v,
    starts_slashed s p y c v
    /\ caps = [(4%nat, v); (3%nat, c); (2%nat, y); (1%nat, p)].
Proof.
  intros H. apply m_accept_sound in H as (b' & s' & D).
  unfold CopyRelevant.OBJ_RE in D. den_inv D.
  - match goal with
    | |- exists p y c v,
           starts_slashed
             (?p0 ++ ?w1 ++ _ :: ?w2 ++ ?y0 ++ ?w3 ++ _ :: ?w4 ++ ?c0
                ++ ?d :: ?w5 ++ ?v0 ++ ?r0) _ _ _ _ /\ _ =>
        replace (c0 ++ d :: w5 ++ v0 ++ r0)
          with ((c0 ++ [d]) ++ w5 ++ v0 ++ r0)
          by (now rewrite <- app_assoc);
        rewrite take_consumed;
        exists p0, y0, (c0 ++ [d]), v0; split; [|reflexivity];
        exists w1, w2, w3, w4, w5, r0
    end.
    split; [reflexivity|].
    match goal with
    | Hc : digits 3 ?c0, Hd : Str.is_digit ?d = true |- _ =>
        pose proof (digits_snoc 3 c0 d Hc Hd)
    end.
    unfold blank, number. repeat (split; try assumption). now right.
  - match goal with
    | |- exists p y c v,
           starts_slashed
             (?p0 ++ ?w1 ++ _ :: ?w2 ++ ?y0 ++ ?w3 ++ _ :: ?w4 ++ ?c0
                ++ ?w5 ++ ?v0 ++ ?r0) _ _ _ _ /\ _ =>
        exists p0, y0, c0, v0; split; [|reflexivity];
        exists w1, w2, w3, w4, w5, r0
    end.
    split; [reflexivity|].
    unfold blank, number. repeat (split; try assumption). now left.
Qed.

Lemma at_eol_blank (s : str) : Re.at_eol s = true -> blank s.
Proof.
  destruct s as [|a [|? ?]]; simpl; try discriminate.
  - constructor.
  - intros ->%Ascii.eqb_eq. repeat constructor.
Qed.

Lemma object_regex_sound (s : str) (caps : Re.captures) :
  Re.re_match CopyExcel.OBJECT_REGEX s = Some caps ->
  exists p y c v,
    is_exactly s p y c v
    /\ caps = [(4%nat, v); (3%nat, c); (2%nat, y); (1%nat, p)].
Proof.
  intros H. apply re_match_sound in H as (b' & s' & D).
  unfold CopyExcel.OBJECT_REGEX in D. den_inv D.
  match goal with
  | |- exists p y c v,
         is_exactly
           (?ws ++ ?p0 ++ ?a1 :: ?y0 ++ ?a2 :: ?c0 ++ ?w ++ ?v0 ++ ?t ++ ?e)
           _ _ _ _ /\ _ =>
      exists p0, y0, c0, v0; split; [|reflexivity];
      exists ws, a1, a2, w, (t ++ e)
  end.
  split; [reflexivity|].
  unfold blank, number. repeat (split; try assumption).
  apply Forall_app. split; [assumption|].
  now apply at_eol_blank.
Qed.

(** C9 (as amended).  Only [copy_RelevantImages.py] reads the identifier
    from the first matching occurrence anywhere in the text: its result
    comes from the leftmost position at which the pattern matches, and the
    text from that position on starts with the catalogue number.  The
    patterns of [normalize_obj_id_from_excel] and of
    [copy_images_from_excel.py] are anchored: they accept a raw string only
    when the triple stands at its start, after optional white space (and,
    for the latter, with nothing but the variant number after it). *)
Theorem C9_leftmost_or_anchored :
  (forall s i caps,
      (i <= length s)%nat ->
      match_at CopyRelevant.OBJ_RE s i = Some caps ->
      (forall j, (j < i)%nat -> match_at CopyRelevant.OBJ_RE s j = None) ->
      exists p y c v,
        starts_slashed (drop i s) p y c v
        /\ CopyRelevant.parse_object_number (Some s)
           = Some (CopyRelevant.mkParsed
                     (p ++ lit "-" ++ y ++ lit "-" ++ c ++ lit "-") y))
  /\ (forall s res,
        CopyRelevant.parse_object_number (Some s) = Some res ->
        exists i p y c v,
          (i <= length s)%nat
          /\ starts_slashed (drop i s) p y c v
          /\ (forall j, (j < i)%nat -> match_at CopyRelevant.OBJ_RE s j = None)
          /\ res = CopyRelevant.mkParsed
                     (p ++ lit "-" ++ y ++ lit "-" ++ c ++ lit "-") y)
  /\ (forall raw id,
        AutoDesc.normalize_obj_id_from_excel (Some raw) = Some id ->
        exists p y c, spells raw p y c /\ id = canonical p y c)
  /\ (forall raw res,
        CopyExcel.parse_object_number (Some raw) = Some res ->
        exists p y c v,
          is_exactly (Str.strip raw) p y c v
          /\ res = (Str.strip raw, p, y, c, v)).
Proof.
  split; [|split; [|split]].
  - intros s i caps Hi Hm Hj.
    pose proof Hm as Hs. unfold match_at in Hs.
    apply obj_re_sound in Hs as (p & y & c & v & Hshape & ->).
    exists p, y, c, v. split; [assumption|].
    unfold CopyRelevant.parse_object_number.
    assert (Re.re_search CopyRelevant.OBJ_RE s
            = Some [(4%nat, v); (3%nat, c); (2%nat, y); (1%nat, p)]) as ->.
    { apply search_leftmost. now exists i. }
    reflexivity.
  - intros s res. unfold CopyRelevant.parse_object_number.
    destruct (Re.re_search CopyRelevant.OBJ_RE s) as [caps|] eqn:E;
      [|discriminate].
    apply search_leftmost in E as (i & Hi & Hm & Hj).
    pose proof Hm as Hs. unfold match_at in Hs.
    apply obj_re_sound in Hs as (p & y & c & v & Hshape & ->).
    cbn [Re.group Nat.eqb]. intros [= <-].
    now exists i, p, y, c, v.
  - apply normalize_accepted_spells.
  - intros raw res. unfold CopyExcel.parse_object_number.
    destruct (Str.strip raw) as [|a t] eqn:Es; [discriminate|].
    destruct (Re.re_match CopyExcel.OBJECT_REGEX (a :: t)) as [caps|] eqn:E;
      [|discriminate].
    apply object_regex_sound in E as (p & y & c & v & Hshape & ->).
    cbn [Re.group Nat.eqb]. intros [= <-].
    now exists p, y, c, v.
Qed.

(** C9, the claim as stated, fails on the two anchored normalisers: a cell
    whose first catalogue number follows a note has an identifier for
    [copy_RelevantImages.py], the first of the two, and none for the
    others. *)
Lemma C9_counterexample :
  CopyRelevant.parse_object_number (Some noted_cell)
    = Some (CopyRelevant.mkParsed (lit "1-1997-1063-") (lit "1997"))
  /\ match_at CopyRelevant.OBJ_RE noted_cell 5 <> None
  /\ AutoDesc.normalize_obj_id_from_excel (Some noted_cell) = None
  /\ CopyExcel.parse_object_number (Some noted_cell) = None.
Proof.
  repeat split; try (vm_compute; reflexivity).
  vm_compute. discriminate.
Qed.

(* ===================================================================== *)
(** * C4: merging the metadata sources *)
(* ===================================================================== *)

Lemma get_lookup (base : gmap str str) (k v : str) :
  base !! k = Some v -> AutoDesc.get base k = v.
Proof. intros H. unfold AutoDesc.get. now rewrite H. Qed.

Lemma fill_field_keeps (found base : gmap str str) (k' k v : str) :
  base !! k = Some v -> v <> AutoDesc.NO_DATA ->
  AutoDesc.fill_field found base k' !! k = Some v.
Proof.
  intros Hb Hv. unfold AutoDesc.fill_field.
  destruct (decide (k' = k)) as [->|Hne].
  - rewrite (get_lookup _ _ _ Hb). now rewrite bool_decide_eq_false_2.
  - case_bool_decide; [|assumption].
    destruct (found !! k'); [|assumption].
    case_bool_decide; [assumption|]. now rewrite lookup_insert_ne.
Qed.

Lemma fill_field_present (found base : gmap str str) (k' k : str) :
  is_Some (base !! k) -> is_Some (AutoDesc.fill_field found base k' !! k).
Proof.
  intros Hb. unfold AutoDesc.fill_field.
  case_bool_decide; [|assumption].
  destruct (found !! k'); [|assumption].
  case_bool_decide; [assumption|].
  destruct (decide (k' = k)) as [->|Hne].
  - rewrite lookup_insert_eq. eauto.
  - now rewrite lookup_insert_ne.
Qed.

Lemma fill_field_sentinel (found base : gmap str str) (k' k : str) :
  base !! k = Some AutoDesc.NO_DATA ->
  (forall raw, found !! k = Some raw ->
               AutoDesc.safe_str (Some raw) = AutoDesc.NO_DATA) ->
  AutoDesc.fill_field found base k' !! k = Some AutoDesc.NO_DATA.
Proof.
  intros Hb Hsilent. unfold AutoDesc.fill_field.
  case_bool_decide; [|assumption].
  destruct (found !! k') as [raw|] eqn:Ef; [|assumption].
  case_bool_decide as Hs; [assumption|].
  destruct (decide (k' = k)) as [->|Hne].
  - now apply Hsilent in Ef.
  - now rewrite lookup_insert_ne.
Qed.

Lemma fill_field_writes (found base : gmap str str) (k raw : str) :
  base !! k = Some AutoDesc.NO_DATA -> found !! k = Some raw ->
  AutoDesc.safe_str (Some raw) <> AutoDesc.NO_DATA ->
  AutoDesc.fill_field found base k !! k = Some (AutoDesc.safe_str (Some raw)).
Proof.
  intros Hb Hf Hs. unfold AutoDesc.fill_field.
  rewrite (get_lookup _ _ _ Hb), Hf.
  rewrite bool_decide_eq_true_2 by reflexivity.
  rewrite bool_decide_eq_false_2 by assumption.
  now rewrite lookup_insert_eq.
Qed.

Section FillFrom.
Variables (found : gmap str str) (k : str).

Lemma fill_list_keeps (l : list str) (base : gmap str str) (v : str) :
  base !! k = Some v -> v <> AutoDesc.NO_DATA ->
  foldl (AutoDesc.fill_field found) base l !! k = Some v.
Proof.
  revert base. induction l as [|k' l IH]; intros base Hb Hv; [assumption|].
  cbn [foldl]. apply IH; [|assumption]. now apply fill_field_keeps.
Qed.

Lemma fill_list_present (l : list str) (base : gmap str str) :
  is_Some (base !! k) ->
  is_Some (foldl (AutoDesc.fill_field found) base l !! k).
Proof.
  revert base. induction l as [|k' l IH]; intros base Hb; [assumption|].
  cbn [foldl]. apply IH. now apply fill_field_present.
Qed.

Lemma fill_list_sentinel (l : list str) (base : gmap str str) :
  base !! k = Some AutoDesc.NO_DATA ->
  (forall raw, found !! k = Some raw ->
               AutoDesc.safe_str (Some raw) = AutoDesc.NO_DATA) ->
  foldl (AutoDesc.fill_field found) base l !! k = Some AutoDesc.NO_DATA.
Proof.
  revert base. induction l as [|k' l IH]; intros base Hb Hs; [assumption|].
  cbn [foldl]. apply IH; [|assumption]. now apply fill_field_sentinel.
Qed.

Lemma fill_list_writes (l : list str) (base : gmap str str) (raw : str) :
  k ∈ l -> base !! k = Some AutoDesc.NO_DATA -> found !! k = Some raw ->
  AutoDesc.safe_str (Some raw) <> AutoDesc.NO_DATA ->
  foldl (AutoDesc.fill_field found) base l !! k
  = Some (AutoDesc.safe_str (Some raw)).
Proof.
  revert base. induction l as [|k' l IH]; intros base Hk Hb Hf Hs.
  - inversion Hk.
  - cbn [foldl]. destruct (decide (k' = k)) as [->|Hne].
    + apply fill_list_keeps; [|assumption]. now apply fill_field_writes.
    + apply elem_of_cons in Hk as [->|Hk]; [contradiction|].
      apply IH; try assumption.
      unfold AutoDesc.fill_field.
      case_bool_decide; [|assumption].
      destruct (found !! k'); [|assumption].
      case_bool_decide; [assumption|]. now rewrite lookup_insert_ne.
Qed.

End FillFrom.

Lemma all_filled_spec (base : gmap str str) :
  AutoDesc.all_filled base = true <->
  forall k, k ∈ AutoDesc.FIELDS_ORDER -> AutoDesc.get base k <> AutoDesc.NO_DATA.
Proof.
  unfold AutoDesc.all_filled. rewrite forallb_forall. split.
  - intros H k Hk%list_elem_of_In. specialize (H k Hk).
    now apply negb_true_iff, bool_decide_eq_false in H.
  - intros H k Hk%list_elem_of_In.
    apply negb_true_iff, bool_decide_eq_false. now apply H.
Qed.

Lemma empty_record_lookup (k : str) :
  k ∈ AutoDesc.FIELDS_ORDER ->
  AutoDesc.empty_record !! k = Some AutoDesc.NO_DATA.
Proof.
  unfold AutoDesc.FIELDS_ORDER. intros Hk.
  repeat (apply elem_of_cons in Hk as [->|Hk]; [vm_compute; reflexivity|]).
  inversion Hk.
Qed.

Section MergeLoop.
Variable obj_id : str.

Lemma silent_found (mp : gmap str (gmap str str)) (found : gmap str str)
    (k raw : str) :
  silent mp obj_id k -> mp !! obj_id = Some found -> found !! k = Some raw ->
  AutoDesc.safe_str (Some raw) = AutoDesc.NO_DATA.
Proof.
  intros Hs Hm Hf.
  destruct (decide (AutoDesc.safe_str (Some raw) = AutoDesc.NO_DATA))
    as [E|N]; [assumption|].
  exfalso. apply (Hs (AutoDesc.safe_str (Some raw))).
  now exists found, raw.
Qed.

Lemma merge_keeps (maps : list (gmap str (gmap str str))) :
  forall base n k v,
    base !! k = Some v -> v <> AutoDesc.NO_DATA ->
    (AutoDesc.merge_loop obj_id maps base n).1 !! k = Some v.
Proof.
  induction maps as [|mp maps IH]; intros base n k v Hb Hv; [assumption|].
  cbn [AutoDesc.merge_loop].
  destruct (mp !! obj_id) as [found|]; [|now apply IH].
  pose proof (fill_list_keeps found k AutoDesc.FIELDS_ORDER base v Hb Hv).
  destruct (AutoDesc.all_filled _); [assumption|now apply IH].
Qed.

Lemma merge_present (maps : list (gmap str (gmap str str))) :
  forall base n k,
    is_Some (base !! k) ->
    is_Some ((AutoDesc.merge_loop obj_id maps base n).1 !! k).
Proof.
  induction maps as [|mp maps IH]; intros base n k Hb; [assumption|].
  cbn [AutoDesc.merge_loop].
  destruct (mp !! obj_id) as [found|]; [|now apply IH].
  pose proof (fill_list_present found k AutoDesc.FIELDS_ORDER base Hb).
  destruct (AutoDesc.all_filled _); [assumption|now apply IH].
Qed.

Lemma merge_sentinel (maps : list (gmap str (gmap str str))) :
  forall base n k,
    base !! k = Some AutoDesc.NO_DATA ->
    (forall mp, mp ∈ maps -> silent mp obj_id k) ->
    (AutoDesc.merge_loop obj_id maps base n).1 !! k = Some AutoDesc.NO_DATA.
Proof.
  induction maps as [|mp maps IH]; intros base n k Hb Hs; [assumption|].
  cbn [AutoDesc.merge_loop].
  assert (forall mp', mp' ∈ maps -> silent mp' obj_id k) as Hs'
    by (intros mp' Hin; apply Hs; now right).
  destruct (mp !! obj_id) as [found|] eqn:Em; [|now apply IH].
  assert (foldl (AutoDesc.fill_field found) base AutoDesc.FIELDS_ORDER !! k
          = Some AutoDesc.NO_DATA) as Hb'.
  { apply fill_list_sentinel; [assumption|].
    intros raw Hf. eapply silent_found; eauto. apply Hs. now left. }
  destruct (AutoDesc.all_filled _); [assumption|now apply IH].
Qed.

Lemma merge_first (m1 m2 : list (gmap str (gmap str str)))
    (mp : gmap str (gmap str str)) (k v : str) :
  k ∈ AutoDesc.FIELDS_ORDER ->
  (forall mp', mp' ∈ m1 -> silent mp' obj_id k) ->
  supplies mp obj_id k v ->
  forall base n,
    base !! k = Some AutoDesc.NO_DATA ->
    (AutoDesc.merge_loop obj_id (m1 ++ mp :: m2) base n).1 !! k = Some v.
Proof.
  intros Hk Hs (found & raw & Hm & Hf & <- & Hv).
  induction m1 as [|mp' m1 IH]; intros base n Hb.
  - cbn [app AutoDesc.merge_loop]. rewrite Hm.
    pose proof (fill_list_writes found k AutoDesc.FIELDS_ORDER base raw
                  Hk Hb Hf Hv) as Hw.
    destruct (AutoDesc.all_filled _); [assumption|now apply merge_keeps].
  - cbn [app AutoDesc.merge_loop].
    assert (forall mp0, mp0 ∈ m1 -> silent mp0 obj_id k) as Hs'
      by (intros mp0 Hin; apply Hs; now right).
    destruct (mp' !! obj_id) as [found'|] eqn:Em; [|now apply IH].
    assert (foldl (AutoDesc.fill_field found') base AutoDesc.FIELDS_ORDER !! k
            = Some AutoDesc.NO_DATA) as Hb'.
    { apply fill_list_sentinel; [assumption|].
      intros raw' Hf'. eapply silent_found; eauto. apply Hs. now left. }
    destruct (AutoDesc.all_filled _) eqn:Ea; [|now apply IH].
    exfalso. rewrite all_filled_spec in Ea.
    apply (Ea k Hk). now apply get_lookup.
Qed.

Lemma merge_stop (m1 m2 : list (gmap str (gmap str str))) :
  forall base n,
    AutoDesc.all_filled base = false ->
    AutoDesc.all_filled (AutoDesc.merge_loop obj_id m1 base n).1 = true ->
    AutoDesc.merge_loop obj_id (m1 ++ m2) base n
    = AutoDesc.merge_loop obj_id m1 base n.
Proof.
  induction m1 as [|mp m1 IH]; intros base n Hb Hall.
  - cbn [AutoDesc.merge_loop fst] in Hall. congruence.
  - cbn [app AutoDesc.merge_loop] in *.
    destruct (mp !! obj_id) as [found|]; [|now apply IH].
    destruct (AutoDesc.all_filled
                (foldl (AutoDesc.fill_field found) base AutoDesc.FIELDS_ORDER))
      eqn:Ea; [reflexivity|now apply IH].
Qed.

Lemma merge_visited (maps : list (gmap str (gmap str str))) :
  forall base n,
    (n <= (AutoDesc.merge_loop obj_id maps base n).2 <= n + length maps)%nat.
Proof.
  induction maps as [|mp maps IH]; intros base n;
    cbn [AutoDesc.merge_loop length].
  - cbn [snd]. lia.
  - destruct (mp !! obj_id) as [found|].
    + destruct (AutoDesc.all_filled _); [cbn [snd]; lia|].
      specialize (IH (foldl (AutoDesc.fill_field found) base
                        AutoDesc.FIELDS_ORDER) (S n)). lia.
    + specialize (IH base (S n)). lia.
Qed.

End MergeLoop.

Lemma empty_record_not_filled : AutoDesc.all_filled AutoDesc.empty_record = false.
Proof. vm_compute. reflexivity. Qed.

Lemma inventory_in_fields : lit "InventoryNo" ∈ AutoDesc.FIELDS_ORDER.
Proof. left. Qed.

(** C4.  The merged record of an object: every fixed field is present; a
    field holds the value of the first source, in priority order, that has
    a value for it other than the sentinel, whatever later sources hold;
    a field no source has a value for holds the sentinel, except the
    inventory number, which then holds the identifier itself; and once
    every field is filled the loop has stopped, so that no later source is
    reached. *)
Theorem C4_merge_by_priority (obj_id : str)
    (maps : list (gmap str (gmap str str))) :
  let merged := AutoDesc.build_metadata_for_object obj_id maps in
  (forall k, k ∈ AutoDesc.FIELDS_ORDER -> is_Some (merged !! k))
  /\ (forall k v m1 mp m2,
        k ∈ AutoDesc.FIELDS_ORDER -> maps = m1 ++ mp :: m2 ->
        (forall mp', mp' ∈ m1 -> silent mp' obj_id k) ->
        supplies mp obj_id k v ->
        merged !! k = Some v)
  /\ (forall k,
        k ∈ AutoDesc.FIELDS_ORDER -> k <> lit "InventoryNo" ->
        (forall mp, mp ∈ maps -> silent mp obj_id k) ->
        merged !! k = Some AutoDesc.NO_DATA)
  /\ ((forall mp, mp ∈ maps -> silent mp obj_id (lit "InventoryNo")) ->
      merged !! lit "InventoryNo" = Some obj_id)
  /\ (forall m1 m2,
        maps = m1 ++ m2 ->
        AutoDesc.all_filled
          (AutoDesc.merge_loop obj_id m1 AutoDesc.empty_record 0).1 = true ->
        AutoDesc.merge_loop obj_id maps AutoDesc.empty_record 0
        = AutoDesc.merge_loop obj_id m1 AutoDesc.empty_record 0
        /\ ((AutoDesc.merge_loop obj_id maps AutoDesc.empty_record 0).2
            <= length m1)%nat).
Proof.
  cbv zeta. unfold AutoDesc.build_metadata_for_object.
  set (L := (AutoDesc.merge_loop obj_id maps AutoDesc.empty_record 0).1).
  split; [|split; [|split; [|split]]].
  - intros k Hk.
    assert (is_Some (L !! k)) as HL.
    { apply merge_present. rewrite empty_record_lookup by assumption. eauto. }
    case_bool_decide; [|assumption].
    destruct (decide (lit "InventoryNo" = k)) as [<-|Hne].
    + rewrite lookup_insert_eq. eauto.
    + now rewrite lookup_insert_ne.
  - intros k v m1 mp m2 Hk -> Hs Hsup.
    assert (L !! k = Some v) as HL.
    { apply merge_first; try assumption. now apply empty_record_lookup. }
    assert (v <> AutoDesc.NO_DATA) as Hv
      by (destruct Hsup as (? & ? & _ & _ & _ & ?); assumption).
    case_bool_decide as Hinv; [|assumption].
    destruct (decide (lit "InventoryNo" = k)) as [<-|Hne].
    + rewrite (get_lookup _ _ _ HL) in Hinv. contradiction.
    + now rewrite lookup_insert_ne.
  - intros k Hk Hne Hs.
    assert (L !! k = Some AutoDesc.NO_DATA) as HL.
    { apply merge_sentinel; [|assumption]. now apply empty_record_lookup. }
    case_bool_decide; [|assumption].
    rewrite lookup_insert_ne; [assumption|congruence].
  - intros Hs.
    assert (L !! lit "InventoryNo" = Some AutoDesc.NO_DATA) as HL.
    { apply merge_sentinel; [|assumption].
      apply empty_record_lookup, inventory_in_fields. }
    rewrite (get_lookup _ _ _ HL).
    rewrite bool_decide_eq_true_2 by reflexivity.
    now rewrite lookup_insert_eq.
  - intros m1 m2 -> Hall.
    rewrite (merge_stop obj_id m1 m2 _ _ empty_record_not_filled Hall).
    split; [reflexivity|].
    pose proof (merge_visited obj_id m1 AutoDesc.empty_record 0). lia.
Qed.

(* ===================================================================== *)
(** * C8: items without an identifier are skipped *)
(* ===================================================================== *)

Lemma read_row_skip (mapping : gmap str (gmap str str)) (row : gmap str str) :
  AutoDesc.normalize_obj_id_from_excel (row !! lit "t1") = None ->
  AutoDesc.read_row mapping row = mapping.
Proof. unfold AutoDesc.read_row. now intros ->. Qed.

Lemma read_row_key (mapping : gmap str (gmap str str)) (row : gmap str str)
    (id : str) :
  is_Some (AutoDesc.read_row mapping row !! id) ->
  is_Some (mapping !! id)
  \/ AutoDesc.normalize_obj_id_from_excel (row !! lit "t1") = Some id.
Proof.
  unfold AutoDesc.read_row.
  destruct (AutoDesc.normalize_obj_id_from_excel (row !! lit "t1"))
    as [[|a obj]|]; try (now left).
  destruct (decide (a :: obj = id)) as [<-|Hne]; [now right|].
  rewrite lookup_insert_ne by assumption. now left.
Qed.

Lemma read_rows_key (rows : list (gmap str str)) :
  forall mapping id,
    is_Some (foldl AutoDesc.read_row mapping rows !! id) ->
    is_Some (mapping !! id)
    \/ exists row, row ∈ rows
         /\ AutoDesc.normalize_obj_id_from_excel (row !! lit "t1") = Some id.
Proof.
  induction rows as [|row rows IH]; intros mapping id; cbn [foldl].
  - now left.
  - intros [H|(r & Hr & Hn)]%IH.
    + apply read_row_key in H as [H|H]; [now left|].
      right. exists row. split; [now left|assumption].
    + right. exists r. split; [now right|assumption].
Qed.

Lemma scan_path_skip (g : gmap str (list Path)) (p : Path) :
  AutoDesc.extract_object_id (name p) = None -> AutoDesc.scan_path g p = g.
Proof.
  unfold AutoDesc.scan_path. intros ->. now destruct (AutoDesc.is_image_file p).
Qed.

Lemma gathered_desc_belongs (fs : filesystem) (dirs : list str)
    (obj_id : str) (p : Path) :
  p ∈ gathered_desc fs dirs obj_id -> belongs obj_id p = true.
Proof.
  unfold gathered_desc, desc_contrib.
  intros (r & _ & Hp)%list_elem_of_In%in_flat_map.
  now apply filter_In in Hp.
Qed.

Lemma index_entry_gathered (fs : filesystem) (dirs : list str)
    (obj_id : str) (p : Path) :
  p ∈ index_entry fs dirs obj_id -> p ∈ gathered_desc fs dirs obj_id.
Proof.
  rewrite index_entry_eq, sorted_by_elem.
  unfold AutoDesc.unique_by_filename. rewrite desc_unique_loop_keep_first.
  now intros [? _]%keep_first_elem.
Qed.

(** C8.  A sheet row whose object-number cell has no identifier leaves the
    mapping as it was, and the rows after it are read as if it were not
    there; every key of the mapping is the identifier of one of the rows.
    A file whose name has no identifier leaves the groups as they were,
    the walk goes on as if it were not there, and every file of the index
    stands under the identifier its own name yields. *)
Theorem C8_unparseable_items_are_skipped :
  (forall mapping row,
      AutoDesc.normalize_obj_id_from_excel (row !! lit "t1") = None ->
      AutoDesc.read_row mapping row = mapping)
  /\ (forall rows1 row rows2,
        AutoDesc.normalize_obj_id_from_excel (row !! lit "t1") = None ->
        AutoDesc.read_metadata_excel (Some (rows1 ++ row :: rows2))
        = AutoDesc.read_metadata_excel (Some (rows1 ++ rows2)))
  /\ (forall rows id,
        is_Some (AutoDesc.read_metadata_excel (Some rows) !! id) ->
        exists row, row ∈ rows
          /\ AutoDesc.normalize_obj_id_from_excel (row !! lit "t1") = Some id)
  /\ (forall g p,
        AutoDesc.extract_object_id (name p) = None ->
        AutoDesc.scan_path g p = g)
  /\ (forall g l1 p l2,
        AutoDesc.extract_object_id (name p) = None ->
        foldl AutoDesc.scan_path g (l1 ++ p :: l2)
        = foldl AutoDesc.scan_path g (l1 ++ l2))
  /\ (forall fs dirs obj_id p,
        p ∈ index_entry fs dirs obj_id ->
        AutoDesc.extract_object_id (name p) = Some obj_id).
Proof.
  split; [|split; [|split; [|split; [|split]]]].
  - apply read_row_skip.
  - intros rows1 row rows2 Hn. unfold AutoDesc.read_metadata_excel.
    rewrite !foldl_app. cbn [foldl]. now rewrite read_row_skip.
  - intros rows id H. unfold AutoDesc.read_metadata_excel in H.
    apply read_rows_key in H as [H|H]; [|assumption].
    rewrite lookup_empty in H. now destruct H.
  - apply scan_path_skip.
  - intros g l1 p l2 Hn. rewrite !foldl_app. cbn [foldl].
    now rewrite scan_path_skip.
  - intros fs dirs obj_id p Hp%index_entry_gathered%gathered_desc_belongs.
    unfold belongs in Hp.
    apply andb_true_iff in Hp as [Hp _]. apply andb_true_iff in Hp as [_ Hp].
    now apply bool_decide_eq_true in Hp.
Qed.

(* ===================================================================== *)
(** * C5: the index is a function of what the walk yields *)
(* ===================================================================== *)

Lemma scan_path_not_indexable (g : gmap str (list Path)) (p : Path) :
  indexable p = false -> AutoDesc.scan_path g p = g.
Proof.
  unfold indexable, AutoDesc.scan_path.
  destruct (AutoDesc.is_image_file p); [|reflexivity]. cbn [andb].
  now destruct (AutoDesc.extract_object_id (name p)) as [[|? ?]|].
Qed.

Lemma scan_listing_visible (listing : list Path) (g : gmap str (list Path)) :
  foldl AutoDesc.scan_path g listing
  = foldl AutoDesc.scan_path g (List.filter indexable listing).
Proof.
  revert g. induction listing as [|p listing IH]; intros g; [reflexivity|].
  cbn [foldl List.filter]. destruct (indexable p) eqn:E.
  - cbn [foldl]. apply IH.
  - rewrite scan_path_not_indexable by assumption. apply IH.
Qed.

Lemma scan_root_visible (fs : filesystem) (g : gmap str (list Path)) (root : str) :
  AutoDesc.scan_root fs g root
  = foldl AutoDesc.scan_path g (visible_desc fs root).
Proof.
  unfold AutoDesc.scan_root, visible_desc, listing_of.
  destruct (fs root); [apply scan_listing_visible|reflexivity].
Qed.

Lemma scan_roots_agree (fs1 fs2 : filesystem) (dirs : list str) :
  (forall root, root ∈ dirs -> visible_desc fs1 root = visible_desc fs2 root) ->
  forall g, foldl (AutoDesc.scan_root fs1) g dirs
            = foldl (AutoDesc.scan_root fs2) g dirs.
Proof.
  induction dirs as [|r dirs IH]; intros Hagree g; [reflexivity|].
  cbn [foldl]. rewrite !scan_root_visible, (Hagree r) by (now left).
  apply IH. intros root Hr. apply Hagree. now right.
Qed.

Lemma gathered_site_agree (fs1 fs2 : filesystem) (roots : list str)
    (obj_id : str) :
  (forall root, root ∈ roots ->
     site_contrib fs1 obj_id root = site_contrib fs2 obj_id root) ->
  gathered_site fs1 roots obj_id = gathered_site fs2 roots obj_id.
Proof.
  unfold gathered_site.
  induction roots as [|r roots IH]; intros Hagree; [reflexivity|].
  cbn [flat_map]. rewrite (Hagree r) by (now left).
  f_equal. apply IH. intros root Hr. apply Hagree. now right.
Qed.

Lemma key_leb_antisym (k1 k2 : sort_key) :
  key_leb k1 k2 = true -> key_leb k2 k1 = true -> k1 = k2.
Proof.
  unfold key_leb. intros H1 H2. apply key_compare_eq.
  pose proof (key_compare_antisym k1 k2) as Ha.
  destruct (key_compare k1 k2), (key_compare k2 k1);
    try discriminate; try reflexivity; simpl in Ha; congruence.
Qed.

Section Walks.
Context {K : Type} (dkey : Path -> K).

Lemma nodup_key_inj (l : list Path) (x y : Path) :
  NoDup (map dkey l) -> x ∈ l -> y ∈ l -> dkey x = dkey y -> x = y.
Proof.
  induction l as [|a l IH]; intros Hnd Hx Hy E.
  - now apply elem_of_nil in Hx.
  - cbn [map] in Hnd. apply NoDup_cons in Hnd as [Ha Hnd].
    apply elem_of_cons in Hx as [->|Hx]; apply elem_of_cons in Hy as [->|Hy].
    + reflexivity.
    + exfalso. apply Ha. rewrite E. apply list_elem_of_In, in_map.
      now apply list_elem_of_In.
    + exfalso. apply Ha. rewrite <- E. apply list_elem_of_In, in_map.
      now apply list_elem_of_In.
    + now apply IH.
Qed.

Lemma from_first_root_perm (c1 c2 : str -> list Path) (roots : list str)
    (y : Path) :
  (forall root, root ∈ roots -> c1 root ≡ₚ c2 root) ->
  from_first_root dkey c1 roots y -> from_first_root dkey c2 roots y.
Proof.
  intros Hperm (r1 & r & r2 & -> & Hy & Hfirst).
  exists r1, r, r2. split; [reflexivity|]. split.
  - rewrite <- (Hperm r); [assumption|]. apply elem_of_app. right. now left.
  - intros r' x Hr' Hx. apply (Hfirst r'); [assumption|].
    rewrite (Hperm r'); [assumption|]. apply elem_of_app. now left.
Qed.

(** Two files that are each the copy of the first root holding their key
    are one file, when they have one key and no root holds it twice. *)
Lemma from_first_root_inj (c : str -> list Path) (roots : list str)
    (y y' : Path) :
  (forall root, root ∈ roots -> NoDup (map dkey (c root))) ->
  from_first_root dkey c roots y -> from_first_root dkey c roots y' ->
  dkey y = dkey y' -> y = y'.
Proof.
  intros Hnd (r1 & r & r2 & E & Hy & Hfirst) (r1' & r' & r2' & E' & Hy' & Hfirst')
         Hk.
  assert (length r1 = length r1') as Hlen.
  { destruct (Nat.lt_trichotomy (length r1) (length r1')) as [Hlt|[?|Hlt]];
      [|assumption|]; exfalso.
    - assert (r1' !! length r1 = Some r) as Hr.
      { assert (roots !! length r1 = Some r) as H
          by (rewrite E; now apply list_lookup_middle).
        rewrite E', lookup_app_l in H by assumption. exact H. }
      apply list_elem_of_lookup_2 in Hr.
      now apply (Hfirst' r y Hr Hy).
    - assert (r1 !! length r1' = Some r') as Hr.
      { assert (roots !! length r1' = Some r') as H
          by (rewrite E'; now apply list_lookup_middle).
        rewrite E, lookup_app_l in H by assumption. exact H. }
      apply list_elem_of_lookup_2 in Hr.
      now apply (Hfirst r' y' Hr Hy'). }
  assert (r = r') as <-.
  { assert (roots !! length r1 = Some r) as H
      by (rewrite E; now apply list_lookup_middle).
    rewrite E', Hlen, list_lookup_middle in H by reflexivity. congruence. }
  apply (nodup_key_inj (c r)); try assumption.
  apply Hnd. rewrite E. apply elem_of_app. right. now left.
Qed.

Lemma flat_map_perm_elem (c1 c2 : str -> list Path) (roots : list str)
    (x : Path) :
  (forall root, root ∈ roots -> c1 root ≡ₚ c2 root) ->
  x ∈ flat_map c1 roots -> x ∈ flat_map c2 roots.
Proof.
  intros Hperm. rewrite !list_elem_of_In, !in_flat_map.
  intros (r & Hr & Hx). exists r. split; [assumption|].
  apply list_elem_of_In. rewrite <- (Hperm r) by (now apply list_elem_of_In).
  now apply list_elem_of_In.
Qed.

(** What is kept of the same files, walked in another order. *)
Lemma first_of_each_walks (c1 c2 : str -> list Path) (roots : list str)
    (out1 out2 : list Path) :
  (forall root, root ∈ roots -> c1 root ≡ₚ c2 root) ->
  (forall root, root ∈ roots -> NoDup (map dkey (c1 root))) ->
  first_of_each dkey (flat_map c1 roots) out1 ->
  first_of_each dkey (flat_map c2 roots) out2 ->
  out1 ≡ₚ out2.
Proof.
  intros Hperm Hnd1 H1 H2.
  assert (forall root, root ∈ roots -> NoDup (map dkey (c2 root))) as Hnd2.
  { intros root Hr.
    assert (map dkey (c2 root) ≡ₚ map dkey (c1 root)) as ->
      by (apply Permutation_map; symmetry; now apply Hperm).
    now apply Hnd1. }
  assert (forall root, root ∈ roots -> c2 root ≡ₚ c1 root) as Hperm'
    by (intros root Hr; symmetry; now apply Hperm).
  assert (forall ca cb outa outb,
            (forall root, root ∈ roots -> ca root ≡ₚ cb root) ->
            (forall root, root ∈ roots -> NoDup (map dkey (cb root))) ->
            first_of_each dkey (flat_map ca roots) outa ->
            first_of_each dkey (flat_map cb roots) outb ->
            forall y, y ∈ outa -> y ∈ outb) as Hsub.
  { intros ca cb outa outb Hp Hn Ha Hb y Hy.
    pose proof (first_of_each_root dkey ca roots outa y Ha Hy) as Hfa.
    apply (from_first_root_perm ca cb roots y Hp) in Hfa.
    destruct Ha as (_ & _ & Hfirst). destruct (Hfirst y Hy) as (l1 & l2 & El & _).
    assert (y ∈ flat_map cb roots) as Hin.
    { apply (flat_map_perm_elem ca cb roots y Hp). rewrite El.
      apply elem_of_app. right. now left. }
    pose proof Hb as (_ & Hall & _).
    destruct (Hall y Hin) as (y' & Hy' & Ek).
    pose proof (first_of_each_root dkey cb roots outb y' Hb Hy') as Hfb.
    now rewrite (from_first_root_inj cb roots y y' Hn Hfa Hfb (eq_sym Ek)). }
  apply NoDup_Permutation.
  - destruct H1 as (Hn & _). now apply NoDup_fmap_1 in Hn.
  - destruct H2 as (Hn & _). now apply NoDup_fmap_1 in Hn.
  - intros y. split.
    + now apply (Hsub c1 c2 out1 out2).
    + now apply (Hsub c2 c1 out2 out1).
Qed.

(** The same files, walked in another order, give the same entry when
    nothing ties. *)
Lemma sorted_entry_walks (skey : Path -> sort_key) (c1 c2 : str -> list Path)
    (roots : list str) (l1 l2 : list Path) :
  (forall root, root ∈ roots -> c1 root ≡ₚ c2 root) ->
  tie_free dkey skey c1 roots ->
  first_of_each dkey (flat_map c1 roots) l1 ->
  first_of_each dkey (flat_map c2 roots) l2 ->
  sorted_by key_leb skey l1 = sorted_by key_leb skey l2.
Proof.
  intros Hperm [Hnd Htie] H1 H2.
  pose proof (first_of_each_walks c1 c2 roots l1 l2 Hperm Hnd H1 H2) as HP.
  apply (StronglySorted_unique_strong (key_le key_leb skey)).
  - intros x1 x2 Hx1%sorted_by_elem Hx2%sorted_by_elem Hle Hge.
    rewrite <- HP in Hx2.
    pose proof (key_leb_antisym _ _ Hle Hge) as Ek.
    destruct H1 as (Hn & _ & Hfirst).
    apply (nodup_key_inj l1); try assumption.
    apply Htie; [| |assumption].
    + destruct (Hfirst x1 Hx1) as (a & b & -> & _).
      apply elem_of_app. right. now left.
    + destruct (Hfirst x2 Hx2) as (a & b & -> & _).
      apply elem_of_app. right. now left.
  - apply sorted_by_sorted; [apply key_leb_total|apply key_leb_trans].
  - apply sorted_by_sorted; [apply key_leb_total|apply key_leb_trans].
  - now rewrite !sorted_by_perm.
Qed.
End Walks.

Lemma belongs_indexable (obj_id : str) (p : Path) :
  belongs obj_id p = true -> indexable p = true.
Proof.
  unfold belongs, indexable.
  intros [[-> He%bool_decide_eq_true]%andb_true_iff Hn%negb_true_iff]%andb_true_iff.
  rewrite He. apply bool_decide_eq_false in Hn. now destruct obj_id.
Qed.

Lemma desc_contrib_visible (fs : filesystem) (obj_id root : str) :
  desc_contrib fs obj_id root
  = List.filter (belongs obj_id) (visible_desc fs root).
Proof.
  unfold desc_contrib, visible_desc.
  induction (listing_of fs root) as [|p l IH]; [reflexivity|].
  cbn [List.filter]. destruct (belongs obj_id p) eqn:E.
  - rewrite (belongs_indexable obj_id p E). cbn [List.filter].
    rewrite E. now f_equal.
  - destruct (indexable p); [cbn [List.filter]; rewrite E|]; exact IH.
Qed.

Lemma filter_perm (f : Path -> bool) (l1 l2 : list Path) :
  l1 ≡ₚ l2 -> List.filter f l1 ≡ₚ List.filter f l2.
Proof.
  induction 1 as [|x l1 l2 _ IH|x y l|l1 l2 l3 _ IH1 _ IH2]; cbn [List.filter].
  - reflexivity.
  - destruct (f x); [now constructor|assumption].
  - destruct (f x), (f y); try reflexivity. apply perm_swap.
  - now rewrite IH1.
Qed.

Lemma filter_key_nodup {K : Type} (dkey : Path -> K) (f : Path -> bool)
    (l : list Path) :
  NoDup (map dkey l) -> NoDup (map dkey (List.filter f l)).
Proof.
  induction l as [|p l IH]; [intros _; constructor|].
  cbn [map List.filter]. intros [Hp Hnd]%NoDup_cons.
  destruct (f p); [|now apply IH]. cbn [map]. apply NoDup_cons.
  split; [|now apply IH]. intros Hin. apply Hp.
  apply list_elem_of_In, in_map_iff in Hin as (q & E & Hq).
  apply filter_In in Hq as [Hq _].
  apply list_elem_of_In, in_map_iff. now exists q.
Qed.

(** Where nothing ties among the files the index can see, nothing ties
    among the files of an object. *)
Lemma tie_free_desc (fs : filesystem) (roots : list str) (obj_id : str) :
  tie_free name_key AutoDesc.suffix_sort_key (visible_desc fs) roots ->
  tie_free name_key AutoDesc.suffix_sort_key (desc_contrib fs obj_id) roots.
Proof.
  intros [Hnd Htie]. split.
  - intros root Hr. rewrite desc_contrib_visible.
    now apply filter_key_nodup, Hnd.
  - assert (forall p, p ∈ flat_map (desc_contrib fs obj_id) roots ->
                      p ∈ flat_map (visible_desc fs) roots) as Hsub.
    { intros p. rewrite !list_elem_of_In, !in_flat_map.
      intros (r & Hr & Hp). exists r. split; [assumption|].
      rewrite desc_contrib_visible in Hp. now apply filter_In in Hp. }
    intros p q Hp Hq. apply Htie; now apply Hsub.
Qed.

Lemma desc_entry_walks (fs1 fs2 : filesystem) (roots : list str)
    (obj_id : str) :
  (forall root, root ∈ roots -> visible_desc fs1 root ≡ₚ visible_desc fs2 root) ->
  tie_free name_key AutoDesc.suffix_sort_key (visible_desc fs1) roots ->
  AutoDesc.collect_images_by_object fs1 roots !! obj_id
  = AutoDesc.collect_images_by_object fs2 roots !! obj_id.
Proof.
  intros Hperm Htie.
  assert (forall root, root ∈ roots ->
            desc_contrib fs1 obj_id root ≡ₚ desc_contrib fs2 obj_id root)
    as Hc.
  { intros root Hr. rewrite !desc_contrib_visible.
    now apply filter_perm, Hperm. }
  assert (gathered_desc fs1 roots obj_id ≡ₚ gathered_desc fs2 roots obj_id)
    as Hg.
  { unfold gathered_desc. clear Htie Hperm.
    induction roots as [|r roots IH]; [reflexivity|]. cbn [flat_map].
    rewrite (Hc r) by (now left). apply Permutation_app_head, IH.
    intros root Hr. apply Hc. now right. }
  rewrite !index_lookup.
  assert (sorted_by key_leb AutoDesc.suffix_sort_key
            (AutoDesc.unique_by_filename (gathered_desc fs1 roots obj_id))
          = sorted_by key_leb AutoDesc.suffix_sort_key
              (AutoDesc.unique_by_filename (gathered_desc fs2 roots obj_id)))
    as Hs.
  { unfold AutoDesc.unique_by_filename.
    rewrite !desc_unique_loop_keep_first.
    apply (sorted_entry_walks name_key AutoDesc.suffix_sort_key
             (desc_contrib fs1 obj_id) (desc_contrib fs2 obj_id) roots);
      [assumption|now apply tie_free_desc|apply keep_first_spec..]. }
  destruct (gathered_desc fs1 roots obj_id) as [|p1 l1] eqn:E1,
           (gathered_desc fs2 roots obj_id) as [|p2 l2] eqn:E2.
  - reflexivity.
  - now apply Permutation_nil_cons in Hg.
  - symmetry in Hg. now apply Permutation_nil_cons in Hg.
  - now rewrite Hs.
Qed.

Lemma site_entry_walks (fs1 fs2 : filesystem) (roots : list str)
    (obj_id : str) :
  (forall root, root ∈ roots ->
     site_contrib fs1 obj_id root ≡ₚ site_contrib fs2 obj_id root) ->
  tie_free name_size_key BuildSite.suffix_sort_key (site_contrib fs1 obj_id)
           roots ->
  BuildSite.collect_images_for_object fs1 roots obj_id
  = BuildSite.collect_images_for_object fs2 roots obj_id.
Proof.
  intros Hperm Htie. unfold BuildSite.collect_images_for_object.
  rewrite !site_candidates_gathered, !site_unique_loop_keep_first.
  apply (sorted_entry_walks name_size_key BuildSite.suffix_sort_key
           (site_contrib fs1 obj_id) (site_contrib fs2 obj_id) roots);
    [assumption|assumption|apply keep_first_spec..].
Qed.

(** C5 (as amended).  Two runs over the same roots build identical
    indexes, entry by entry and image by image, when the walk yields under
    each root the same image files, with the same names and sizes, in the
    same order; the same state of the disk walked twice in one order is
    the special case, and nothing else of the disk matters: other files
    and folders, roots that are not configured, or whether a root without
    such files exists at all.  When the walk yields the same files in
    another order, the indexes are still identical where nothing ties: no
    root holds two files of one de-duplication key, and files with one
    sort key have one de-duplication key. *)
Theorem C5_index_deterministic (fs1 fs2 : filesystem) (roots : list str) :
  ((forall root, root ∈ roots -> visible_desc fs1 root = visible_desc fs2 root) ->
   AutoDesc.collect_images_by_object fs1 roots
   = AutoDesc.collect_images_by_object fs2 roots)
  /\ ((forall root obj_id, root ∈ roots ->
         site_contrib fs1 obj_id root = site_contrib fs2 obj_id root) ->
      forall obj_id,
        BuildSite.collect_images_for_object fs1 roots obj_id
        = BuildSite.collect_images_for_object fs2 roots obj_id)
  /\ ((forall root, root ∈ roots ->
         visible_desc fs1 root ≡ₚ visible_desc fs2 root) ->
      tie_free name_key AutoDesc.suffix_sort_key (visible_desc fs1) roots ->
      AutoDesc.collect_images_by_object fs1 roots
      = AutoDesc.collect_images_by_object fs2 roots)
  /\ (forall obj_id,
        (forall root, root ∈ roots ->
           site_contrib fs1 obj_id root ≡ₚ site_contrib fs2 obj_id root) ->
        tie_free name_size_key BuildSite.suffix_sort_key
                 (site_contrib fs1 obj_id) roots ->
        BuildSite.collect_images_for_object fs1 roots obj_id
        = BuildSite.collect_images_for_object fs2 roots obj_id).
Proof.
  split; [|split; [|split]].
  - intros Hdesc. unfold AutoDesc.collect_images_by_object.
    now rewrite (scan_roots_agree fs1 fs2 roots Hdesc).
  - intros Hsite obj_id. unfold BuildSite.collect_images_for_object.
    rewrite !site_candidates_gathered.
    rewrite (gathered_site_agree fs1 fs2 roots obj_id); [reflexivity|].
    intros root Hr. now apply Hsite.
  - intros Hperm Htie. apply map_eq. intros obj_id.
    now apply desc_entry_walks.
  - intros obj_id. apply site_entry_walks.
Qed.

Lemma folder_not_candidate (pre : str) :
  BuildSite.candidate pre year_folder = false.
Proof. reflexivity. Qed.

Lemma notes_not_candidate (pre : str) :
  BuildSite.candidate pre notes_file = false.
Proof.
  unfold BuildSite.candidate.
  assert (bool_decide (Str.lower (suffix notes_file) ∈ ALLOWED_EXTS) = false)
    as -> by (vm_compute; reflexivity).
  reflexivity.
Qed.

Lemma sample_walks_permuted (root : str) :
  root ∈ two_roots ->
  visible_desc fs_plain root ≡ₚ visible_desc fs_shuffled root
  /\ site_contrib fs_plain (lit "1-1997-0457") root
     ≡ₚ site_contrib fs_shuffled (lit "1-1997-0457") root.
Proof.
  intros Hr. unfold two_roots in Hr.
  apply elem_of_cons in Hr as [->|Hr].
  - split.
    + change (visible_desc fs_plain (lit "output/aeg"))
        with (List.filter indexable [shot_001; shot_000]).
      change (visible_desc fs_shuffled (lit "output/aeg"))
        with (List.filter indexable
                [shot_000; year_folder; notes_file; shot_001]).
      assert (List.filter indexable [shot_001; shot_000]
              = [shot_001; shot_000]) as -> by (vm_compute; reflexivity).
      assert (List.filter indexable
                [shot_000; year_folder; notes_file; shot_001]
              = [shot_000; shot_001]) as -> by (vm_compute; reflexivity).
      apply perm_swap.
    + assert (site_contrib fs_plain (lit "1-1997-0457") (lit "output/aeg")
              = [shot_001; shot_000]) as -> by (vm_compute; reflexivity).
      assert (site_contrib fs_shuffled (lit "1-1997-0457") (lit "output/aeg")
              = [shot_000; shot_001]) as -> by (vm_compute; reflexivity).
      apply perm_swap.
  - apply elem_of_cons in Hr as [->|Hr]; [|inversion Hr].
    split; reflexivity.
Qed.

Lemma sample_tie_free {K : Type} (dkey : Path -> K) (skey : Path -> sort_key)
    (contrib : str -> list Path) :
  contrib (lit "output/aeg") = [shot_001; shot_000] ->
  contrib (lit "output/schreibmaschinen") = [] ->
  dkey shot_001 <> dkey shot_000 ->
  skey shot_001 <> skey shot_000 ->
  tie_free dkey skey contrib two_roots.
Proof.
  intros E1 E2 Hd Hs. split.
  - intros root Hr. unfold two_roots in Hr.
    apply elem_of_cons in Hr as [->|Hr].
    + rewrite E1. cbn [map]. apply NoDup_cons. split.
      * intros Hin. apply list_elem_of_singleton in Hin. contradiction.
      * apply NoDup_singleton.
    + apply elem_of_cons in Hr as [->|Hr]; [|inversion Hr].
      rewrite E2. constructor.
  - unfold two_roots. cbn [flat_map]. rewrite E1, E2. cbn [app].
    intros p q Hp Hq Hk.
    apply elem_of_cons in Hp as [->|Hp%list_elem_of_singleton];
      apply elem_of_cons in Hq as [->|Hq%list_elem_of_singleton];
      subst; try reflexivity; [|symmetry in Hk]; contradiction.
Qed.

Lemma sample_desc_tie_free :
  tie_free name_key AutoDesc.suffix_sort_key (visible_desc fs_plain) two_roots.
Proof.
  apply sample_tie_free; try (vm_compute; reflexivity);
    intros H; vm_compute in H; discriminate H.
Qed.

Lemma sample_site_tie_free :
  tie_free name_size_key BuildSite.suffix_sort_key
           (site_contrib fs_plain (lit "1-1997-0457")) two_roots.
Proof.
  apply sample_tie_free; try (vm_compute; reflexivity);
    intros H; vm_compute in H; discriminate H.
Qed.

Lemma sample_walks_cluttered :
  (forall root, root ∈ two_roots ->
     visible_desc fs_plain root = visible_desc fs_cluttered root)
  /\ (forall root obj_id, root ∈ two_roots ->
        site_contrib fs_plain obj_id root
        = site_contrib fs_cluttered obj_id root).
Proof.
  split.
  - intros root Hr. unfold two_roots in Hr.
    repeat (apply elem_of_cons in Hr as [->|Hr]; [vm_compute; reflexivity|]).
    inversion Hr.
  - intros root obj_id Hr. unfold two_roots in Hr. unfold site_contrib.
    apply elem_of_cons in Hr as [->|Hr].
    + change (listing_of fs_plain (lit "output/aeg"))
        with [shot_001; shot_000].
      change (listing_of fs_cluttered (lit "output/aeg"))
        with [year_folder; shot_001; notes_file; shot_000].
      cbn [List.filter].
      now rewrite folder_not_candidate, notes_not_candidate.
    + apply elem_of_cons in Hr as [->|Hr]; [reflexivity|inversion Hr].
Qed.

(** C5 at three states of the disk with the same image files: one with
    nothing else, one with other files and folders around them, and one
    that also yields them in the other order. *)
Lemma C5_witness :
  (AutoDesc.collect_images_by_object fs_plain two_roots
   = AutoDesc.collect_images_by_object fs_cluttered two_roots
   /\ forall obj_id,
        BuildSite.collect_images_for_object fs_plain two_roots obj_id
        = BuildSite.collect_images_for_object fs_cluttered two_roots obj_id)
  /\ visible_desc fs_plain (lit "output/aeg") = [shot_001; shot_000]
  /\ visible_desc fs_shuffled (lit "output/aeg") = [shot_000; shot_001]
  /\ AutoDesc.collect_images_by_object fs_plain two_roots
     = AutoDesc.collect_images_by_object fs_shuffled two_roots
  /\ BuildSite.collect_images_for_object fs_plain two_roots
       (lit "1-1997-0457")
     = BuildSite.collect_images_for_object fs_shuffled two_roots
         (lit "1-1997-0457").
Proof.
  destruct (C5_index_deterministic fs_plain fs_cluttered two_roots)
    as (Hd0 & Hs0 & _ & _).
  destruct (C5_index_deterministic fs_plain fs_shuffled two_roots)
    as (_ & _ & Hd & Hs).
  split; [split|split; [reflexivity|split; [reflexivity|split]]].
  - apply Hd0, sample_walks_cluttered.
  - apply Hs0, sample_walks_cluttered.
  - apply Hd; [|exact sample_desc_tie_free].
    intros root Hr. now apply sample_walks_permuted.
  - apply Hs; [|exact sample_site_tie_free].
    intros root Hr. now apply sample_walks_permuted.
Defined.

(** C5, the claim as stated, fails where files tie.  A root holds two
    copies of a photo, of one name and two sizes, in two folders; the two
    states of the disk hold the same files and differ in the order the
    walk yields them.  The description index keeps the copy that comes
    first, the site index lists the two in the order of the walk: both
    differ between the two states. *)
Lemma C5_counterexample :
  (forall root, listing_of fs_front_first root ≡ₚ listing_of fs_back_first root)
  /\ index_entry fs_front_first [lit "output/aeg"] (lit "1-1997-0457")
     = [copy_front]
  /\ index_entry fs_back_first [lit "output/aeg"] (lit "1-1997-0457")
     = [copy_back]
  /\ AutoDesc.collect_images_by_object fs_front_first [lit "output/aeg"]
     <> AutoDesc.collect_images_by_object fs_back_first [lit "output/aeg"]
  /\ BuildSite.collect_images_for_object fs_front_first [lit "output/aeg"]
       (lit "1-1997-0457") = [copy_front; copy_back]
  /\ BuildSite.collect_images_for_object fs_back_first [lit "output/aeg"]
       (lit "1-1997-0457") = [copy_back; copy_front].
Proof.
  assert (index_entry fs_front_first [lit "output/aeg"] (lit "1-1997-0457")
          = [copy_front]) as E1 by (vm_compute; reflexivity).
  assert (index_entry fs_back_first [lit "output/aeg"] (lit "1-1997-0457")
          = [copy_back]) as E2 by (vm_compute; reflexivity).
  split; [|split; [exact E1|split; [exact E2|split; [|split]]]].
  - intros root. unfold listing_of, fs_front_first, fs_back_first.
    destruct (bool_decide (root = lit "output/aeg"));
      [apply perm_swap|reflexivity].
  - intros H. unfold index_entry in E1, E2. rewrite H, E2 in E1.
    discriminate E1.
  - vm_compute. reflexivity.
  - vm_compute. reflexivity.
Qed.

(* ===================================================================== *)
(** * The run loop *)
(* ===================================================================== *)

Section RunFacts.
Variable groups : gmap str (list Path).
Variable md_maps : list (gmap str (gmap str str)).

Lemma process_eq (obj_id : str) (st : AutoDesc.run_state) :
  AutoDesc.process groups md_maps obj_id st
  = let r := AutoDesc.describe_object obj_id (default [] (groups !! obj_id))
               (AutoDesc.build_metadata_for_object obj_id md_maps)
               (AutoDesc.the_world st) in
    let rows' := AutoDesc.rows st ++ [row_for md_maps obj_id r.1] in
    AutoDesc.mkState rows' ({[ obj_id ]} ∪ AutoDesc.done st)
      (S (AutoDesc.processed_this_run st)) r.2 (Some rows').
Proof.
  unfold AutoDesc.process, row_for.
  now destruct (AutoDesc.describe_object _ _ _ _) as [res w'].
Qed.


End RunFacts.




Lemma all_objs_elem (groups : gmap str (list Path)) (o : str) :
  o ∈ AutoDesc.all_objs groups <-> is_Some (groups !! o).
Proof.
  unfold AutoDesc.all_objs.
  rewrite sorted_by_elem, elem_of_elements. apply elem_of_dom.
Qed.

Lemma resume_state (saved : option (list AutoDesc.row)) (w : AutoDesc.world) :
  AutoDesc.rows (AutoDesc.resume saved w) = stored saved
  /\ AutoDesc.done (AutoDesc.resume saved w) = AutoDesc.done_of (stored saved)
  /\ AutoDesc.processed_this_run (AutoDesc.resume saved w) = 0%nat
  /\ AutoDesc.store (AutoDesc.resume saved w) = saved.
Proof. destruct saved; repeat split. Qed.



(* ===================================================================== *)
(** * C6: resuming, and the batch limit *)
(* ===================================================================== *)


(* ===================================================================== *)
(** * C10: a failed object is recorded as done *)
(* ===================================================================== *)








(* ===================================================================== *)
(** * C7: retries, and failures that do not stop the run *)
(* ===================================================================== *)





(** The loop never makes more requests than it has attempts. *)
Lemma retry_loop_calls (left : nat) :
  forall wait c w,
    (AutoDesc.calls w <= AutoDesc.calls (AutoDesc.retry_loop left wait c w).2
     <= AutoDesc.calls w + left)%nat.
Proof.
  induction left as [|left IH]; intros wait c w; cbn [AutoDesc.retry_loop].
  - cbn. lia.
  - cbn [AutoDesc.create].
    destruct (AutoDesc.api w (AutoDesc.calls w) c) as [text|msg].
    + cbn. lia.
    + destruct (AutoDesc.is_rate_limit msg);
        [|destruct (AutoDesc.is_server_error msg)];
        cbn [AutoDesc.uniform];
        try match goal with
          | |- context [AutoDesc.retry_loop left ?wt c ?w1] =>
              pose proof (IH wt c w1) as Hle;
              change (AutoDesc.calls w1) with (S (AutoDesc.calls w)) in Hle;
              lia
          end.
      cbn. lia.
Qed.




Lemma den_ichr (a : ascii) b s caps b' s' caps' :
  den (AutoDesc.ichr a) b s caps b' s' caps' ->
  exists c, s = c :: s' /\ Str.lower_char c = Str.lower_char a /\ caps' = caps.
Proof.
  cbn [AutoDesc.ichr den]. intros (c & -> & Hc & _ & ->).
  apply Ascii.eqb_eq in Hc. now exists c.
Qed.

(** A word matched letter by letter, in any case. *)
Lemma den_iword (w : str) (rs : list Re.regex) :
  forall b s caps b' s' caps',
    den (Re.seq (map AutoDesc.ichr w ++ rs)) b s caps b' s' caps' ->
    exists pre s1 b1,
      s = pre ++ s1 /\ Str.lower pre = Str.lower w
      /\ den (Re.seq rs) b1 s1 caps b' s' caps'.
Proof.
  induction w as [|a w IH]; intros b s caps b' s' caps'.
  - intros D. now exists [], s, b.
  - cbn [map app Re.seq foldr den].
    intros (b1 & s1 & c1 & (c & -> & Hc & ->)%den_ichr & D).
    apply IH in D as (pre & s2 & b2 & -> & Hpre & D).
    exists (c :: pre), s2, b2. split; [reflexivity|]. split; [|assumption].
    cbn [Str.lower map]. now f_equal.
Qed.

Lemma run_iword (w : str) (rs : list Re.regex) :
  forall pre s1 b caps k,
    Str.lower pre = Str.lower w ->
    Re.m (Re.seq (map AutoDesc.ichr w ++ rs)) b (pre ++ s1) caps k
    = Re.m (Re.seq rs) (match pre with [] => b | _ => false end) s1 caps k.
Proof.
  induction w as [|a w IH]; intros pre s1 b caps k Hpre.
  - destruct pre; [reflexivity|discriminate].
  - destruct pre as [|c pre]; [discriminate|].
    cbn [Str.lower map] in Hpre. injection Hpre as Hc Hpre.
    cbn [map app Re.seq foldr Re.m AutoDesc.ichr].
    rewrite Hc, Ascii.eqb_refl.
    change (Re.m (foldr Re.Cat Re.Eps (map AutoDesc.ichr w ++ rs)))
      with (Re.m (Re.seq (map AutoDesc.ichr w ++ rs))).
    rewrite (IH pre s1 false caps k Hpre). now destruct pre.
Qed.

Lemma hint_sound (b : bool) (s : str) (caps : Re.captures) :
  Re.m AutoDesc.WAIT_HINT_PATTERN b s [] Re.accept = Some caps ->
  exists d, starts_hint s d /\ Re.group 1 caps = Some d.
Proof.
  intros H. apply m_accept_sound in H as (b' & s' & D).
  unfold AutoDesc.WAIT_HINT_PATTERN in D.
  apply den_iword in D as (w & s1 & b1 & -> & Hw & D).
  cbn [foldr den Re.seq] in D.
  destruct D as (b2 & s2 & c2 & (c1 & D1 & ->) & b3 & s3 & c3 & D2 & D3).
  destruct D3 as (-> & -> & ->).
  apply den_ichr in D2 as (u & -> & Hu & ->).
  destruct D1 as (b4 & s4 & c4 & D1 & D4).
  apply den_plus in D1 as (ip & -> & Hne & Hip & ->).
  destruct D4 as [D4|(-> & <- & ->)]; cbn [Re.group Nat.eqb].
  - destruct D4 as (c5 & (b6 & s6 & c6 & D5 & D6) & ->).
    apply den_chr in D5 as (-> & ->).
    apply den_plus in D6 as (fp & -> & Hnf & Hfp & ->).
    exists (ip ++ "."%char :: fp). split.
    + exists w, u, s3. split; [now rewrite <- !app_assoc|].
      split; [assumption|]. split; [|assumption].
      right. exists ip, fp. now repeat split.
    + f_equal.
      replace (ip ++ "."%char :: fp ++ u :: s3)
        with ((ip ++ "."%char :: fp) ++ u :: s3)
        by (now rewrite <- app_assoc).
      apply take_consumed.
  - exists ip. split.
    + exists w, u, s3. split; [reflexivity|].
      split; [assumption|]. split; [|assumption]. left. now split.
    + f_equal. apply take_consumed.
Qed.

Lemma hint_letter_stops (u : ascii) (rest : str) :
  Str.lower_char u = "s"%char ->
  stops Str.is_digit (u :: rest) /\ u <> "."%char.
Proof.
  intros Hu. split.
  - cbn [stops]. destruct (Str.is_digit u) eqn:E; [|reflexivity].
    exfalso. revert Hu E.
    destruct u as [[] [] [] [] [] [] [] []]; vm_compute; congruence.
  - intros ->. discriminate.
Qed.

Lemma hint_forward (b : bool) (s d : str) :
  starts_hint s d ->
  exists caps,
    Re.m AutoDesc.WAIT_HINT_PATTERN b s [] Re.accept = Some caps
    /\ Re.group 1 caps = Some d.
Proof.
  intros (w & u & rest & -> & Hw & Hd & Hu).
  destruct (hint_letter_stops u rest Hu) as [Hstop Hdot].
  unfold AutoDesc.WAIT_HINT_PATTERN. rewrite run_iword by assumption.
  set (b1 := match w with [] => b | _ => false end). clearbody b1.
  destruct Hd as [[Hne Hip]|(ip & fp & -> & [Hne Hip] & [Hnf Hfp])].
  - eexists. split.
    + apply run_seq_cons, run_grp, run_cat.
      apply run_plus; [assumption..|].
      rewrite run_opt_skip.
      * apply run_seq_cons. cbn [Re.m AutoDesc.ichr].
        rewrite Hu. cbn [Str.lower_char]. 
        change (Ascii.eqb "s" (Str.lower_char "s")) with true. cbv iota.
        apply run_seq_nil. reflexivity.
      * cbn [Re.m Re.chr].
        destruct (Ascii.eqb_spec "."%char u) as [E|_]; [now subst|reflexivity].
    + cbn [Re.group Nat.eqb]. f_equal. apply take_consumed.
  - eexists. split.
    + rewrite <- app_assoc. cbn [app].
      apply run_seq_cons, run_grp, run_cat.
      apply run_plus; [assumption|assumption|reflexivity|].
      apply run_opt, run_grp, run_cat.
      apply run_cls; [reflexivity|].
      apply run_plus; [assumption..|].
      apply run_seq_cons. cbn [Re.m AutoDesc.ichr].
      rewrite Hu.
      change (Ascii.eqb "s" (Str.lower_char "s")) with true. cbv iota.
      apply run_seq_nil. reflexivity.
    + cbn [Re.group Nat.eqb]. f_equal.
      replace (ip ++ "."%char :: fp ++ u :: rest)
        with ((ip ++ "."%char :: fp) ++ u :: rest)
        by (now rewrite <- app_assoc).
      apply take_consumed.
Qed.


(** A text starts with at most one hint. *)
Lemma starts_hint_unique (s d d' : str) :
  starts_hint s d -> starts_hint s d' -> d = d'.
Proof.
  intros (caps & Hm & Hg)%(hint_forward true)
         (caps' & Hm' & Hg')%(hint_forward true).
  congruence.
Qed.

Lemma match_at_hint (msg : str) (i : nat) :
  (forall d, starts_hint (drop i msg) d ->
     exists caps, match_at AutoDesc.WAIT_HINT_PATTERN msg i = Some caps
                  /\ Re.group 1 caps = Some d)
  /\ ((forall d, ~ starts_hint (drop i msg) d) ->
      match_at AutoDesc.WAIT_HINT_PATTERN msg i = None).
Proof.
  unfold match_at. split.
  - intros d Hd. now apply hint_forward.
  - intros Hno.
    destruct (Re.m AutoDesc.WAIT_HINT_PATTERN (Nat.eqb i 0) (drop i msg) []
                Re.accept) as [caps|] eqn:E; [|reflexivity].
    apply hint_sound in E as (d & Hd & _). now destruct (Hno d).
Qed.













(** Closes the side conditions on sample strings. *)
Ltac shape :=
  repeat first
    [ reflexivity | discriminate | split | constructor ].

(* ===================================================================== *)
(** * File names and identifiers *)
(* ===================================================================== *)

Lemma id_pattern_forward (p y c rest : str) :
  number p -> digits 4 y -> digits 4 c ->
  Re.re_match AutoDesc.OBJ_ID_PATTERN (p ++ "-"%char :: y ++ "-"%char :: c ++ rest)
  = Some [(3%nat, c); (2%nat, y); (1%nat, p)].
Proof.
  intros [Hne Hp] Hy Hc.
  assert (stops Str.is_digit ("-"%char :: y ++ "-"%char :: c ++ rest)) as Hstop
    by reflexivity.
  unfold Re.re_match, AutoDesc.OBJ_ID_PATTERN.
  run_re. unfold Re.accept. now rewrite !take_consumed.
Qed.

Lemma canonical_app (p y c rest : str) :
  canonical p y c ++ rest = p ++ "-"%char :: y ++ "-"%char :: c ++ rest.
Proof.
  unfold canonical. now repeat (rewrite <- ?app_assoc; cbn [app lit list_ascii_of_string]).
Qed.

Lemma extract_canonical (p y c rest : str) :
  number p -> digits 4 y -> digits 4 c ->
  AutoDesc.extract_object_id (canonical p y c ++ rest) = Some (canonical p y c).
Proof.
  intros Hp Hy Hc. unfold AutoDesc.extract_object_id.
  rewrite canonical_app, id_pattern_forward by assumption. reflexivity.
Qed.

Lemma extract_accepted (filename id : str) :
  AutoDesc.extract_object_id filename = Some id ->
  exists p y c rest,
    filename = canonical p y c ++ rest
    /\ number p /\ digits 4 y /\ digits 4 c /\ id = canonical p y c.
Proof.
  unfold AutoDesc.extract_object_id.
  destruct (Re.re_match AutoDesc.OBJ_ID_PATTERN filename) as [caps|] eqn:E;
    [|discriminate].
  apply obj_id_pattern_sound in E
    as (p & y & c & rest & -> & Hp & Hy & Hc & ->).
  cbn [Re.group Nat.eqb Str.join]. intros [= <-].
  exists p, y, c, rest. rewrite canonical_app. close_shape.
Qed.

(** X1.  [extract_object_id] returns an identifier exactly for the file
    names that begin with a catalogue number: one or more digits, a dash, a
    year of four digits, a dash and a code of four digits, whatever follows.
    The identifier is that head of the name; any other name gets [None]. *)
Theorem extract_object_id_reads_the_head (filename id : str) :
  AutoDesc.extract_object_id filename = Some id <->
  exists p y c rest,
    filename = canonical p y c ++ rest
    /\ number p /\ digits 4 y /\ digits 4 c /\ id = canonical p y c.
Proof.
  split; [apply extract_accepted|].
  intros (p & y & c & rest & -> & Hp & Hy & Hc & ->).
  now apply extract_canonical.
Qed.

Lemma canonical_spells (p y c : str) :
  number p -> digits 4 y -> digits 4 c -> spells (canonical p y c) p y c.
Proof.
  intros Hp Hy Hc. exists [], "-"%char, "-"%char, [].
  split; [|close_shape; constructor].
  rewrite <- (app_nil_r (canonical p y c)) at 1. now rewrite canonical_app.
Qed.

(** X2.  An identifier that [extract_object_id] reads from a file name, or
    [normalize_obj_id_from_excel] from a cell, is read back as itself by
    both functions: the identifiers of the files and of the sheets have one
    form. *)
Theorem identifiers_are_fixed_points (filename raw id : str) :
  AutoDesc.extract_object_id filename = Some id
  \/ AutoDesc.normalize_obj_id_from_excel (Some raw) = Some id ->
  AutoDesc.extract_object_id id = Some id
  /\ AutoDesc.normalize_obj_id_from_excel (Some id) = Some id.
Proof.
  intros H.
  assert (exists p y c, number p /\ digits 4 y /\ digits 4 c
                        /\ id = canonical p y c)
    as (p & y & c & Hp & Hy & Hc & ->).
  { destruct H as [H|H].
    - apply extract_accepted in H as (p & y & c & rest & _ & Hp & Hy & Hc & ->).
      now exists p, y, c.
    - apply normalize_accepted_spells in H as (p & y & c & Hs & ->).
      destruct Hs as (ws & s1 & s2 & rest & _ & _ & Hp & Hy & Hc & _).
      now exists p, y, c. }
  split.
  - rewrite <- (app_nil_r (canonical p y c)) at 1. now apply extract_canonical.
  - apply normalize_spells. now apply canonical_spells.
Qed.

(** X2 at the identifier of a photo. *)
Lemma identifiers_are_fixed_points_witness :
  (AutoDesc.extract_object_id (lit "1-1997-0457-000-003.jpg") = Some (lit "1-1997-0457")
   \/ AutoDesc.normalize_obj_id_from_excel (Some (lit " 1/1997/0457 0"))
      = Some (lit "1-1997-0457"))
  /\ AutoDesc.extract_object_id (lit "1-1997-0457") = Some (lit "1-1997-0457")
  /\ AutoDesc.normalize_obj_id_from_excel (Some (lit "1-1997-0457"))
     = Some (lit "1-1997-0457").
Proof.
  split; [left; vm_compute; reflexivity|].
  apply (identifiers_are_fixed_points (lit "1-1997-0457-000-003.jpg")
           (lit " 1/1997/0457 0")).
  left. vm_compute. reflexivity.
Defined.

(* ===================================================================== *)
(** * [safe_str] *)
(* ===================================================================== *)

Lemma lstrip_idem (s : str) : Str.lstrip (Str.lstrip s) = Str.lstrip s.
Proof.
  induction s as [|a s IH]; [reflexivity|].
  simpl. destruct (Str.is_space a) eqn:Ha; [assumption|].
  simpl. now rewrite Ha.
Qed.

Lemma rstrip_idem (s : str) : Str.rstrip (Str.rstrip s) = Str.rstrip s.
Proof.
  unfold Str.rstrip. now rewrite rev_involutive, lstrip_idem.
Qed.

Lemma lstrip_rstrip (s : str) :
  Str.lstrip (Str.rstrip (Str.lstrip s)) = Str.rstrip (Str.lstrip s).
Proof.
  destruct (Str.lstrip s) as [|a t] eqn:E; [reflexivity|].
  assert (Str.is_space a = false) as Ha.
  { pose proof (lstrip_idem s) as H. rewrite E in H. simpl in H.
    destruct (Str.is_space a) eqn:Ha; [|reflexivity].
    exfalso. destruct (lstrip_decompose t) as (lead & Et & _).
    apply (f_equal (@length ascii)) in H. rewrite Et in H at 2.
    simpl in H. rewrite length_app in H. lia. }
  pose proof (rstrip_app_nonspace [] t a Ha) as Hr. cbn [app] in Hr.
  rewrite Hr. simpl. now rewrite Ha.
Qed.

Lemma strip_idem (s : str) : Str.strip (Str.strip s) = Str.strip s.
Proof.
  unfold Str.strip. now rewrite lstrip_rstrip, rstrip_idem.
Qed.

(** X3.  [safe_str] never returns the empty string; what it returns has no
    white space around it and goes through [safe_str] unchanged; it is the
    sentinel [No Data] exactly for a missing value, a blank one, and one
    that reads [No Data] once trimmed. *)
Theorem safe_str_normal_form (x : option str) :
  AutoDesc.safe_str x <> []
  /\ Str.strip (AutoDesc.safe_str x) = AutoDesc.safe_str x
  /\ AutoDesc.safe_str (Some (AutoDesc.safe_str x)) = AutoDesc.safe_str x
  /\ (AutoDesc.safe_str x = AutoDesc.NO_DATA <->
      x = None \/ exists v, x = Some v
                  /\ (Str.strip v = [] \/ Str.strip v = AutoDesc.NO_DATA)).
Proof.
  assert (Str.strip (AutoDesc.safe_str x) = AutoDesc.safe_str x) as Hs.
  { destruct x as [v|]; [|vm_compute; reflexivity]. unfold AutoDesc.safe_str.
    destruct (Str.strip v) as [|a t] eqn:E; [vm_compute; reflexivity|].
    rewrite <- E. apply strip_idem. }
  assert (AutoDesc.safe_str x <> []) as Hne.
  { destruct x as [v|]; [|discriminate]. unfold AutoDesc.safe_str.
    destruct (Str.strip v); discriminate. }
  split; [assumption|]. split; [assumption|]. split.
  - unfold AutoDesc.safe_str at 1. rewrite Hs.
    destruct (AutoDesc.safe_str x); [contradiction|reflexivity].
  - destruct x as [v|]; unfold AutoDesc.safe_str.
    + destruct (Str.strip v) as [|a t] eqn:E; split.
      * intros _. right. exists v. split; [reflexivity|now left].
      * reflexivity.
      * intros H. right. exists v. split; [reflexivity|right; congruence].
      * intros [H|(v' & [= <-] & [H|H])]; first [discriminate|congruence].
    + split; [now left|reflexivity].
Qed.

(* ===================================================================== *)
(** * The files of the site and the index *)
(* ===================================================================== *)

Lemma lower_char_plain (a b : ascii) :
  plain a -> Str.lower_char b = a -> b = a.
Proof.
  intros Ha Hl. subst a.
  destruct b as [[] [] [] [] [] [] [] []]; try reflexivity; exfalso;
    vm_compute in Ha; destruct Ha as [Ha|Ha]; discriminate.
Qed.

Lemma lower_plain (a : ascii) : plain a -> Str.lower_char a = a.
Proof.
  intros [Ha| ->]; [|reflexivity].
  destruct a as [[] [] [] [] [] [] [] []]; try reflexivity; discriminate.
Qed.

Lemma startswith_lower_plain (pre s : str) :
  Forall plain pre ->
  Str.startswith (Str.lower pre) (Str.lower s) = true ->
  exists rest, s = pre ++ rest.
Proof.
  intros Hpre. revert s. induction Hpre as [|a pre Ha Hpre IH]; intros s.
  - intros _. now exists s.
  - destruct s as [|b s]; [discriminate|]. cbn [Str.lower map Str.startswith].
    intros [He Hs]%andb_true_iff. apply Ascii.eqb_eq in He.
    rewrite (lower_plain a Ha) in He. symmetry in He.
    apply (lower_char_plain a b Ha) in He as ->.
    destruct (IH s Hs) as [rest ->]. now exists rest.
Qed.

Lemma digits_plain (s : str) :
  Forall (fun a => Str.is_digit a = true) s -> Forall plain s.
Proof. intros H. eapply Forall_impl; [exact H|]. intros a Ha. now left. Qed.

Lemma canonical_plain (p y c : str) :
  number p -> digits 4 y -> digits 4 c ->
  Forall plain (canonical p y c ++ lit "-").
Proof.
  intros [_ Hp] [_ Hy] [_ Hc]. unfold canonical.
  cbn [lit list_ascii_of_string].
  repeat first
    [ now apply digits_plain
    | apply Forall_app; split
    | apply Forall_cons; split; [now right|]
    | apply Forall_nil ].
Qed.

Lemma canonical_nonempty (p y c : str) : number p -> canonical p y c <> [].
Proof. intros [Hne _]. unfold canonical. now destruct p. Qed.

(** A file that [build_site.py] takes for an object is one that
    [autoOpenAIDescription.py] takes for it. *)
Lemma candidate_belongs (p y c : str) (f : Path) :
  number p -> digits 4 y -> digits 4 c ->
  BuildSite.candidate (Str.lower (canonical p y c ++ lit "-")) f = true ->
  belongs (canonical p y c) f = true.
Proof.
  intros Hp Hy Hc. unfold BuildSite.candidate, belongs, AutoDesc.is_image_file.
  intros [[Hf He]%andb_true_iff Hs]%andb_true_iff.
  apply startswith_lower_plain in Hs as [rest Hn];
    [|now apply canonical_plain].
  rewrite Hf, He. cbn [andb].
  rewrite Hn, <- app_assoc, extract_canonical by assumption.
  rewrite bool_decide_eq_true_2 by reflexivity.
  rewrite bool_decide_eq_false_2 by (now apply canonical_nonempty).
  reflexivity.
Qed.

Lemma gathered_site_desc (fs : filesystem) (roots : list str) (p y c : str)
    (f : Path) :
  number p -> digits 4 y -> digits 4 c ->
  f ∈ gathered_site fs roots (canonical p y c) ->
  f ∈ gathered_desc fs roots (canonical p y c).
Proof.
  intros Hp Hy Hc. unfold gathered_site, gathered_desc, site_contrib, desc_contrib.
  rewrite !list_elem_of_In, !in_flat_map.
  intros (r & Hr & Hf). exists r. split; [assumption|].
  apply filter_In in Hf as [Hin Hcand]. apply filter_In. split; [assumption|].
  now apply candidate_belongs.
Qed.

(** X4.  Every file that [build_site.py] collects for an object (a canonical
    identifier) is an image file whose name [extract_object_id] reads as
    that object, and the index of [autoOpenAIDescription.py] over the same
    roots holds for the object a file of the same lower-cased name. *)
Theorem site_images_are_indexed (fs : filesystem) (roots : list str)
    (p y c : str) (f : Path) :
  number p -> digits 4 y -> digits 4 c ->
  f ∈ BuildSite.collect_images_for_object fs roots (canonical p y c) ->
  AutoDesc.is_image_file f = true
  /\ AutoDesc.extract_object_id (name f) = Some (canonical p y c)
  /\ exists g, g ∈ index_entry fs roots (canonical p y c)
               /\ Str.lower (name g) = Str.lower (name f).
Proof.
  intros Hp Hy Hc Hf.
  destruct (site_first_of_each fs roots (canonical p y c)) as (_ & _ & Hfrom).
  destruct (Hfrom f Hf) as (l1 & l2 & Hl & _).
  assert (f ∈ gathered_desc fs roots (canonical p y c)) as Hg.
  { apply gathered_site_desc; try assumption. rewrite Hl.
    apply elem_of_app. right. now left. }
  pose proof (gathered_desc_belongs _ _ _ _ Hg) as Hb. unfold belongs in Hb.
  apply andb_true_iff in Hb as [[Hi He%bool_decide_eq_true]%andb_true_iff _].
  split; [assumption|]. split; [assumption|].
  destruct (desc_first_of_each fs roots (canonical p y c)) as (_ & Hall & _).
  destruct (Hall f Hg) as (g & Hgin & Hk). now exists g.
Qed.

(** X4 at the photo of the second root, of which the description index holds
    the namesake of the first. *)
Lemma site_images_are_indexed_witness :
  AutoDesc.is_image_file photo_typewriters = true
  /\ AutoDesc.extract_object_id (name photo_typewriters)
     = Some (lit "1-1997-0457")
  /\ exists g, g ∈ index_entry fs_two_sizes two_roots (lit "1-1997-0457")
               /\ Str.lower (name g) = Str.lower (name photo_typewriters).
Proof.
  apply (site_images_are_indexed fs_two_sizes two_roots
           (lit "1") (lit "1997") (lit "0457") photo_typewriters);
    [shape..|].
  apply list_elem_of_In. vm_compute. right. left. reflexivity.
Defined.

(* ===================================================================== *)
(** * A cell in the documented format *)
(* ===================================================================== *)

Lemma span_digits (s : str) :
  exists ds rest, s = ds ++ rest
    /\ Forall (fun a => Str.is_digit a = true) ds /\ stops Str.is_digit rest.
Proof.
  induction s as [|a s (ds & rest & -> & Hds & Hrest)].
  - exists [], []. repeat split. constructor.
  - destruct (Str.is_digit a) eqn:Ha.
    + exists (a :: ds), rest. repeat split; [now constructor|assumption].
    + exists [], (a :: ds ++ rest). repeat split; [constructor|assumption].
Qed.

Lemma number_head (v rest : str) (c : ascii -> bool) :
  number v -> (forall a, Str.is_digit a = true -> c a = false) ->
  stops c (v ++ rest).
Proof.
  intros [Hne Hv] Hc. destruct v as [|d v]; [contradiction|].
  inversion Hv; subst. simpl. now apply Hc.
Qed.

Lemma digits_head (n : nat) (v rest : str) (c : ascii -> bool) :
  digits (S n) v -> (forall a, Str.is_digit a = true -> c a = false) ->
  stops c (v ++ rest).
Proof.
  intros [Hl Hv] Hc. apply number_head; [|assumption].
  split; [|assumption]. now destruct v.
Qed.

Lemma blank_head (w rest : str) :
  w <> [] -> blank w -> stops Str.is_digit (w ++ rest).
Proof.
  intros Hne Hw. destruct w as [|a w]; [contradiction|].
  inversion Hw; subst. simpl.
  destruct (Str.is_digit a) eqn:Hd; [|reflexivity].
  apply digit_not_space in Hd. congruence.
Qed.

(** The slashed pattern of [copy_RelevantImages.py] on a catalogue number
    in the documented format. *)
Lemma obj_re_forward (p y c w v rest : str) (b : bool) :
  number p -> digits 4 y -> digits 4 c -> w <> [] -> blank w ->
  number v -> stops Str.is_digit rest ->
  Re.m CopyRelevant.OBJ_RE b
       (p ++ "/"%char :: y ++ "/"%char :: c ++ w ++ v ++ rest) [] Re.accept
  = Some [(4%nat, v); (3%nat, c); (2%nat, y); (1%nat, p)].
Proof.
  intros Hp Hy Hc Hne Hw Hv Hrest.
  assert (stops Str.is_digit ("/"%char :: y ++ "/"%char :: c ++ w ++ v ++ rest))
    as S1 by reflexivity.
  assert (stops Str.is_space ("/"%char :: y ++ "/"%char :: c ++ w ++ v ++ rest))
    as S2 by reflexivity.
  assert (stops Str.is_space (y ++ "/"%char :: c ++ w ++ v ++ rest)) as S3
    by (apply (digits_head 3); [assumption|apply digit_not_space]).
  assert (stops Str.is_space ("/"%char :: c ++ w ++ v ++ rest)) as S4
    by reflexivity.
  assert (stops Str.is_space (c ++ w ++ v ++ rest)) as S5
    by (apply (digits_head 3); [assumption|apply digit_not_space]).
  assert (stops Str.is_space (v ++ rest)) as S6
    by (apply number_head; [assumption|apply digit_not_space]).
  destruct Hp as [Hpne Hp]. destruct Hv as [Hvne Hv].
  destruct Hc as [Hcl Hc].
  destruct c as [|c1 [|c2 [|c3 [|c4 [|]]]]]; try discriminate.
  repeat match goal with H : Forall _ (_ :: _) |- _ =>
    inversion H; clear H; subst end.
  unfold CopyRelevant.OBJ_RE.
  apply run_seq_cons, run_grp, run_plus; [assumption..|].
  apply run_seq_cons. rewrite run_star_stop by assumption.
  apply run_seq_cons, run_cls; [reflexivity|].
  apply run_seq_cons. rewrite run_star_stop by assumption.
  apply run_seq_cons, run_grp, run_rep_digits; [assumption|].
  apply run_seq_cons. rewrite run_star_stop by assumption.
  apply run_seq_cons, run_cls; [reflexivity|].
  apply run_seq_cons. rewrite run_star_stop by assumption.
  apply run_seq_cons, run_grp, run_cat.
  cbn [app Re.rep].
  apply run_cat, run_cls; [assumption|].
  apply run_cat, run_cls; [assumption|].
  apply run_cat, run_cls; [assumption|].
  cbn [Re.m]. apply run_opt, run_cls; [assumption|].
  apply run_seq_cons, run_plus; [assumption..|].
  apply run_seq_cons, run_grp, run_plus; [assumption..|].
  apply run_seq_nil. unfold Re.accept.
  rewrite !take_consumed.
  change (c1 :: c2 :: c3 :: c4 :: w ++ v ++ rest)
    with ([c1; c2; c3; c4] ++ w ++ v ++ rest).
  now rewrite take_consumed.
Qed.

Lemma rstrip_blank (s : str) : blank s -> Str.rstrip s = [].
Proof.
  intros H. unfold Str.rstrip.
  rewrite <- (app_nil_r (rev s)), lstrip_spaces by (now apply List.Forall_rev).
  reflexivity.
Qed.

Lemma object_regex_forward (p y c w v : str) :
  number p -> digits 4 y -> digits 4 c -> w <> [] -> blank w -> number v ->
  Re.re_match CopyExcel.OBJECT_REGEX
       (p ++ "/"%char :: y ++ "/"%char :: c ++ w ++ v)
  = Some [(4%nat, v); (3%nat, c); (2%nat, y); (1%nat, p)].
Proof.
  intros Hp Hy Hc Hne Hw Hv.
  rewrite <- (app_nil_r v) at 1.
  assert (stops Str.is_digit ("/"%char :: y ++ "/"%char :: c ++ w ++ v ++ []))
    as S1 by reflexivity.
  assert (stops Str.is_space
            (p ++ "/"%char :: y ++ "/"%char :: c ++ w ++ v ++ []))
    as S2 by (apply number_head; [assumption|apply digit_not_space]).
  assert (stops Str.is_space (v ++ [])) as S6
    by (apply number_head; [assumption|apply digit_not_space]).
  assert (stops Str.is_digit []) as S7 by exact I.
  destruct Hp as [Hpne Hp]. destruct Hv as [Hvne Hv].
  unfold Re.re_match, CopyExcel.OBJECT_REGEX.
  apply run_seq_cons, run_bol.
  apply run_seq_cons. rewrite run_star_stop by assumption.
  apply run_seq_cons, run_grp, run_plus; [assumption..|].
  apply run_seq_cons, run_cls; [reflexivity|].
  apply run_seq_cons, run_grp, run_rep_digits; [assumption|].
  apply run_seq_cons, run_cls; [reflexivity|].
  apply run_seq_cons, run_grp, run_rep_digits; [assumption|].
  apply run_seq_cons, run_plus; [assumption..|].
  apply run_seq_cons, run_grp, run_plus; [assumption..|].
  apply run_seq_cons. rewrite run_star_stop by exact I.
  apply run_seq_cons, run_eol; [reflexivity|].
  apply run_seq_nil. unfold Re.accept.
  now rewrite !take_consumed.
Qed.

Lemma strip_documented (p x v tail : str) :
  number p -> number v -> blank tail ->
  Str.strip (p ++ x ++ v ++ tail) = p ++ x ++ v.
Proof.
  intros [Hpne Hp] [Hvne Hv] Ht.
  destruct p as [|a p]; [contradiction|].
  destruct (exists_last Hvne) as (v' & b & ->).
  inversion Hp; subst.
  apply Forall_app in Hv as [_ Hb]. inversion Hb; subst.
  replace ((a :: p) ++ x ++ (v' ++ [b]) ++ tail)
    with ([] ++ a :: (p ++ x ++ v') ++ b :: tail)
    by (now repeat (rewrite <- ?app_assoc; cbn [app])).
  rewrite strip_core; [|constructor|now apply digit_not_space..].
  rewrite rstrip_blank by assumption.
  now repeat (rewrite <- ?app_assoc; cbn [app]).
Qed.

Lemma parse_documented (p y c w v rest : str) :
  number p -> digits 4 y -> digits 4 c -> w <> [] -> blank w -> number v ->
  CopyRelevant.parse_object_number
    (Some (p ++ "/"%char :: y ++ "/"%char :: c ++ w ++ v ++ rest))
  = Some (CopyRelevant.mkParsed (canonical p y c ++ lit "-") y).
Proof.
  intros Hp Hy Hc Hne Hw Hv.
  destruct (span_digits rest) as (ds & rest' & -> & Hds & Hstop).
  unfold CopyRelevant.parse_object_number, Re.re_search.
  rewrite (search_hit _ _ _ [(4%nat, v ++ ds); (3%nat, c); (2%nat, y); (1%nat, p)]).
  - cbn [Re.group Nat.eqb]. unfold canonical.
    now repeat (rewrite <- ?app_assoc; cbn [app lit list_ascii_of_string]).
  - replace (p ++ "/"%char :: y ++ "/"%char :: c ++ w ++ v ++ ds ++ rest')
      with (p ++ "/"%char :: y ++ "/"%char :: c ++ w ++ (v ++ ds) ++ rest')
      by (now rewrite <- app_assoc).
    apply obj_re_forward; try assumption.
    destruct Hv as [Hvne Hv]. split; [now destruct v|now apply Forall_app].
Qed.

Lemma normalize_documented (p y c tail : str) :
  number p -> digits 4 y -> digits 4 c ->
  AutoDesc.normalize_obj_id_from_excel
    (Some (p ++ "/"%char :: y ++ "/"%char :: c ++ tail))
  = Some (canonical p y c).
Proof.
  intros Hp Hy Hc. apply normalize_spells.
  exists [], "/"%char, "/"%char, tail. close_shape. constructor.
Qed.

(** X5.  A cell in the documented format (prefix, year of four digits and
    code of four digits with slashes between them, white space, a variant
    number, then anything) is read by [normalize_obj_id_from_excel] as the
    canonical identifier and by [parse_object_number] of
    [copy_RelevantImages.py] as that identifier with a dash for base prefix,
    and the year. [parse_object_number] of [copy_images_from_excel.py] reads
    the same groups from it when only white space follows the variant. *)
Theorem documented_cell_is_read_alike (p y c w v rest : str) :
  number p -> digits 4 y -> digits 4 c -> w <> [] -> blank w -> number v ->
  let cell := p ++ "/"%char :: y ++ "/"%char :: c ++ w ++ v ++ rest in
  AutoDesc.normalize_obj_id_from_excel (Some cell) = Some (canonical p y c)
  /\ CopyRelevant.parse_object_number (Some cell)
     = Some (CopyRelevant.mkParsed (canonical p y c ++ lit "-") y)
  /\ (blank rest ->
      CopyExcel.parse_object_number (Some cell)
      = Some (p ++ "/"%char :: y ++ "/"%char :: c ++ w ++ v, p, y, c, v)).
Proof.
  intros Hp Hy Hc Hne Hw Hv. cbv zeta. split; [|split].
  - now apply normalize_documented.
  - now apply parse_documented.
  - intros Hrest. unfold CopyExcel.parse_object_number.
    replace (p ++ "/"%char :: y ++ "/"%char :: c ++ w ++ v ++ rest)
      with (p ++ ("/"%char :: y ++ "/"%char :: c ++ w) ++ v ++ rest)
      by (now repeat (rewrite <- ?app_assoc; cbn [app])).
    rewrite strip_documented by assumption.
    replace (p ++ ("/"%char :: y ++ "/"%char :: c ++ w) ++ v)
      with (p ++ "/"%char :: y ++ "/"%char :: c ++ w ++ v)
      by (now repeat (rewrite <- ?app_assoc; cbn [app])).
    rewrite object_regex_forward by assumption.
    destruct Hp as [Hpne _]. destruct p; [contradiction|]. reflexivity.
Qed.

(** X5 at a cell with a note after the variant number. *)
Lemma documented_cell_is_read_alike_witness :
  let cell := lit "1/1997/1063 0 und 2" in
  AutoDesc.normalize_obj_id_from_excel (Some cell) = Some (lit "1-1997-1063")
  /\ CopyRelevant.parse_object_number (Some cell)
     = Some (CopyRelevant.mkParsed (lit "1-1997-1063-") (lit "1997"))
  /\ (blank (lit " und 2") ->
      CopyExcel.parse_object_number (Some cell)
      = Some (lit "1/1997/1063 0", lit "1", lit "1997", lit "1063", lit "0")).
Proof.
  apply (documented_cell_is_read_alike (lit "1") (lit "1997") (lit "1063")
           (lit " ") (lit "0") (lit " und 2")); shape.
Defined.

(* ===================================================================== *)
(** * The groups of the index *)
(* ===================================================================== *)

Lemma unique_loop_head (seen : gset str) (f : Path) (l : list Path) :
  Str.lower (name f) ∉ seen -> AutoDesc.unique_loop seen (f :: l) <> [].
Proof.
  intros H. cbn [AutoDesc.unique_loop]. now rewrite bool_decide_eq_false_2.
Qed.

(** X6.  Every group of [collect_images_by_object] holds at least one file,
    so the images taken for an object (the first [MAX_IMAGES_PER_OBJECT])
    are never none; its key is a canonical identifier, and each of its files
    is an image file whose name begins with the key. *)
Theorem index_groups_are_populated (fs : filesystem) (dirs : list str)
    (obj_id : str) (imgs : list Path) :
  AutoDesc.collect_images_by_object fs dirs !! obj_id = Some imgs ->
  imgs <> []
  /\ take AutoDesc.MAX_IMAGES_PER_OBJECT imgs <> []
  /\ (exists p y c,
        number p /\ digits 4 y /\ digits 4 c /\ obj_id = canonical p y c)
  /\ Forall (fun f => AutoDesc.is_image_file f = true
                      /\ exists rest, name f = obj_id ++ rest) imgs.
Proof.
  intros Hlook.
  assert (forall f, f ∈ imgs -> belongs obj_id f = true) as Hall.
  { intros f Hf. apply (gathered_desc_belongs fs dirs).
    apply index_entry_gathered. unfold index_entry. now rewrite Hlook. }
  assert (imgs <> []) as Hne.
  { rewrite index_lookup in Hlook.
    destruct (gathered_desc fs dirs obj_id) as [|g l]; [discriminate|].
    injection Hlook as <-. intros Hnil.
    apply (unique_loop_head ∅ g l); [set_solver|].
    pose proof (sorted_by_perm key_leb AutoDesc.suffix_sort_key
                  (AutoDesc.unique_by_filename (g :: l))) as Hperm.
    rewrite Hnil in Hperm. now apply Permutation_nil in Hperm. }
  assert (forall f, f ∈ imgs ->
            AutoDesc.is_image_file f = true
            /\ exists p y c rest,
                 name f = canonical p y c ++ rest /\ number p /\ digits 4 y
                 /\ digits 4 c /\ obj_id = canonical p y c) as Hshape.
  { intros f Hf. specialize (Hall f Hf). unfold belongs in Hall.
    apply andb_true_iff in Hall as [[Hi He%bool_decide_eq_true]%andb_true_iff _].
    split; [assumption|]. now apply extract_accepted. }
  split; [assumption|]. split; [|split].
  - destruct imgs; [contradiction|discriminate].
  - destruct imgs as [|f imgs]; [contradiction|].
    destruct (Hshape f) as (_ & p & y & c & rest & _ & Hp & Hy & Hc & ->);
      [now left|].
    now exists p, y, c.
  - apply Forall_forall. intros f Hf.
    destruct (Hshape f Hf) as (Hi & p & y & c & rest & Hn & _ & _ & _ & ->).
    split; [assumption|now exists rest].
Qed.

(** X6 at the group of the two photos of the sample disk. *)
Lemma index_groups_are_populated_witness :
  [shot_000; shot_001] <> []
  /\ take AutoDesc.MAX_IMAGES_PER_OBJECT [shot_000; shot_001] <> []
  /\ (exists p y c,
        number p /\ digits 4 y /\ digits 4 c
        /\ lit "1-1997-0457" = canonical p y c)
  /\ Forall (fun f => AutoDesc.is_image_file f = true
                      /\ exists rest, name f = lit "1-1997-0457" ++ rest)
            [shot_000; shot_001].
Proof.
  apply (index_groups_are_populated fs_plain two_roots).
  vm_compute. reflexivity.
Defined.

(* ===================================================================== *)
(** * The rows of a sheet *)
(* ===================================================================== *)

Section FoldInsert.
Variable g : str -> str.

Lemma fold_insert_other (l : list (str * str)) (e0 : gmap str str) (f : str) :
  f ∉ l.*2 ->
  foldl (fun (e : gmap str str) '(k, fld) => <[ fld := g k ]> e) e0 l !! f
  = e0 !! f.
Proof.
  revert e0. induction l as [|[k' f'] l IH]; intros e0 Hf; [reflexivity|].
  cbn [foldl]. rewrite IH by set_solver.
  apply lookup_insert_ne. set_solver.
Qed.

Lemma fold_insert_lookup (l : list (str * str)) (e0 : gmap str str)
    (k f : str) :
  NoDup l.*2 -> (k, f) ∈ l ->
  foldl (fun (e : gmap str str) '(k, fld) => <[ fld := g k ]> e) e0 l !! f
  = Some (g k).
Proof.
  revert e0. induction l as [|[k' f'] l IH]; intros e0 Hnd Hin.
  - now apply elem_of_nil in Hin.
  - cbn [fmap list_fmap snd] in Hnd. apply NoDup_cons in Hnd as [Hf' Hnd].
    cbn [foldl]. apply elem_of_cons in Hin as [[= <- <-]|Hin].
    + rewrite fold_insert_other by assumption. apply lookup_insert_eq.
    + now apply IH.
Qed.
End FoldInsert.

Lemma excel_fields_nodup : NoDup AutoDesc.EXCEL_TO_FIELDS.*2.
Proof. apply (bool_decide_unpack _). vm_compute. reflexivity. Qed.

Lemma excel_fields_order : AutoDesc.EXCEL_TO_FIELDS.*2 = AutoDesc.FIELDS_ORDER.
Proof. reflexivity. Qed.

(** A cell that has an identifier is not blank, and not the sentinel. *)
Lemma normalized_cell_has_data (cell : option str) (id : str) :
  AutoDesc.normalize_obj_id_from_excel cell = Some id ->
  AutoDesc.safe_str cell <> AutoDesc.NO_DATA /\ id <> [].
Proof.
  intros H. split.
  - destruct cell as [v|]; [|discriminate].
    unfold AutoDesc.normalize_obj_id_from_excel in H.
    unfold AutoDesc.safe_str. intros Hs.
    destruct (Str.strip v) as [|a t] eqn:E; [discriminate|].
    rewrite Hs in H. vm_compute in H. discriminate.
  - destruct cell as [v|]; [|discriminate].
    apply normalize_accepted_spells in H as (p & y & c & Hs & ->).
    destruct Hs as (_ & _ & _ & _ & _ & _ & Hp & _). now apply canonical_nonempty.
Qed.

Lemma read_row_other (mapping : gmap str (gmap str str)) (row : gmap str str)
    (id : str) :
  AutoDesc.normalize_obj_id_from_excel (row !! lit "t1") <> Some id ->
  AutoDesc.read_row mapping row !! id = mapping !! id.
Proof.
  intros Hne. unfold AutoDesc.read_row.
  destruct (AutoDesc.normalize_obj_id_from_excel (row !! lit "t1"))
    as [[|a o]|]; try reflexivity.
  apply lookup_insert_ne. congruence.
Qed.

Lemma read_rows_other (rows : list (gmap str str)) (id : str) :
  (forall r, r ∈ rows ->
     AutoDesc.normalize_obj_id_from_excel (r !! lit "t1") <> Some id) ->
  forall mapping,
    foldl AutoDesc.read_row mapping rows !! id = mapping !! id.
Proof.
  induction rows as [|r rows IH]; intros Hall mapping; [reflexivity|].
  cbn [foldl]. rewrite IH by (intros r' Hr'; apply Hall; now right).
  apply read_row_other, Hall. now left.
Qed.

(** X7.  In [read_metadata_excel] the entry of an identifier comes from the
    last row of the sheet whose [t1] cell reads as it: each field holds
    [safe_str] of that row's cell under the header mapped to the field, the
    entry has exactly the fields of [FIELDS_ORDER], and its inventory number
    is not the sentinel. *)
Theorem sheet_entry_is_the_last_row (rows1 rows2 : list (gmap str str))
    (row : gmap str str) (id : str) :
  AutoDesc.normalize_obj_id_from_excel (row !! lit "t1") = Some id ->
  (forall r, r ∈ rows2 ->
     AutoDesc.normalize_obj_id_from_excel (r !! lit "t1") <> Some id) ->
  exists entry,
    AutoDesc.read_metadata_excel (Some (rows1 ++ row :: rows2)) !! id
      = Some entry
    /\ (forall excel_key field,
          (excel_key, field) ∈ AutoDesc.EXCEL_TO_FIELDS ->
          entry !! field = Some (AutoDesc.safe_str (row !! excel_key)))
    /\ (forall field,
          is_Some (entry !! field) <-> field ∈ AutoDesc.FIELDS_ORDER)
    /\ entry !! lit "InventoryNo" <> Some AutoDesc.NO_DATA.
Proof.
  intros Hid Hrest.
  destruct (normalized_cell_has_data _ _ Hid) as [Hdata Hne].
  unfold AutoDesc.read_metadata_excel.
  rewrite foldl_app. cbn [foldl]. rewrite read_rows_other by assumption.
  unfold AutoDesc.read_row at 1. rewrite Hid.
  destruct id as [|a id]; [contradiction|].
  set (entry := foldl _ ∅ AutoDesc.EXCEL_TO_FIELDS).
  assert (forall excel_key field,
            (excel_key, field) ∈ AutoDesc.EXCEL_TO_FIELDS ->
            entry !! field = Some (AutoDesc.safe_str (row !! excel_key)))
    as Hfields.
  { intros k f Hin. subst entry.
    apply (fold_insert_lookup (fun k => AutoDesc.safe_str (row !! k)));
      [apply excel_fields_nodup|assumption]. }
  assert (entry !! lit "InventoryNo"
          = Some (AutoDesc.safe_str (row !! lit "t1"))) as Hinv.
  { apply Hfields. unfold AutoDesc.EXCEL_TO_FIELDS. now left. }
  rewrite bool_decide_eq_false_2 by (rewrite Hinv; congruence).
  rewrite lookup_insert_eq. exists entry.
  split; [reflexivity|]. split; [assumption|]. split.
  - intros field. rewrite <- excel_fields_order. split.
    + intros Hsome. destruct (decide (field ∈ AutoDesc.EXCEL_TO_FIELDS.*2))
        as [Hin|Hout]; [assumption|].
      subst entry.
      rewrite (fold_insert_other (fun k => AutoDesc.safe_str (row !! k)))
        in Hsome by assumption.
      rewrite lookup_empty in Hsome. now destruct Hsome.
    + intros ([k f] & -> & Hin)%list_elem_of_fmap.
      cbn [snd]. rewrite (Hfields k f Hin). now eexists.
  - rewrite Hinv. congruence.
Qed.

(** X7 at a sheet that lists the object twice. *)
Lemma sheet_entry_is_the_last_row_witness :
  exists entry,
    AutoDesc.read_metadata_excel (Some ([row_early] ++ row_late :: [row_other]))
      !! lit "1-1997-0457" = Some entry
    /\ (forall excel_key field,
          (excel_key, field) ∈ AutoDesc.EXCEL_TO_FIELDS ->
          entry !! field = Some (AutoDesc.safe_str (row_late !! excel_key)))
    /\ (forall field,
          is_Some (entry !! field) <-> field ∈ AutoDesc.FIELDS_ORDER)
    /\ entry !! lit "InventoryNo" <> Some AutoDesc.NO_DATA.
Proof.
  apply (sheet_entry_is_the_last_row [row_early] [row_other] row_late
           (lit "1-1997-0457")).
  - vm_compute. reflexivity.
  - intros r ->%list_elem_of_singleton. vm_compute. discriminate.
Defined.

(* ===================================================================== *)
(** * The requests of a run *)
(* ===================================================================== *)

Lemma retry_loop_calls_pos (left : nat) (wait : float) (c : AutoDesc.content)
    (w : AutoDesc.world) :
  (S (AutoDesc.calls w)
   <= AutoDesc.calls (AutoDesc.retry_loop (S left) wait c w).2)%nat.
Proof.
  cbn [AutoDesc.retry_loop AutoDesc.create].
  destruct (AutoDesc.api w (AutoDesc.calls w) c) as [text|msg]; [cbn; lia|].
  destruct (AutoDesc.is_rate_limit msg);
    [|destruct (AutoDesc.is_server_error msg)];
    cbn [AutoDesc.uniform];
    try match goal with
      | |- context [AutoDesc.retry_loop left ?wt c ?w1] =>
          pose proof (retry_loop_calls left wt c w1) as Hle;
          change (AutoDesc.calls w1) with (S (AutoDesc.calls w)) in Hle;
          lia
      end.
  cbn. lia.
Qed.

Lemma describe_object_calls (obj_id : str) (imgs : list Path)
    (meta : gmap str str) (w : AutoDesc.world) :
  (S (AutoDesc.calls w)
   <= AutoDesc.calls (AutoDesc.describe_object obj_id imgs meta w).2
   <= AutoDesc.calls w + AutoDesc.MAX_RETRIES)%nat.
Proof.
  unfold AutoDesc.describe_object, AutoDesc.call_openai_with_retry. split.
  - apply retry_loop_calls_pos.
  - apply retry_loop_calls.
Qed.

Section Budget.
Variable groups : gmap str (list Path).
Variable md_maps : list (gmap str (gmap str str)).

Lemma run_loop_budget (objs : list str) :
  forall st,
    let st' := AutoDesc.run_loop groups md_maps objs st in
    let n := (AutoDesc.processed_this_run st'
              - AutoDesc.processed_this_run st)%nat in
    (AutoDesc.processed_this_run st <= AutoDesc.processed_this_run st')%nat
    /\ (AutoDesc.processed_this_run st <= AutoDesc.BATCH_LIMIT ->
        AutoDesc.processed_this_run st' <= AutoDesc.BATCH_LIMIT)%nat
    /\ (AutoDesc.calls (AutoDesc.the_world st) + n
        <= AutoDesc.calls (AutoDesc.the_world st')
        <= AutoDesc.calls (AutoDesc.the_world st) + AutoDesc.MAX_RETRIES * n)%nat.
Proof.
  induction objs as [|obj objs IH]; intros st; cbv zeta.
  - cbn [AutoDesc.run_loop]. lia.
  - cbn [AutoDesc.run_loop].
    case_bool_decide as Hdone; [apply IH|].
    destruct (Nat.leb_spec AutoDesc.BATCH_LIMIT
                (AutoDesc.processed_this_run st)) as [Hfull|Hroom]; [lia|].
    specialize (IH (AutoDesc.process groups md_maps obj st)). cbv zeta in IH.
    revert IH. rewrite process_eq. cbv zeta.
    set (r := AutoDesc.describe_object _ _ _ _).
    pose proof (describe_object_calls obj (default [] (groups !! obj))
                  (AutoDesc.build_metadata_for_object obj md_maps)
                  (AutoDesc.the_world st)) as Hr.
    fold r in Hr.
    set (st1 := AutoDesc.mkState _ _ _ _ _).
    cbn [AutoDesc.processed_this_run AutoDesc.the_world st1].
    unfold AutoDesc.MAX_RETRIES, AutoDesc.BATCH_LIMIT in *. lia.
Qed.
End Budget.

(** X8.  A run of [main] describes at most [BATCH_LIMIT] objects and makes,
    for each object it describes, at least one request and at most
    [MAX_RETRIES]: never more than [MAX_RETRIES * BATCH_LIMIT] in all. *)
Theorem run_request_budget (groups : gmap str (list Path))
    (md_maps : list (gmap str (gmap str str)))
    (saved : option (list AutoDesc.row)) (w : AutoDesc.world) :
  let st := AutoDesc.main groups md_maps saved w in
  let n := AutoDesc.processed_this_run st in
  (n <= AutoDesc.BATCH_LIMIT)%nat
  /\ (AutoDesc.calls w + n <= AutoDesc.calls (AutoDesc.the_world st)
      <= AutoDesc.calls w + AutoDesc.MAX_RETRIES * n)%nat
  /\ (AutoDesc.calls (AutoDesc.the_world st)
      <= AutoDesc.calls w + AutoDesc.MAX_RETRIES * AutoDesc.BATCH_LIMIT)%nat.
Proof.
  cbv zeta. unfold AutoDesc.main.
  assert (AutoDesc.processed_this_run (AutoDesc.resume saved w) = 0%nat
          /\ AutoDesc.the_world (AutoDesc.resume saved w) = w) as [H0 Hw]
    by (now destruct saved).
  case_bool_decide as Hempty.
  - rewrite H0, Hw. unfold AutoDesc.MAX_RETRIES, AutoDesc.BATCH_LIMIT. lia.
  - pose proof (run_loop_budget groups md_maps (AutoDesc.all_objs groups)
                  (AutoDesc.resume saved w)) as H.
    cbv zeta in H. rewrite H0, Hw in H.
    unfold AutoDesc.MAX_RETRIES, AutoDesc.BATCH_LIMIT in *. lia.
Qed.

Lemma run_loop_all_done (groups : gmap str (list Path))
    (md_maps : list (gmap str (gmap str str))) (objs : list str)
    (st : AutoDesc.run_state) :
  Forall (fun o => o ∈ AutoDesc.done st) objs ->
  AutoDesc.run_loop groups md_maps objs st = st.
Proof.
  induction 1 as [|o objs Ho _ IH]; [reflexivity|].
  cbn [AutoDesc.run_loop]. now rewrite bool_decide_eq_true_2.
Qed.

(** X9.  When every object of the index is in the result store, [main] makes
    no request, describes nothing, and leaves the store and its rows as they
    are. *)
Theorem finished_run_is_silent (groups : gmap str (list Path))
    (md_maps : list (gmap str (gmap str str)))
    (saved : option (list AutoDesc.row)) (w : AutoDesc.world) :
  (forall o, is_Some (groups !! o) -> o ∈ AutoDesc.done_of (stored saved)) ->
  let st := AutoDesc.main groups md_maps saved w in
  AutoDesc.the_world st = w
  /\ AutoDesc.store st = saved
  /\ AutoDesc.rows st = stored saved
  /\ AutoDesc.processed_this_run st = 0%nat.
Proof.
  intros Hdone. cbv zeta.
  assert (AutoDesc.main groups md_maps saved w = AutoDesc.resume saved w) as ->.
  { unfold AutoDesc.main. case_bool_decide; [reflexivity|].
    apply run_loop_all_done, Forall_forall. intros o Ho%all_objs_elem.
    destruct (resume_state saved w) as (_ & -> & _). now apply Hdone. }
  now destruct saved.
Qed.

(** X9 at an index of one object that the store has, with white space around
    its identifier. *)
Lemma finished_run_is_silent_witness :
  let st := AutoDesc.main one_group [] (Some store_with_it) refusing_world in
  AutoDesc.the_world st = refusing_world
  /\ AutoDesc.store st = Some store_with_it
  /\ AutoDesc.rows st = stored (Some store_with_it)
  /\ AutoDesc.processed_this_run st = 0%nat.
Proof.
  apply (finished_run_is_silent one_group [] (Some store_with_it)
           refusing_world).
  intros o [imgs Ho]. unfold one_group in Ho.
  apply lookup_singleton_Some in Ho as [<- _].
  apply (bool_decide_unpack _). vm_compute. reflexivity.
Defined.

(* ===================================================================== *)
(** * The prompt *)
(* ===================================================================== *)

Section ReplaceFacts.
Context {C : Type} `{EqDecision C}.
Implicit Types old new s x : list C.

Lemma text_startswith_spec old s :
  Text.startswith old s = true <-> exists rest, s = old ++ rest.
Proof.
  revert s. induction old as [|a old IH]; intros s; simpl.
  - split; [intros _; now exists s|reflexivity].
  - destruct s as [|b s]; [split; [discriminate|intros [? ?]; discriminate]|].
    rewrite andb_true_iff, IH, bool_decide_eq_true. split.
    + intros [-> [rest ->]]. now exists rest.
    + intros [rest [= -> ->]]. split; [reflexivity|now exists rest].
Qed.

Lemma replace_go_skip old new x s :
  Text.replace_go old new (length x) (x ++ s) = Text.replace_go old new 0 s.
Proof.
  induction x as [|a x IH]; [reflexivity|]. exact IH.
Qed.

Lemma replace_go_hit o old new s :
  Text.replace_go (o :: old) new 0 ((o :: old) ++ s)
  = new ++ Text.replace_go (o :: old) new 0 s.
Proof.
  cbn [app Text.replace_go].
  assert (Text.startswith (o :: old) (o :: old ++ s) = true) as ->
    by (apply text_startswith_spec; now exists s).
  cbn [length]. replace (S (length old) - 1)%nat with (length old) by lia.
  now rewrite replace_go_skip.
Qed.

Lemma replace_go_miss old new a s :
  Text.startswith old (a :: s) = false ->
  Text.replace_go old new 0 (a :: s) = a :: Text.replace_go old new 0 s.
Proof. intros H. cbn [Text.replace_go]. now rewrite H. Qed.

(** Characters other than the first of [old] are passed as they are. *)
Lemma replace_go_pass o old new x s :
  Forall (fun a => a <> o) x ->
  Text.replace_go (o :: old) new 0 (x ++ s)
  = x ++ Text.replace_go (o :: old) new 0 s.
Proof.
  induction 1 as [|a x Ha Hx IH]; [reflexivity|].
  cbn [app]. rewrite replace_go_miss; [now rewrite IH|].
  cbn [Text.startswith]. now rewrite bool_decide_eq_false_2 by congruence.
Qed.

Lemma replace_go_absent old new s :
  (forall pre post, s <> pre ++ old ++ post) ->
  Text.replace_go old new 0 s = s.
Proof.
  induction s as [|a s IH]; intros Hno; [reflexivity|].
  rewrite replace_go_miss.
  - rewrite IH; [reflexivity|]. intros pre post ->.
    now apply (Hno (a :: pre) post).
  - destruct (Text.startswith old (a :: s)) eqn:E; [|reflexivity].
    apply text_startswith_spec in E as [rest E].
    now destruct (Hno [] rest).
Qed.
End ReplaceFacts.

Lemma has_spec (c : N) (s : text) : has c s = false <-> Forall (fun a => a <> c) s.
Proof.
  unfold has. induction s as [|a s IH]; simpl.
  - split; [constructor|reflexivity].
  - rewrite orb_false_iff, IH, Forall_cons, N.eqb_neq. intuition congruence.
Qed.

Lemma placeholder_eq (k : str) :
  AutoDesc.placeholder k = OPEN :: widen k ++ [CLOSE].
Proof.
  unfold AutoDesc.placeholder, widen. cbn [lit list_ascii_of_string app map].
  now rewrite map_app.
Qed.

(** Two bracketed words, one at the head of the other: the same word. *)
Lemma word_prefix (k w rest : text) :
  has CLOSE k = false -> has CLOSE w = false ->
  Text.startswith (k ++ [CLOSE]) (w ++ CLOSE :: rest) = true -> w = k.
Proof.
  revert w. induction k as [|a k IH]; intros w Hk Hw.
  - destruct w as [|b w]; [reflexivity|]. simpl.
    rewrite andb_true_r. intros Hb%bool_decide_eq_true. subst b.
    simpl in Hw. discriminate.
  - destruct w as [|b w]; simpl.
    + intros [Ha%bool_decide_eq_true _]%andb_true_iff. subst a.
      simpl in Hk. discriminate.
    + intros [Ha%bool_decide_eq_true Hs]%andb_true_iff. subst b.
      simpl in Hk, Hw. apply orb_false_iff in Hk as [_ Hk].
      apply orb_false_iff in Hw as [_ Hw]. f_equal. now apply IH.
Qed.

Lemma replace_pass (k v : text) (pcs : list piece) :
  has CLOSE k = false ->
  Forall (fun pc => well_formed pc = true) pcs ->
  Text.replace_go (OPEN :: k ++ [CLOSE]) v 0 (render pcs)
  = render (map (pass k v) pcs).
Proof.
  intros Hk. unfold render.
  induction 1 as [|pc pcs Hpc Hpcs IH]; [reflexivity|].
  cbn [map concat]. destruct pc as [s|w]; cbn [written pass well_formed] in *.
  - apply negb_true_iff, has_spec in Hpc.
    rewrite replace_go_pass by assumption. now rewrite IH.
  - apply andb_true_iff in Hpc as [Ho%negb_true_iff Hc%negb_true_iff].
    case_bool_decide as Hw.
    + subst w. cbn [written].
      change ((OPEN :: k ++ [CLOSE]) ++ concat (map written pcs))
        with ((OPEN :: (k ++ [CLOSE])) ++ concat (map written pcs)).
      rewrite replace_go_hit. now rewrite IH.
    + cbn [written app].
      rewrite replace_go_miss.
      * f_equal.
        rewrite (replace_go_pass OPEN (k ++ [CLOSE]) v (w ++ [CLOSE])).
        -- now rewrite IH.
        -- apply Forall_app. split; [now apply has_spec|].
           constructor; [discriminate|constructor].
      * cbn [Text.startswith]. rewrite bool_decide_eq_true_2 by reflexivity.
        cbn [andb]. rewrite <- app_assoc. cbn [app].
        destruct (Text.startswith (k ++ [CLOSE])
                    (w ++ CLOSE :: concat (map written pcs))) eqn:E;
          [|reflexivity].
        now apply word_prefix in E.
Qed.

Lemma pass_well_formed (k v : text) (pcs : list piece) :
  has OPEN v = false ->
  Forall (fun pc => well_formed pc = true) pcs ->
  Forall (fun pc => well_formed pc = true) (map (pass k v) pcs).
Proof.
  intros Hv H. apply Forall_map. eapply Forall_impl; [exact H|].
  intros [s|w] Hpc; cbn [pass]; [assumption|].
  case_bool_decide; [|assumption]. cbn [well_formed]. now rewrite Hv.
Qed.

Lemma fill_passes (meta : gmap str str) (ks : list str) :
  Forall (fun k => has CLOSE (widen k) = false) ks ->
  Forall (fun k => has OPEN (value_of meta k) = false) ks ->
  forall pcs,
    Forall (fun pc => well_formed pc = true) pcs ->
    foldl (fun txt k =>
             Text.replace (AutoDesc.placeholder k)
               (widen (default AutoDesc.NO_DATA (meta !! k))) txt)
          (render pcs) ks
    = concat (map (filled_by meta ks) pcs).
Proof.
  intros Hks Hvs. induction ks as [|k ks IH]; intros pcs Hpcs.
  - cbn [foldl]. unfold render. f_equal. apply map_ext_in.
    now intros [s|w] _.
  - apply Forall_cons in Hks as [Hk Hks]. apply Forall_cons in Hvs as [Hv Hvs].
    cbn [foldl]. rewrite placeholder_eq. unfold Text.replace.
    fold (value_of meta k).
    rewrite replace_pass by assumption.
    rewrite (IH Hks Hvs) by (now apply pass_well_formed).
    rewrite map_map. f_equal. apply map_ext_in. intros [s|w] _; [reflexivity|].
    cbn [pass filled_by List.find].
    destruct (decide (w = widen k)) as [->|Hne].
    + now rewrite !bool_decide_eq_true_2.
    + rewrite bool_decide_eq_false_2 by assumption.
      now rewrite bool_decide_eq_false_2 by congruence.
Qed.

Lemma fields_without_brackets :
  Forall (fun k => has CLOSE (widen k) = false) AutoDesc.FIELDS_ORDER.
Proof. repeat constructor. Qed.

(** X10.  On a template made of plain text without an opening bracket and of
    bracketed words, [fill_prompt] puts the value of the field (or [No
    Data], when the metadata lack it) in the place of every bracketed word
    that is a field of [FIELDS_ORDER], and leaves the rest as it is, the
    other bracketed words included, provided that no value holds an opening
    bracket. *)
Theorem fill_prompt_fills_the_placeholders (pcs : list piece)
    (meta : gmap str str) :
  Forall (fun pc => well_formed pc = true) pcs ->
  Forall (fun k => has OPEN (value_of meta k) = false) AutoDesc.FIELDS_ORDER ->
  AutoDesc.fill_prompt (concat (map written pcs)) meta
  = concat (map (filled meta) pcs).
Proof.
  intros Hpcs Hvs. unfold AutoDesc.fill_prompt.
  apply (fill_passes meta AutoDesc.FIELDS_ORDER fields_without_brackets Hvs pcs Hpcs).
Qed.

(** X10 at a template with two fields and a bracketed word that is none. *)
Lemma fill_prompt_fills_the_placeholders_witness :
  AutoDesc.fill_prompt
    (widen (lit "Object [InventoryNo], made of [Materials][unknown]"))
    sample_meta
  = widen (lit "Object 1-1997-0457, made of steel[unknown]").
Proof.
  apply (fill_prompt_fills_the_placeholders sample_pieces sample_meta).
  - repeat constructor.
  - repeat constructor.
Defined.

(** X11.  [fill_prompt] returns a template in which no placeholder of a
    field occurs as it is, whatever the metadata. *)
Theorem fill_prompt_without_placeholders (template : text)
    (meta : gmap str str) :
  (forall k, k ∈ AutoDesc.FIELDS_ORDER ->
     ~ occurs (AutoDesc.placeholder k) template) ->
  AutoDesc.fill_prompt template meta = template.
Proof.
  unfold AutoDesc.fill_prompt. induction AutoDesc.FIELDS_ORDER as [|k ks IH];
    intros Hno; [reflexivity|].
  cbn [foldl].
  assert (Text.replace (AutoDesc.placeholder k)
            (widen (default AutoDesc.NO_DATA (meta !! k))) template
          = template) as ->.
  { rewrite placeholder_eq. unfold Text.replace.
    apply replace_go_absent. intros pre post E.
    apply (Hno k); [now left|]. rewrite placeholder_eq. now exists pre, post. }
  apply IH. intros k' Hk'. apply Hno. now right.
Qed.

(** X11 at a template without brackets. *)
Lemma fill_prompt_without_placeholders_witness :
  AutoDesc.fill_prompt (widen (lit "Describe the object (no fields).")) sample_meta
  = widen (lit "Describe the object (no fields).").
Proof.
  apply (fill_prompt_without_placeholders
           (widen (lit "Describe the object (no fields).")) sample_meta).
  intros k _ (pre & post & E). rewrite placeholder_eq in E.
  assert (has OPEN (widen (lit "Describe the object (no fields).")) = false)
    as H by reflexivity.
  apply has_spec in H. rewrite E in H. apply Forall_app in H as [_ H].
  inversion H. congruence.
Defined.

(* ===================================================================== *)
(** * The images of the message *)
(* ===================================================================== *)

Lemma mime_of_allowed (ext : str) :
  ext ∈ ALLOWED_EXTS -> AutoDesc.mime_of ext ∈ IMAGE_TYPES.
Proof.
  unfold ALLOWED_EXTS. intros H.
  repeat (apply elem_of_cons in H as [->|H];
          [vm_compute; set_solver|]).
  now apply elem_of_nil in H.
Qed.

Section ImageFacts.
Variable read_bytes : Path -> option AutoDesc.bytes.
Variable PIL : option AutoDesc.pillow.
Variable b64encode : AutoDesc.bytes -> str.

Lemma load_cases (p : Path) :
  match AutoDesc.load_and_optionally_resize read_bytes PIL p with
  | None => read_bytes p = None
  | Some (mime, data) =>
      exists raw,
        read_bytes p = Some raw
        /\ ((mime = AutoDesc.mime_of (Str.lower (suffix p)) /\ data = raw)
            \/ (mime = lit "image/jpeg"
                /\ exists pil w h,
                     PIL = Some pil /\ AutoDesc.open_rgb pil p = Some (w, h)
                     /\ AutoDesc.save_jpeg pil p (AutoDesc.new_size w h)
                        = Some data))
  end.
Proof.
  unfold AutoDesc.load_and_optionally_resize.
  destruct (read_bytes p) as [raw|]; [|reflexivity].
  destruct PIL as [pil|]; [|exists raw; split; [reflexivity|now left]].
  destruct (AutoDesc.open_rgb pil p) as [[w h]|] eqn:Eo;
    [|exists raw; split; [reflexivity|now left]].
  destruct (AutoDesc.save_jpeg pil p (AutoDesc.new_size w h)) as [data|] eqn:Es;
    [|exists raw; split; [reflexivity|now left]].
  exists raw. split; [reflexivity|]. right. split; [reflexivity|].
  now exists pil, w, h.
Qed.

Lemma build_content_acc (content : list AutoDesc.item) (paths : list Path) :
  foldl (fun content p =>
           match AutoDesc.load_and_optionally_resize read_bytes PIL p with
           | Some (mime, data) =>
               content
                 ++ [AutoDesc.ImageUrl (lit "data:" ++ mime ++ lit ";base64,"
                                          ++ b64encode data)]
           | None => content
           end)
        content paths
  = content
      ++ map AutoDesc.ImageUrl
           (map (data_url b64encode)
              (omap (AutoDesc.load_and_optionally_resize read_bytes PIL) paths)).
Proof.
  revert content. induction paths as [|p paths IH]; intros content.
  - cbn. now rewrite app_nil_r.
  - cbn [foldl]. rewrite IH.
    change (omap (AutoDesc.load_and_optionally_resize read_bytes PIL)
              (p :: paths))
      with (match AutoDesc.load_and_optionally_resize read_bytes PIL p with
            | Some y =>
                y :: omap (AutoDesc.load_and_optionally_resize read_bytes PIL)
                       paths
            | None =>
                omap (AutoDesc.load_and_optionally_resize read_bytes PIL) paths
            end).
    destruct (AutoDesc.load_and_optionally_resize read_bytes PIL p)
      as [[mime data]|]; [|reflexivity].
    cbn [map]. now rewrite <- app_assoc.
Qed.
Lemma load_image_type (p : Path) (mime : str) (data : AutoDesc.bytes) :
  AutoDesc.load_and_optionally_resize read_bytes PIL p = Some (mime, data) ->
  AutoDesc.is_image_file p = true -> mime ∈ IMAGE_TYPES.
Proof.
  intros Hl Hi. pose proof (load_cases p) as H. rewrite Hl in H.
  destruct H as (raw & _ & H).
  unfold AutoDesc.is_image_file in Hi.
  apply andb_true_iff in Hi as [_ He%bool_decide_eq_true].
  destruct H as [[-> _]|[-> _]]; [now apply mime_of_allowed|].
  unfold IMAGE_TYPES. now left.
Qed.

Lemma omap_load_cons (p : Path) (l : list Path) :
  omap (AutoDesc.load_and_optionally_resize read_bytes PIL) (p :: l)
  = match AutoDesc.load_and_optionally_resize read_bytes PIL p with
    | Some y =>
        y :: omap (AutoDesc.load_and_optionally_resize read_bytes PIL) l
    | None => omap (AutoDesc.load_and_optionally_resize read_bytes PIL) l
    end.
Proof. reflexivity. Qed.

Lemma loaded_count (l : list Path) :
  length (omap (AutoDesc.load_and_optionally_resize read_bytes PIL) l)
  = length (List.filter (fun p => bool_decide (read_bytes p <> None)) l).
Proof.
  induction l as [|p l IH]; [reflexivity|].
  rewrite omap_load_cons. cbn [List.filter].
  pose proof (load_cases p) as H.
  destruct (AutoDesc.load_and_optionally_resize read_bytes PIL p)
    as [[mime data]|].
  - destruct H as (raw & -> & _).
    rewrite bool_decide_eq_true_2 by discriminate. cbn [length]. now f_equal.
  - rewrite H. now rewrite bool_decide_eq_false_2 by (intros E; now apply E).
Qed.
End ImageFacts.

(** X12.  [load_and_optionally_resize] raises only when the file cannot be
    read.  For a file that can be read it returns the type of the
    extension with the bytes of the file when there is no Pillow, when
    Pillow cannot open the file and when Pillow cannot save it; and
    [image/jpeg] with the bytes Pillow saved, after the resize to the new
    size, when Pillow opens and saves it.  So what it returns is the type
    of the extension with the raw bytes, or a JPEG that Pillow wrote, and
    nothing else; for an image file the type is one of the four image
    types. *)
Theorem load_fails_only_on_unreadable_files
    (read_bytes : Path -> option AutoDesc.bytes)
    (PIL : option AutoDesc.pillow) (p : Path) :
  let loaded := AutoDesc.load_and_optionally_resize read_bytes PIL p in
  let by_extension := AutoDesc.mime_of (Str.lower (suffix p)) in
  (loaded = None <-> read_bytes p = None)
  /\ (forall raw,
        read_bytes p = Some raw ->
        (PIL = None -> loaded = Some (by_extension, raw))
        /\ (forall pil,
              PIL = Some pil ->
              (AutoDesc.open_rgb pil p = None ->
               loaded = Some (by_extension, raw))
              /\ (forall w h,
                    AutoDesc.open_rgb pil p = Some (w, h) ->
                    match AutoDesc.save_jpeg pil p (AutoDesc.new_size w h) with
                    | Some data => loaded = Some (lit "image/jpeg", data)
                    | None => loaded = Some (by_extension, raw)
                    end)))
  /\ (forall mime data,
        loaded = Some (mime, data) ->
        (AutoDesc.is_image_file p = true -> mime ∈ IMAGE_TYPES)
        /\ (PIL = None -> mime = by_extension /\ read_bytes p = Some data)
        /\ ((mime = by_extension /\ read_bytes p = Some data)
            \/ (mime = lit "image/jpeg"
                /\ exists pil w h,
                     PIL = Some pil
                     /\ AutoDesc.open_rgb pil p = Some (w, h)
                     /\ AutoDesc.save_jpeg pil p (AutoDesc.new_size w h)
                        = Some data))).
Proof.
  cbv zeta. split; [|split].
  - pose proof (load_cases read_bytes PIL p) as H.
    destruct (AutoDesc.load_and_optionally_resize read_bytes PIL p)
      as [[mime data]|].
    + destruct H as (raw & Hraw & _). split; [discriminate|congruence].
    + now split.
  - intros raw Hraw. unfold AutoDesc.load_and_optionally_resize.
    rewrite Hraw. split.
    + now intros ->.
    + intros pil ->. split.
      * now intros ->.
      * intros w h ->.
        now destruct (AutoDesc.save_jpeg pil p (AutoDesc.new_size w h)).
  - intros mime data Hl.
    pose proof (load_cases read_bytes PIL p) as H. rewrite Hl in H.
    destruct H as (raw & Hraw & H). split; [|split].
    + intros Hi. exact (load_image_type read_bytes PIL p mime data Hl Hi).
    + intros HP. destruct H as [[-> ->]|(_ & pil & w & h & HP' & _)];
        [now split|congruence].
    + destruct H as [[-> ->]|[-> H]]; [left; now split|right; now split].
Qed.

(** X13.  The content sent for an object is the filled prompt followed by
    one data URL for each of the first [MAX_IMAGES_PER_OBJECT] images that
    can be read, in their order: an unreadable image is left out and stops
    nothing. For image files the URLs carry one of the four image types. *)
Theorem message_holds_the_prompt_and_the_readable_images
    (read_bytes : Path -> option AutoDesc.bytes)
    (PIL : option AutoDesc.pillow) (b64encode : AutoDesc.bytes -> str)
    (template : text) (image_paths : list Path) (meta : gmap str str) :
  let selected := take AutoDesc.MAX_IMAGES_PER_OBJECT image_paths in
  let loaded :=
    omap (AutoDesc.load_and_optionally_resize read_bytes PIL) selected in
  AutoDesc.message_for read_bytes PIL b64encode template image_paths meta
  = AutoDesc.TextItem (AutoDesc.fill_prompt template meta)
      :: map AutoDesc.ImageUrl (map (data_url b64encode) loaded)
  /\ (length loaded <= AutoDesc.MAX_IMAGES_PER_OBJECT)%nat
  /\ length loaded
     = length (List.filter (fun p => bool_decide (read_bytes p <> None))
                           selected)
  /\ (Forall (fun p => AutoDesc.is_image_file p = true) image_paths ->
      Forall (fun l => l.1 ∈ IMAGE_TYPES) loaded).
Proof.
  cbv zeta. split; [|split; [|split]].
  - unfold AutoDesc.message_for, AutoDesc.build_message_content.
    now rewrite build_content_acc.
  - rewrite loaded_count.
    etransitivity; [apply filter_length_le|apply firstn_le_length].
  - apply loaded_count.
  - intros Himg. apply Forall_forall. intros [mime data] Hin.
    apply list_elem_of_omap in Hin as (p & Hp & Hl).
    apply elem_of_take in Hp as (i & Hp & _).
    apply list_elem_of_lookup_2 in Hp.
    rewrite Forall_forall in Himg. cbn [fst].
    eapply load_image_type; [exact Hl|now apply Himg].
Qed.

(* ===================================================================== *)
(** * Numbers as strings *)
(* ===================================================================== *)

Lemma of_nat_inj (m n : nat) : Str.of_nat m = Str.of_nat n -> m = n.
Proof.
  unfold Str.of_nat. intros H.
  apply (f_equal string_of_list_ascii) in H.
  rewrite !string_of_list_ascii_of_string in H.
  apply (f_equal NilEmpty.uint_of_string) in H.
  rewrite !NilEmpty.usu in H. injection H as H.
  apply (f_equal Nat.of_uint) in H. now rewrite !Unsigned.of_to in H.
Qed.

Lemma uint_digits (d : Decimal.uint) :
  Forall (fun a => Str.is_digit a = true)
         (list_ascii_of_string (NilEmpty.string_of_uint d)).
Proof.
  induction d; cbn [NilEmpty.string_of_uint list_ascii_of_string];
    constructor; try assumption; reflexivity.
Qed.

Lemma of_nat_digits (n : nat) :
  Forall (fun a => Str.is_digit a = true) (Str.of_nat n).
Proof. apply uint_digits. Qed.

Lemma digit_lower (a : ascii) : Str.is_digit a = true -> Str.lower_char a = a.
Proof.
  destruct a as [[] [] [] [] [] [] [] []]; try reflexivity; discriminate.
Qed.

Lemma lower_digits (s : str) :
  Forall (fun a => Str.is_digit a = true) s -> Str.lower s = s.
Proof.
  induction 1 as [|a s Ha Hs IH]; [reflexivity|].
  cbn [Str.lower map]. rewrite digit_lower by assumption. f_equal. exact IH.
Qed.

Lemma lower_app (s t : str) : Str.lower (s ++ t) = Str.lower s ++ Str.lower t.
Proof. apply map_app. Qed.

Lemma lower_numbered_inj (stm suf : str) (m n : nat) :
  Str.lower (numbered stm suf m) = Str.lower (numbered stm suf n) -> m = n.
Proof.
  unfold numbered. rewrite !lower_app.
  rewrite !(lower_digits (Str.of_nat _)) by apply of_nat_digits.
  intros H. apply app_inv_head in H. apply app_inv_head in H.
  apply app_inv_tail in H. now apply of_nat_inj.
Qed.

Lemma numbered_inj (stm suf : str) (m n : nat) :
  numbered stm suf m = numbered stm suf n -> m = n.
Proof. intros H. apply (lower_numbered_inj stm suf). now rewrite H. Qed.

(* ===================================================================== *)
(** * The renaming loop *)
(* ===================================================================== *)

Section FreeName.
Variables stm suf : str.

Lemma free_name_unfold (fuel : nat) (outputs files : gset str) (n : nat)
    (final : str) :
  CopyRelevant.free_name fuel outputs files stm suf n final
  = if CopyRelevant.taken outputs files final then
      match fuel with
      | O => None
      | S fuel' =>
          CopyRelevant.free_name fuel' outputs files stm suf (S n)
            (numbered stm suf n)
      end
    else Some final.
Proof. now destruct fuel. Qed.

(** The loop looks at the names from the n-th on only. *)
Lemma free_name_ext (O1 F1 O2 F2 : gset str) (fuel : nat) :
  forall n,
    (forall m, (n <= m)%nat ->
       CopyRelevant.taken O1 F1 (numbered stm suf m)
       = CopyRelevant.taken O2 F2 (numbered stm suf m)) ->
    CopyRelevant.free_name fuel O1 F1 stm suf (S n) (numbered stm suf n)
    = CopyRelevant.free_name fuel O2 F2 stm suf (S n) (numbered stm suf n).
Proof.
  induction fuel as [|fuel IH]; intros n Hagree;
    rewrite !(free_name_unfold _ _ _ (S n)), (Hagree n) by lia.
  - reflexivity.
  - destruct (CopyRelevant.taken O2 F2 (numbered stm suf n)); [|reflexivity].
    apply IH. intros m Hm. apply Hagree. lia.
Qed.

Lemma taken_remove (O F : gset str) (n m : nat) :
  n <> m ->
  CopyRelevant.taken (O ∖ {[ Str.lower (numbered stm suf n) ]})
                     (F ∖ {[ numbered stm suf n ]}) (numbered stm suf m)
  = CopyRelevant.taken O F (numbered stm suf m).
Proof.
  intros Hne. unfold CopyRelevant.taken. f_equal; apply bool_decide_ext.
  - rewrite elem_of_difference, elem_of_singleton. split; [now intros [? _]|].
    intros H. split; [assumption|]. intros E%lower_numbered_inj. congruence.
  - rewrite elem_of_difference, elem_of_singleton. split; [now intros [? _]|].
    intros H. split; [assumption|]. intros E%numbered_inj. congruence.
Qed.

Lemma taken_size (O F : gset str) (nm : str) :
  CopyRelevant.taken O F nm = true ->
  (size (O ∖ {[ Str.lower nm ]}) + size (F ∖ {[ nm ]}) < size O + size F)%nat.
Proof.
  unfold CopyRelevant.taken.
  intros [H%bool_decide_eq_true|H%bool_decide_eq_true]%orb_true_iff.
  - assert (size (O ∖ {[ Str.lower nm ]}) < size O)%nat
      by (apply subset_size; set_solver).
    assert (size (F ∖ {[ nm ]}) <= size F)%nat
      by (apply subseteq_size; set_solver).
    lia.
  - assert (size (F ∖ {[ nm ]}) < size F)%nat
      by (apply subset_size; set_solver).
    assert (size (O ∖ {[ Str.lower nm ]}) <= size O)%nat
      by (apply subseteq_size; set_solver).
    lia.
Qed.

(** From the n-th numbered name on, the loop finds the first that is
    free, within as many turns as there are names taken. *)
Lemma free_name_numbered (k : nat) :
  forall (O F : gset str) (n fuel : nat),
    (size O + size F <= k)%nat -> (k <= fuel)%nat ->
    exists n',
      (n <= n')%nat
      /\ CopyRelevant.free_name fuel O F stm suf (S n) (numbered stm suf n)
         = Some (numbered stm suf n')
      /\ CopyRelevant.taken O F (numbered stm suf n') = false
      /\ forall m, (n <= m < n')%nat ->
           CopyRelevant.taken O F (numbered stm suf m) = true.
Proof.
  induction k as [|k IH]; intros O F n fuel Hk Hfuel;
    rewrite free_name_unfold;
    destruct (CopyRelevant.taken O F (numbered stm suf n)) eqn:Et.
  - apply taken_size in Et. lia.
  - exists n. repeat split; [lia|assumption|]. intros m Hm. lia.
  - pose proof (taken_size _ _ _ Et) as Hsz.
    destruct fuel as [|fuel]; [lia|].
    destruct (IH (O ∖ {[ Str.lower (numbered stm suf n) ]})
                 (F ∖ {[ numbered stm suf n ]}) (S n) fuel)
      as (n' & Hn' & Hrun & Hfree & Hbusy); [lia|lia|].
    exists n'. split; [lia|]. split; [|split].
    + rewrite <- Hrun. apply free_name_ext. intros m Hm.
      symmetry. apply taken_remove. lia.
    + rewrite <- Hfree. symmetry. apply taken_remove. lia.
    + intros m Hm. destruct (decide (m = n)) as [->|Hne]; [assumption|].
      rewrite <- (Hbusy m) by lia. symmetry. apply taken_remove. lia.
  - exists n. repeat split; [lia|assumption|]. intros m Hm. lia.
Qed.
End FreeName.

(** X14.  With more turns than names are held, the renaming loop of
    [copy_matches] returns a name that is free: the name of the source when
    that is free, and otherwise the first of [stem_1], [stem_2], ... with
    the extension that is free. *)
Theorem free_name_finds_the_first_free_name (fuel : nat)
    (outputs files : gset str) (stm suf nm : str) :
  (size outputs + size files < fuel)%nat ->
  exists final,
    CopyRelevant.free_name fuel outputs files stm suf 1 nm = Some final
    /\ CopyRelevant.taken outputs files final = false
    /\ (final = nm
        \/ CopyRelevant.taken outputs files nm = true
           /\ exists n,
                (1 <= n)%nat /\ final = numbered stm suf n
                /\ forall m, (1 <= m < n)%nat ->
                     CopyRelevant.taken outputs files (numbered stm suf m)
                     = true).
Proof.
  intros Hfuel. rewrite free_name_unfold.
  destruct (CopyRelevant.taken outputs files nm) eqn:Et.
  - destruct fuel as [|fuel]; [lia|].
    destruct (free_name_numbered stm suf (size outputs + size files)
                outputs files 1 fuel) as (n & Hn & Hrun & Hfree & Hbusy);
      [lia|lia|].
    exists (numbered stm suf n). split; [assumption|]. split; [assumption|].
    right. split; [reflexivity|]. now exists n.
  - exists nm. split; [reflexivity|]. split; [assumption|now left].
Qed.

(** X14 where the name and its first number were given out, up to case, and
    the second number is on disk: the loop settles on the third. *)
Lemma free_name_finds_the_first_free_name_witness :
  CopyRelevant.free_name 4 names_given names_on_disk (lit "A") (lit ".jpg") 1
    (lit "A.jpg") = Some (lit "A_3.jpg")
  /\ exists final,
       CopyRelevant.free_name 4 names_given names_on_disk (lit "A")
         (lit ".jpg") 1 (lit "A.jpg") = Some final
       /\ CopyRelevant.taken names_given names_on_disk final = false
       /\ (final = lit "A.jpg"
           \/ CopyRelevant.taken names_given names_on_disk (lit "A.jpg") = true
              /\ exists n,
                   (1 <= n)%nat /\ final = numbered (lit "A") (lit ".jpg") n
                   /\ forall m, (1 <= m < n)%nat ->
                        CopyRelevant.taken names_given names_on_disk
                          (numbered (lit "A") (lit ".jpg") m) = true).
Proof.
  split; [vm_compute; reflexivity|].
  apply (free_name_finds_the_first_free_name 4 names_given names_on_disk
           (lit "A") (lit ".jpg") (lit "A.jpg")).
  vm_compute. lia.
Defined.

(* ===================================================================== *)
(** * What a run of [process_list] keeps *)
(* ===================================================================== *)

Lemma free_name_sound (stm suf : str) (O F : gset str) (fuel : nat) :
  forall n nm final,
    CopyRelevant.free_name fuel O F stm suf n nm = Some final ->
    CopyRelevant.taken O F final = false
    /\ (final = nm \/ exists m, (n <= m)%nat /\ final = numbered stm suf m).
Proof.
  induction fuel as [|fuel IH]; intros n nm final;
    rewrite free_name_unfold;
    destruct (CopyRelevant.taken O F nm) eqn:Et; try discriminate.
  - intros [= <-]. split; [assumption|now left].
  - intros (Hfree & [->|(m & Hm & ->)])%IH.
    + split; [assumption|]. right. exists n. split; [lia|reflexivity].
    + split; [assumption|]. right. exists m. split; [lia|reflexivity].
  - intros [= <-]. split; [assumption|now left].
Qed.

Section Invariant.
Variable fuel : nat.
Variable resolve : Path -> str.
Variable existing : gset str.
Variable out_dir : str.
Variable cells : list (nat * CopyRelevant.cell).

Lemma inv_initial : Inv resolve existing out_dir cells (CopyRelevant.initial existing).
Proof.
  split; cbn; try (intros; exfalso; set_solver); try constructor.
  set_solver.
Qed.

Section CopyOne.
Variables (idx : nat) (raw : CopyRelevant.cell) (yr bp : str).
Hypothesis Hcell : (idx, raw) ∈ cells.
Hypothesis Hparse :
  CopyRelevant.parse_object_number (CopyRelevant.as_str raw)
  = Some (CopyRelevant.mkParsed bp yr).

Lemma copy_one_inv (st st' : CopyRelevant.state) (src : Path) :
  Inv resolve existing out_dir cells st -> same_cell idx raw (yr, Str.lower bp) st ->
  (yr, Str.lower bp) ∈ CopyRelevant.seen_prefixes st ->
  matching bp src ->
  CopyRelevant.copy_one fuel resolve out_dir (idx, raw, yr, bp) st src
    = Some st' ->
  Inv resolve existing out_dir cells st' /\ same_cell idx raw (yr, Str.lower bp) st'
  /\ CopyRelevant.seen_prefixes st' = CopyRelevant.seen_prefixes st
  /\ CopyRelevant.misses_rows st' = CopyRelevant.misses_rows st.
Proof.
  intros Hinv Hsame Hkey (Hfile & Hext & Hstart). unfold CopyRelevant.copy_one.
  case_bool_decide as Hseen;
    [intros [= <-]; split; [assumption|split; [assumption|split; reflexivity]]|].
  destruct (CopyRelevant.free_name fuel _ _ _ _ 1 (name src)) as [final|] eqn:Ef;
    [|discriminate].
  intros [= <-].
  apply free_name_sound in Ef as [Hfree Hname].
  unfold CopyRelevant.taken in Hfree.
  apply orb_false_iff in Hfree as [Ho%bool_decide_eq_false Hf%bool_decide_eq_false].
  destruct Hinv as [Iseen Itg Isrc Ifiles Ifresh Irows Isrcs Icells Igroup Imiss].
  split; [|split; [|split; reflexivity]].
  - split; cbn [CopyRelevant.copies CopyRelevant.seen_outputs
                CopyRelevant.seen_src_paths CopyRelevant.out_files
                CopyRelevant.copied_rows CopyRelevant.seen_prefixes
                CopyRelevant.misses_rows].
    + intros c [Hc|Hc]%elem_of_app.
      * destruct (Iseen c Hc). set_solver.
      * apply list_elem_of_singleton in Hc as ->. cbn. set_solver.
    + rewrite map_app. apply NoDup_app. split; [assumption|]. split.
      * intros x Hx Hx2. cbn [map fst snd] in Hx2. apply list_elem_of_singleton in Hx2.
        subst x. apply list_elem_of_fmap in Hx as (c & Hc & Hin).
        destruct (Iseen c Hin) as [Hs _]. apply Ho. now rewrite Hc.
      * apply NoDup_singleton.
    + rewrite map_app. apply NoDup_app. split; [assumption|]. split.
      * intros x Hx Hx2. cbn [map fst snd] in Hx2. apply list_elem_of_singleton in Hx2.
        subst x. apply list_elem_of_fmap in Hx as (c & Hc & Hin).
        destruct (Iseen c Hin) as [_ Hs]. apply Hseen. now rewrite Hc.
      * apply NoDup_singleton.
    + rewrite Ifiles, fmap_app, list_to_set_app_L. cbn. set_solver.
    + intros c [Hc|Hc]%elem_of_app; [now apply Ifresh|].
      apply list_elem_of_singleton in Hc as ->. cbn. rewrite Ifiles in Hf.
      set_solver.
    + apply Forall2_app; [assumption|]. constructor; [|constructor].
      now repeat split.
    + intros c [Hc|Hc]%elem_of_app; [now apply Isrcs|].
      apply list_elem_of_singleton in Hc as ->. cbn [fst snd].
      split; [assumption|]. split; [assumption|].
      destruct Hname as [->|(m & Hm & ->)]; [now left|right; now exists m].
    + intros r [Hr|Hr]%elem_of_app.
      * destruct (Icells r Hr) as (? & ? & ?). now repeat split.
      * apply list_elem_of_singleton in Hr as ->. cbn. now repeat split.
    + intros r1 r2 [H1|H1]%elem_of_app [H2|H2]%elem_of_app Hk.
      * now apply Igroup.
      * apply list_elem_of_singleton in H2 as ->.
        destruct (Hsame r1 H1) as [-> ->]; [exact Hk|]. now split.
      * apply list_elem_of_singleton in H1 as ->.
        destruct (Hsame r2 H2) as [-> ->]; [now rewrite <- Hk|]. now split.
      * apply list_elem_of_singleton in H1 as ->.
        apply list_elem_of_singleton in H2 as ->. now split.
    + assumption.
  - intros r [Hr|Hr]%elem_of_app Hk; [now apply Hsame|].
    apply list_elem_of_singleton in Hr as ->. now split.
Qed.

Lemma copy_loop_inv (files : list Path) :
  forall st st',
    Inv resolve existing out_dir cells st -> same_cell idx raw (yr, Str.lower bp) st ->
    (yr, Str.lower bp) ∈ CopyRelevant.seen_prefixes st ->
    Forall (matching bp) files ->
    CopyRelevant.copy_loop fuel resolve out_dir (idx, raw, yr, bp) files st
      = Some st' ->
    Inv resolve existing out_dir cells st' /\ same_cell idx raw (yr, Str.lower bp) st'
    /\ CopyRelevant.seen_prefixes st' = CopyRelevant.seen_prefixes st
    /\ CopyRelevant.misses_rows st' = CopyRelevant.misses_rows st.
Proof.
  induction files as [|src files IH]; intros st st' Hinv Hsame Hkey Hfiles.
  - intros [= <-]. split; [assumption|split; [assumption|split; reflexivity]].
  - apply Forall_cons in Hfiles as [Hsrc Hfiles]. cbn [CopyRelevant.copy_loop].
    destruct (CopyRelevant.copy_one fuel resolve out_dir (idx, raw, yr, bp) st src)
      as [st1|] eqn:E1; [|discriminate].
    apply copy_one_inv in E1 as (Hinv1 & Hsame1 & Hp1 & Hm1); try assumption.
    intros Hloop. apply IH in Hloop as (Hinv' & Hsame' & Hp' & Hm');
      try assumption; [|now rewrite Hp1].
    split; [assumption|]. split; [assumption|]. split; congruence.
Qed.
End CopyOne.
End Invariant.

(* ===================================================================== *)
(** * The loop over the cells *)
(* ===================================================================== *)

Lemma find_matching_files_spec (fs : folders) (root yr bp : str) :
  CopyRelevant.find_matching_files fs root yr bp
  = match fs (child_str root yr) with
    | None => ([], Some (lit "Missing year folder: " ++ child_str root yr))
    | Some entries =>
        (List.filter (BuildSite.candidate (Str.lower bp)) entries, None)
    end.
Proof. reflexivity. Qed.

Lemma candidate_matching (bp : str) (src : Path) :
  BuildSite.candidate (Str.lower bp) src = true <-> matching bp src.
Proof.
  unfold BuildSite.candidate, matching.
  rewrite !andb_true_iff, bool_decide_eq_true. tauto.
Qed.

Lemma find_matching_files_matching (fs : folders) (root yr bp : str) :
  Forall (matching bp) (CopyRelevant.find_matching_files fs root yr bp).1.
Proof.
  rewrite find_matching_files_spec.
  destruct (fs (child_str root yr)) as [entries|]; cbn [fst]; [|constructor].
  apply Forall_forall. intros src Hsrc%list_elem_of_In%filter_In.
  now apply candidate_matching.
Qed.

Section Cells.
Variable fuel : nat.
Variable resolve : Path -> str.
Variable fs : folders.
Variable existing : gset str.
Variable out_dir : str.
Variable cells : list (nat * CopyRelevant.cell).

Lemma inv_add_miss (st : CopyRelevant.state) (idx : nat)
    (raw : CopyRelevant.cell) (why : str) :
  Inv resolve existing out_dir cells st -> (idx, raw) ∈ cells ->
  Inv resolve existing out_dir cells (CopyRelevant.add_miss st idx raw why).
Proof.
  intros [] Hcell. split; cbn; try assumption.
  intros m [Hm|Hm]%elem_of_app; [auto|].
  apply list_elem_of_singleton in Hm as ->. exact Hcell.
Qed.

Lemma inv_add_prefix (st : CopyRelevant.state) (key : str * str) :
  Inv resolve existing out_dir cells st ->
  Inv resolve existing out_dir cells (CopyRelevant.add_prefix st key).
Proof.
  intros []. split; cbn; try assumption.
  intros r Hr. destruct (inv_cells0 r Hr) as (? & ? & ?).
  repeat split; try assumption. set_solver.
Qed.

Lemma process_cell_inv (st st' : CopyRelevant.state) (idx : nat)
    (raw : CopyRelevant.cell) :
  Inv resolve existing out_dir cells st -> (idx, raw) ∈ cells ->
  CopyRelevant.process_cell fuel resolve fs out_dir st idx raw = Some st' ->
  Inv resolve existing out_dir cells st'
  /\ (forall m, m ∈ CopyRelevant.misses_rows st ->
        m ∈ CopyRelevant.misses_rows st')
  /\ (CopyRelevant.parse_object_number (CopyRelevant.as_str raw) = None ->
      CopyRelevant.mkMiss idx raw CopyRelevant.NO_NUMBER
        ∈ CopyRelevant.misses_rows st').
Proof.
  intros Hinv Hcell. unfold CopyRelevant.process_cell.
  destruct (CopyRelevant.parse_object_number (CopyRelevant.as_str raw))
    as [[bp yr]|] eqn:Ep.
  - cbn [CopyRelevant.base_prefix CopyRelevant.year].
    case_bool_decide as Hkey.
    { intros [= <-]. split; [assumption|]. split; [auto|discriminate]. }
    pose proof (find_matching_files_matching fs CopyRelevant.IMAGES_ROOT yr bp)
      as Hfiles.
    pose proof (inv_add_prefix st (yr, Str.lower bp) Hinv) as Hinv1.
    destruct (CopyRelevant.find_matching_files fs CopyRelevant.IMAGES_ROOT yr bp)
      as [files [err|]]; cbn [fst] in Hfiles;
      [destruct files; intros [= <-]; (split; [now apply inv_add_miss|]);
       (split; [|discriminate]); intros m Hm; cbn; apply elem_of_app; now left|].
    destruct files as [|f files].
    + intros [= <-]. split; [now apply inv_add_miss|].
      split; [|discriminate]. intros m Hm. cbn. apply elem_of_app. now left.
    + unfold CopyRelevant.copy_matches. intros Hloop.
      apply (copy_loop_inv fuel resolve existing out_dir cells idx raw yr bp
               Hcell Ep) in Hloop as (Hinv' & _ & _ & Hm').
      * split; [assumption|]. split; [|discriminate].
        intros m Hm. now rewrite Hm'.
      * assumption.
      * intros r Hr Hk. exfalso. apply Hkey.
        destruct Hinv as [_ _ _ _ _ _ _ Icells _ _].
        destruct (Icells r Hr) as (_ & _ & Hin). now rewrite <- Hk.
      * cbn. set_solver.
      * apply Forall_forall. intros src Hsrc%sorted_by_elem.
        rewrite Forall_forall in Hfiles. now apply Hfiles.
  - intros [= <-]. split; [now apply inv_add_miss|]. split.
    + intros m Hm. cbn. apply elem_of_app. now left.
    + intros _. cbn. apply elem_of_app. right. now left.
Qed.

Lemma process_cells_inv (l : list (nat * CopyRelevant.cell)) :
  forall st st',
    Inv resolve existing out_dir cells st ->
    (forall x, x ∈ l -> x ∈ cells) ->
    CopyRelevant.process_cells fuel resolve fs out_dir l st = Some st' ->
    Inv resolve existing out_dir cells st'
    /\ (forall m, m ∈ CopyRelevant.misses_rows st ->
          m ∈ CopyRelevant.misses_rows st')
    /\ (forall idx raw, (idx, raw) ∈ l ->
          CopyRelevant.parse_object_number (CopyRelevant.as_str raw) = None ->
          CopyRelevant.mkMiss idx raw CopyRelevant.NO_NUMBER
            ∈ CopyRelevant.misses_rows st').
Proof.
  induction l as [|[idx raw] l IH]; intros st st' Hinv Hsub.
  - intros [= <-]. split; [assumption|]. split; [auto|].
    intros idx raw Hin. now apply elem_of_nil in Hin.
  - cbn [CopyRelevant.process_cells].
    destruct (CopyRelevant.process_cell fuel resolve fs out_dir st idx raw)
      as [st1|] eqn:E1; [|discriminate].
    apply process_cell_inv in E1 as (Hinv1 & Hmono1 & Hmiss1);
      [|assumption|apply Hsub; now left].
    intros Hrest. apply IH in Hrest as (Hinv' & Hmono' & Hmiss');
      [|assumption|intros x Hx; apply Hsub; now right].
    split; [assumption|]. split; [auto|].
    intros idx' raw' [[= -> ->]|Hin]%elem_of_cons Hp; [auto|].
    now apply Hmiss'.
Qed.
End Cells.

(** What a run of [process_list] that returns leaves behind. *)
Lemma process_list_inv (fuel : nat) (resolve : Path -> str) (fs : folders)
    (sheet : gmap str (list CopyRelevant.cell)) (existing : gset str)
    (out_dir : str) (row_slice : option (nat * nat)) (header_name : str)
    (st : CopyRelevant.state) :
  CopyRelevant.process_list fuel resolve fs sheet existing out_dir row_slice
    header_name = CopyRelevant.Done st ->
  exists series,
    CopyRelevant.read_excel_column sheet header_name = Some series
    /\ let cells := CopyRelevant.clean (CopyRelevant.iloc row_slice series) in
       Inv resolve existing out_dir cells st
       /\ forall idx raw, (idx, raw) ∈ cells ->
            CopyRelevant.parse_object_number (CopyRelevant.as_str raw) = None ->
            CopyRelevant.mkMiss idx raw CopyRelevant.NO_NUMBER
              ∈ CopyRelevant.misses_rows st.
Proof.
  unfold CopyRelevant.process_list.
  destruct (CopyRelevant.read_excel_column sheet header_name) as [series|];
    [|discriminate].
  destruct (CopyRelevant.process_cells _ _ _ _ _ _) as [st'|] eqn:E;
    [|discriminate].
  intros [= <-]. exists series. split; [reflexivity|]. cbv zeta.
  apply process_cells_inv
    with (existing := existing)
         (cells := CopyRelevant.clean (CopyRelevant.iloc row_slice series))
    in E as (Hinv & _ & Hmiss); [now split|apply inv_initial|auto].
Qed.

(** X15.  In a run of [process_list] that returns, no two copies get the
    same name, not even up to case; no copy gets the name of a file that was
    in the target folder before; and the folder holds in the end the files
    it held and the copies. *)
Theorem copies_never_collide (fuel : nat) (resolve : Path -> str)
    (fs : folders) (sheet : gmap str (list CopyRelevant.cell))
    (existing : gset str) (out_dir : str) (row_slice : option (nat * nat))
    (header_name : str) (st : CopyRelevant.state) :
  CopyRelevant.process_list fuel resolve fs sheet existing out_dir row_slice
    header_name = CopyRelevant.Done st ->
  NoDup (map (fun c : Path * str => Str.lower c.2) (CopyRelevant.copies st))
  /\ (forall c, c ∈ CopyRelevant.copies st -> c.2 ∉ existing)
  /\ CopyRelevant.out_files st
     = existing ∪ list_to_set (CopyRelevant.copies st).*2.
Proof.
  intros (series & _ & [] & _)%process_list_inv. now repeat split.
Qed.

(** The sample run returns. *)
Lemma sample_run_done : sample_run = CopyRelevant.Done sample_final.
Proof.
  assert (match sample_run with CopyRelevant.Done _ => true | _ => false end
          = true) as H by (vm_compute; reflexivity).
  unfold sample_final. destruct sample_run; [reflexivity|discriminate..].
Qed.

(** X15 at the sample run: the first photo is renamed, since the target
    folder has a file of its name. *)
Lemma copies_never_collide_witness :
  sample_run = CopyRelevant.Done sample_final
  /\ CopyRelevant.copies sample_final = [copy_a; copy_b]
  /\ NoDup (map (fun c : Path * str => Str.lower c.2)
              (CopyRelevant.copies sample_final))
  /\ (forall c, c ∈ CopyRelevant.copies sample_final -> c.2 ∉ sample_existing)
  /\ CopyRelevant.out_files sample_final
     = sample_existing ∪ list_to_set (CopyRelevant.copies sample_final).*2.
Proof.
  split; [apply sample_run_done|]. split; [vm_compute; reflexivity|].
  apply (copies_never_collide 8 sample_resolve sample_folders sample_sheet
           sample_existing (lit "output/aeg") None (lit "t1")).
  apply sample_run_done.
Defined.

(** X16.  In a run of [process_list] that returns, no source file (by its
    resolved path, up to case) is copied twice, and the log of the copies
    has one row for each copy, in order, with the path of the source, the
    path of the copy in the target folder, and a base prefix that the name
    of the source begins with, up to case. *)
Theorem sources_are_copied_once (fuel : nat) (resolve : Path -> str)
    (fs : folders) (sheet : gmap str (list CopyRelevant.cell))
    (existing : gset str) (out_dir : str) (row_slice : option (nat * nat))
    (header_name : str) (st : CopyRelevant.state) :
  CopyRelevant.process_list fuel resolve fs sheet existing out_dir row_slice
    header_name = CopyRelevant.Done st ->
  NoDup (map (fun c : Path * str => Str.lower (resolve c.1))
             (CopyRelevant.copies st))
  /\ Forall2 (records out_dir) (CopyRelevant.copied_rows st)
             (CopyRelevant.copies st).
Proof.
  intros (series & _ & [] & _)%process_list_inv. now split.
Qed.

(** X16 at the sample run. *)
Lemma sources_are_copied_once_witness :
  CopyRelevant.copied_rows sample_final = [logged_a; logged_b]
  /\ NoDup (map (fun c : Path * str => Str.lower (sample_resolve c.1))
              (CopyRelevant.copies sample_final))
  /\ Forall2 (records (lit "output/aeg")) (CopyRelevant.copied_rows sample_final)
             (CopyRelevant.copies sample_final).
Proof.
  split; [vm_compute; reflexivity|].
  apply (sources_are_copied_once 8 sample_resolve sample_folders sample_sheet
           sample_existing (lit "output/aeg") None (lit "t1")).
  apply sample_run_done.
Defined.

(** X17.  In a run of [process_list] that returns, every row of the two logs
    comes from a cell of the cleaned column; the base prefix and the year of
    a row of copies are what [parse_object_number] reads from its cell; and
    every cell of the cleaned column without an object number is in the log
    of misses, for that reason. *)
Theorem logs_are_sound (fuel : nat) (resolve : Path -> str)
    (fs : folders) (sheet : gmap str (list CopyRelevant.cell))
    (existing : gset str) (out_dir : str) (row_slice : option (nat * nat))
    (header_name : str) (st : CopyRelevant.state) :
  CopyRelevant.process_list fuel resolve fs sheet existing out_dir row_slice
    header_name = CopyRelevant.Done st ->
  exists series,
    CopyRelevant.read_excel_column sheet header_name = Some series
    /\ let cells := CopyRelevant.clean (CopyRelevant.iloc row_slice series) in
       (forall r, r ∈ CopyRelevant.copied_rows st ->
          (CopyRelevant.row_index r, CopyRelevant.raw_T1 r) ∈ cells
          /\ CopyRelevant.parse_object_number
               (CopyRelevant.as_str (CopyRelevant.raw_T1 r))
             = Some (CopyRelevant.mkParsed (CopyRelevant.row_base_prefix r)
                                           (CopyRelevant.row_year r)))
       /\ (forall m, m ∈ CopyRelevant.misses_rows st ->
             (CopyRelevant.miss_row_index m, CopyRelevant.miss_raw_T1 m)
               ∈ cells)
       /\ (forall idx raw, (idx, raw) ∈ cells ->
             CopyRelevant.parse_object_number (CopyRelevant.as_str raw) = None ->
             CopyRelevant.mkMiss idx raw CopyRelevant.NO_NUMBER
               ∈ CopyRelevant.misses_rows st).
Proof.
  intros (series & Hs & [] & Hmiss)%process_list_inv.
  exists series. split; [assumption|]. cbv zeta. split; [|split].
  - intros r Hr. destruct (inv_cells0 r Hr) as (? & ? & _). now split.
  - assumption.
  - assumption.
Qed.

(** X17 at the sample run. *)
Lemma logs_are_sound_witness :
  exists series,
    CopyRelevant.read_excel_column sample_sheet (lit "t1") = Some series
    /\ let cells := CopyRelevant.clean (CopyRelevant.iloc None series) in
       (forall r, r ∈ CopyRelevant.copied_rows sample_final ->
          (CopyRelevant.row_index r, CopyRelevant.raw_T1 r) ∈ cells
          /\ CopyRelevant.parse_object_number
               (CopyRelevant.as_str (CopyRelevant.raw_T1 r))
             = Some (CopyRelevant.mkParsed (CopyRelevant.row_base_prefix r)
                                           (CopyRelevant.row_year r)))
       /\ (forall m, m ∈ CopyRelevant.misses_rows sample_final ->
             (CopyRelevant.miss_row_index m, CopyRelevant.miss_raw_T1 m)
               ∈ cells)
       /\ (forall idx raw, (idx, raw) ∈ cells ->
             CopyRelevant.parse_object_number (CopyRelevant.as_str raw) = None ->
             CopyRelevant.mkMiss idx raw CopyRelevant.NO_NUMBER
               ∈ CopyRelevant.misses_rows sample_final).
Proof.
  apply (logs_are_sound 8 sample_resolve sample_folders sample_sheet
           sample_existing (lit "output/aeg") None (lit "t1") sample_final).
  apply sample_run_done.
Defined.

(** X18.  In a run of [process_list] that returns, the copies of one object
    group (year and lower-cased base prefix) all come from one cell of the
    list: a later cell that names the group again adds nothing. *)
Theorem a_group_is_copied_from_one_cell (fuel : nat) (resolve : Path -> str)
    (fs : folders) (sheet : gmap str (list CopyRelevant.cell))
    (existing : gset str) (out_dir : str) (row_slice : option (nat * nat))
    (header_name : str) (st : CopyRelevant.state) :
  CopyRelevant.process_list fuel resolve fs sheet existing out_dir row_slice
    header_name = CopyRelevant.Done st ->
  forall r1 r2,
    r1 ∈ CopyRelevant.copied_rows st -> r2 ∈ CopyRelevant.copied_rows st ->
    row_key r1 = row_key r2 ->
    CopyRelevant.row_index r1 = CopyRelevant.row_index r2
    /\ CopyRelevant.raw_T1 r1 = CopyRelevant.raw_T1 r2.
Proof.
  intros (series & _ & [] & _)%process_list_inv. assumption.
Qed.

(** X18 at the two rows of the sample run. *)
Lemma a_group_is_copied_from_one_cell_witness :
  CopyRelevant.row_index logged_a = CopyRelevant.row_index logged_b
  /\ CopyRelevant.raw_T1 logged_a = CopyRelevant.raw_T1 logged_b.
Proof.
  apply (a_group_is_copied_from_one_cell 8 sample_resolve sample_folders
           sample_sheet sample_existing (lit "output/aeg") None (lit "t1")
           sample_final).
  - apply sample_run_done.
  - apply list_elem_of_In. vm_compute. left. reflexivity.
  - apply list_elem_of_In. vm_compute. right. left. reflexivity.
  - reflexivity.
Defined.

(* ===================================================================== *)
(** * The renaming loop comes to an end *)
(* ===================================================================== *)

Lemma free_name_total (fuel : nat) (O F : gset str) (stm suf nm : str) :
  (size O + size F < fuel)%nat ->
  exists final, CopyRelevant.free_name fuel O F stm suf 1 nm = Some final.
Proof.
  intros Hfuel. rewrite free_name_unfold.
  destruct (CopyRelevant.taken O F nm); [|now exists nm].
  destruct fuel as [|fuel]; [lia|].
  destruct (free_name_numbered stm suf (size O + size F) O F 1 fuel)
    as (n & _ & Hrun & _); [lia|lia|].
  now exists (numbered stm suf n).
Qed.

Section Fuel.
Variable fuel : nat.
Variable resolve : Path -> str.
Variable fs : folders.
Variable existing : gset str.
Variable out_dir : str.
Variable M : nat.
Hypothesis Hfs : forall d l, fs d = Some l -> (length l <= M)%nat.

Lemma within_mono (m n : nat) (st : CopyRelevant.state) :
  (m <= n)%nat -> within existing m st -> within existing n st.
Proof. unfold within. lia. Qed.

Lemma size_add (x : str) (X : gset str) : (size ({[ x ]} ∪ X) <= S (size X))%nat.
Proof.
  rewrite size_union_alt, size_singleton.
  assert (size (X ∖ {[ x ]}) <= size X)%nat
    by (apply subseteq_size; set_solver).
  lia.
Qed.

Lemma copy_one_total (meta : nat * CopyRelevant.cell * str * str)
    (st : CopyRelevant.state) (src : Path) (n : nat) :
  within existing n st -> (size existing + 2 * n < fuel)%nat ->
  exists st',
    CopyRelevant.copy_one fuel resolve out_dir meta st src = Some st'
    /\ within existing (S n) st'.
Proof.
  intros Hin Hfuel. destruct meta as [[[idx raw] yr] bp].
  unfold CopyRelevant.copy_one.
  case_bool_decide as Hseen.
  - exists st. split; [reflexivity|]. apply (within_mono n); [lia|assumption].
  - destruct (free_name_total fuel (CopyRelevant.seen_outputs st)
                (CopyRelevant.out_files st) (stem src) (suffix src) (name src))
      as [final ->]; [unfold within in Hin; lia|].
    eexists. split; [reflexivity|]. unfold within in *. cbn.
    pose proof (size_add (Str.lower final) (CopyRelevant.seen_outputs st)).
    pose proof (size_add final (CopyRelevant.out_files st)).
    lia.
Qed.

Lemma copy_loop_total (meta : nat * CopyRelevant.cell * str * str)
    (files : list Path) :
  forall st n,
    within existing n st -> (size existing + 2 * (n + length files) < fuel)%nat ->
    exists st',
      CopyRelevant.copy_loop fuel resolve out_dir meta files st = Some st'
      /\ within existing (n + length files) st'.
Proof.
  induction files as [|src files IH]; intros st n Hin Hfuel.
  - exists st. split; [reflexivity|]. now rewrite Nat.add_0_r.
  - cbn [CopyRelevant.copy_loop length] in *.
    destruct (copy_one_total meta st src n Hin) as (st1 & -> & Hin1); [lia|].
    destruct (IH st1 (S n) Hin1) as (st' & -> & Hin'); [lia|].
    exists st'. split; [reflexivity|].
    now replace (n + S (length files))%nat with (S n + length files)%nat by lia.
Qed.

Lemma find_matching_files_length (root yr bp : str) :
  (length (CopyRelevant.find_matching_files fs root yr bp).1 <= M)%nat.
Proof.
  rewrite find_matching_files_spec.
  destruct (fs (child_str root yr)) as [entries|] eqn:E; cbn [fst length]; [|lia].
  etransitivity; [apply filter_length_le|]. now apply (Hfs _ _ E).
Qed.

Lemma process_cell_total (st : CopyRelevant.state) (idx : nat)
    (raw : CopyRelevant.cell) (n : nat) :
  within existing n st -> (size existing + 2 * (n + M) < fuel)%nat ->
  exists st',
    CopyRelevant.process_cell fuel resolve fs out_dir st idx raw = Some st'
    /\ within existing (n + M) st'.
Proof.
  intros Hin Hfuel. unfold CopyRelevant.process_cell.
  assert (within existing (n + M) st) as Hin' by (apply (within_mono n); [lia|assumption]).
  destruct (CopyRelevant.parse_object_number (CopyRelevant.as_str raw))
    as [[bp yr]|]; [|eexists; split; [reflexivity|exact Hin']].
  cbn [CopyRelevant.base_prefix CopyRelevant.year].
  case_bool_decide as Hkey; [eexists; split; [reflexivity|exact Hin']|].
  pose proof (find_matching_files_length CopyRelevant.IMAGES_ROOT yr bp) as Hlen.
  destruct (CopyRelevant.find_matching_files fs CopyRelevant.IMAGES_ROOT yr bp)
    as [files [err|]]; cbn [fst] in Hlen;
    [destruct files; eexists; (split; [reflexivity|exact Hin'])|].
  destruct files as [|f files]; [eexists; split; [reflexivity|exact Hin']|].
  unfold CopyRelevant.copy_matches.
  set (sorted := sorted_by Str.leb_list parts (f :: files)).
  assert (length sorted = length (f :: files)) as Hs
    by (apply Permutation_length, sorted_by_perm).
  destruct (copy_loop_total (idx, raw, yr, bp) sorted
              (CopyRelevant.add_prefix st (yr, Str.lower bp)) n)
    as (st' & Hrun & Hin''); [exact Hin|lia|].
  exists st'. split; [assumption|].
  apply (within_mono (n + length sorted)); [lia|assumption].
Qed.

Lemma process_cells_total (l : list (nat * CopyRelevant.cell)) :
  forall st n,
    within existing n st -> (size existing + 2 * (n + length l * M) < fuel)%nat ->
    exists st',
      CopyRelevant.process_cells fuel resolve fs out_dir l st = Some st'.
Proof.
  induction l as [|[idx raw] l IH]; intros st n Hin Hfuel.
  - now exists st.
  - cbn [CopyRelevant.process_cells length] in *.
    destruct (process_cell_total st idx raw n Hin) as (st1 & -> & Hin1); [lia|].
    apply (IH st1 (n + M)%nat Hin1). lia.
Qed.
End Fuel.

Lemma drop_duplicates_length (seen : list CopyRelevant.cell)
    (l : list (nat * CopyRelevant.cell)) :
  (length (CopyRelevant.drop_duplicates seen l) <= length l)%nat.
Proof.
  revert seen. induction l as [|[idx v] l IH]; intros seen; [reflexivity|].
  cbn [CopyRelevant.drop_duplicates length].
  case_bool_decide; [specialize (IH seen)|specialize (IH (v :: seen))];
    cbn [length]; lia.
Qed.

Lemma clean_length (row_slice : option (nat * nat))
    (series : list (nat * CopyRelevant.cell)) :
  (length (CopyRelevant.clean (CopyRelevant.iloc row_slice series))
   <= length series)%nat.
Proof.
  unfold CopyRelevant.clean.
  etransitivity; [apply drop_duplicates_length|]. rewrite length_map.
  etransitivity; [apply filter_length_le|].
  destruct row_slice as [[a b]|]; [|reflexivity]. cbn [CopyRelevant.iloc].
  rewrite length_take, length_drop. lia.
Qed.

(** X19.  [process_list] ends with [KeyError] when the sheet has no column
    of the header; with the column there it returns, the renaming loop
    included, as soon as the fuel exceeds the files of the target folder
    plus twice the rows times the largest number of entries in a folder. *)
Theorem process_list_returns (fuel : nat) (resolve : Path -> str)
    (fs : folders) (sheet : gmap str (list CopyRelevant.cell))
    (existing : gset str) (out_dir : str) (row_slice : option (nat * nat))
    (header_name : str) :
  (sheet !! header_name = None ->
   CopyRelevant.process_list fuel resolve fs sheet existing out_dir row_slice
     header_name = CopyRelevant.KeyError)
  /\ (forall column M,
        sheet !! header_name = Some column ->
        (forall d l, fs d = Some l -> (length l <= M)%nat) ->
        (size existing + 2 * (length column * M) < fuel)%nat ->
        exists st,
          CopyRelevant.process_list fuel resolve fs sheet existing out_dir
            row_slice header_name = CopyRelevant.Done st).
Proof.
  unfold CopyRelevant.process_list, CopyRelevant.read_excel_column. split.
  - now intros ->.
  - intros column M -> Hfs Hfuel. cbn [fmap option_fmap option_map].
    set (series := zip (seq 0 (length column)) column).
    assert (length series = length column) as Hlen
      by (unfold series; rewrite length_zip_with, length_seq; lia).
    pose proof (clean_length row_slice series) as Hclean.
    destruct (process_cells_total fuel resolve fs existing out_dir M Hfs
                (CopyRelevant.clean (CopyRelevant.iloc row_slice series))
                (CopyRelevant.initial existing) 0) as [st ->].
    + unfold within. cbn. rewrite size_empty. lia.
    + assert (length (CopyRelevant.clean (CopyRelevant.iloc row_slice series))
                * M <= length column * M)%nat by (apply Nat.mul_le_mono_r; lia).
      lia.
    + now exists st.
Qed.

(* ===================================================================== *)
(** * The names of the copies *)
(* ===================================================================== *)

(** A file with an extension keeps it under a longer stem. *)
Lemma split_ext_longer (nm pre suf x : str) :
  split_ext nm = Some (pre, suf) ->
  nm = pre ++ suf /\ split_ext (pre ++ x ++ suf) = Some (pre ++ x, suf).
Proof.
  unfold split_ext.
  destruct (Str.rsplit_dot nm) as [[pre' suf']|] eqn:E; [|discriminate].
  destruct ((0 <? Z.of_nat (length pre')) && (1 <? Z.of_nat (length suf')))
    eqn:Hc; [|discriminate].
  intros [= -> ->]. apply rsplit_dot_some in E as [-> Ht]. split; [reflexivity|].
  assert (Str.rsplit_dot (pre ++ x ++ suf) = Some (pre ++ x, suf)) as ->.
  { apply rsplit_dot_some. split; [now rewrite app_assoc|assumption]. }
  apply andb_true_iff in Hc as [Hp Hs]. rewrite Hs, andb_true_r.
  rewrite length_app.
  assert ((0 <? Z.of_nat (length pre + length x)) = true) as ->
    by (apply Z.ltb_lt; apply Z.ltb_lt in Hp; lia).
  reflexivity.
Qed.

Lemma allowed_has_suffix (src : Path) :
  Str.lower (suffix src) ∈ ALLOWED_EXTS ->
  split_ext (name src) = Some (stem src, suffix src).
Proof.
  unfold suffix, stem. destruct (split_ext (name src)) as [[pre suf]|];
    [reflexivity|].
  intros H. exfalso. cbn in H. unfold ALLOWED_EXTS in H.
  repeat (apply elem_of_cons in H as [H|H]; [discriminate|]).
  now apply elem_of_nil in H.
Qed.

Lemma plain_no_dot (s : str) :
  Forall plain s -> Forall (fun a => a <> "."%char) s.
Proof.
  intros H. eapply Forall_impl; [exact H|].
  intros a Ha E. subst a. destruct Ha as [Ha|Ha]; discriminate.
Qed.

(** The name of a copy starts as the name of its source does, up to the
    extension. *)
Lemma kept_name_head (c : Path * str) (head rest : str) :
  Str.lower (suffix c.1) ∈ ALLOWED_EXTS -> kept_name c ->
  Forall (fun a => a <> "."%char) head ->
  name c.1 = head ++ rest ->
  exists rest', c.2 = head ++ rest'.
Proof.
  intros Hext Hkept Hhead Hname.
  destruct Hkept as [->|(n & _ & ->)]; [now exists rest|].
  apply allowed_has_suffix in Hext.
  apply (split_ext_longer _ _ _ []) in Hext as [Hn Hsplit].
  unfold split_ext in Hsplit. cbn [app] in Hsplit.
  destruct (Str.rsplit_dot (stem c.1 ++ suffix c.1)) as [[pre suf]|] eqn:E;
    [|discriminate].
  destruct (_ && _); [|discriminate]. injection Hsplit as -> ->.
  apply rsplit_dot_some in E as [_ (t & Et & _)].
  rewrite Hn, Et in Hname. symmetry in Hname.
  apply List.app_eq_app in Hname as [l [[Eh Er]|[Es Er]]].
  - destruct l as [|a l].
    + rewrite app_nil_r in Eh. subst head. unfold numbered.
      now eexists.
    + cbn in Er. injection Er as <- _.
      rewrite Eh in Hhead. apply Forall_app in Hhead as [_ Hhead].
      apply Forall_cons in Hhead as [Hd _]. contradiction.
  - unfold numbered. rewrite Es, <- app_assoc. now eexists.
Qed.

Lemma kept_name_suffix (out_dir : str) (c : Path * str) :
  Str.lower (suffix c.1) ∈ ALLOWED_EXTS -> kept_name c ->
  suffix (copy_file out_dir c) = suffix c.1.
Proof.
  intros Hext Hkept. unfold suffix at 1, copy_file. cbn [name].
  pose proof (allowed_has_suffix _ Hext) as Hsplit.
  destruct Hkept as [->|(n & _ & ->)]; [now rewrite Hsplit|].
  apply (split_ext_longer _ _ _ (lit "_" ++ Str.of_nat n)) in Hsplit as [_ Hs].
  unfold numbered. rewrite <- app_assoc in Hs. now rewrite Hs.
Qed.

(** X20.  Each copy of a run of [process_list] has the name of its source or
    the stem, a number and the extension; it has the extension of its
    source, is an image file for [is_image_file], and [extract_object_id]
    reads from its name the identifier it reads from the name of the source:
    the copies are indexed under the same objects. *)
Theorem copies_stand_under_the_same_object (fuel : nat)
    (resolve : Path -> str) (fs : folders)
    (sheet : gmap str (list CopyRelevant.cell)) (existing : gset str)
    (out_dir : str) (row_slice : option (nat * nat)) (header_name : str)
    (st : CopyRelevant.state) :
  CopyRelevant.process_list fuel resolve fs sheet existing out_dir row_slice
    header_name = CopyRelevant.Done st ->
  forall c, c ∈ CopyRelevant.copies st ->
    kept_name c
    /\ suffix (copy_file out_dir c) = suffix c.1
    /\ AutoDesc.is_image_file c.1 = true
    /\ AutoDesc.is_image_file (copy_file out_dir c) = true
    /\ forall id, AutoDesc.extract_object_id (name c.1) = Some id ->
         AutoDesc.extract_object_id (name (copy_file out_dir c)) = Some id.
Proof.
  intros (series & _ & [] & _)%process_list_inv c Hc.
  destruct (inv_src0 c Hc) as (Hfile & Hext & Hkept).
  pose proof (kept_name_suffix out_dir c Hext Hkept) as Hsuf.
  split; [assumption|]. split; [assumption|].
  unfold AutoDesc.is_image_file. rewrite Hsuf, Hfile. cbn [is_file copy_file andb].
  rewrite bool_decide_eq_true_2 by assumption.
  split; [reflexivity|]. split; [reflexivity|].
  intros id (p & y & c0 & rest & Hname & Hp & Hy & Hc0 & ->)%extract_accepted.
  destruct (kept_name_head c (canonical p y c0) rest Hext Hkept) as [rest' Hr];
    [|assumption|].
  - apply plain_no_dot.
    pose proof (canonical_plain p y c0 Hp Hy Hc0) as H.
    now apply Forall_app in H as [H _].
  - unfold copy_file. cbn [name]. rewrite Hr. now apply extract_canonical.
Qed.

(** X20 at the renamed copy of the sample run. *)
Lemma copies_stand_under_the_same_object_witness :
  kept_name copy_a
  /\ suffix (copy_file (lit "output/aeg") copy_a) = suffix copy_a.1
  /\ AutoDesc.is_image_file copy_a.1 = true
  /\ AutoDesc.is_image_file (copy_file (lit "output/aeg") copy_a) = true
  /\ forall id, AutoDesc.extract_object_id (name copy_a.1) = Some id ->
       AutoDesc.extract_object_id (name (copy_file (lit "output/aeg") copy_a))
       = Some id.
Proof.
  apply (copies_stand_under_the_same_object 8 sample_resolve sample_folders
           sample_sheet sample_existing (lit "output/aeg") None (lit "t1")
           sample_final).
  - apply sample_run_done.
  - apply list_elem_of_In. vm_compute. left. reflexivity.
Defined.

(** X21.  For a cell in the documented format, every file that
    [find_matching_files] of [copy_RelevantImages.py] returns for what
    [parse_object_number] read is an image file that [extract_object_id]
    puts under the identifier [normalize_obj_id_from_excel] gives the cell:
    the copies and the metadata of a row meet at one object. *)
Theorem matched_files_are_indexed_under_the_cell (p y c w v rest : str)
    (fs : folders) (images_root : str) :
  number p -> digits 4 y -> digits 4 c -> w <> [] -> blank w -> number v ->
  let cell := p ++ "/"%char :: y ++ "/"%char :: c ++ w ++ v ++ rest in
  exists parsed,
    CopyRelevant.parse_object_number (Some cell) = Some parsed
    /\ CopyRelevant.year parsed = y
    /\ forall src,
         src ∈ (CopyRelevant.find_matching_files fs images_root
                  (CopyRelevant.year parsed)
                  (CopyRelevant.base_prefix parsed)).1 ->
         AutoDesc.is_image_file src = true
         /\ AutoDesc.extract_object_id (name src)
            = AutoDesc.normalize_obj_id_from_excel (Some cell).
Proof.
  intros Hp Hy Hc Hne Hw Hv. cbv zeta.
  exists (CopyRelevant.mkParsed (canonical p y c ++ lit "-") y).
  split; [now apply parse_documented|]. split; [reflexivity|].
  intros src Hsrc. cbn [CopyRelevant.year CopyRelevant.base_prefix] in Hsrc.
  rewrite normalize_documented by assumption.
  pose proof (find_matching_files_matching fs images_root y
                (canonical p y c ++ lit "-")) as Hall.
  rewrite Forall_forall in Hall. apply Hall, candidate_matching in Hsrc.
  apply candidate_belongs in Hsrc; try assumption.
  unfold belongs in Hsrc.
  apply andb_true_iff in Hsrc as [[Hi He%bool_decide_eq_true]%andb_true_iff _].
  now split.
Qed.

(** X21 at a cell with a note after the variant number. *)
Lemma matched_files_are_indexed_under_the_cell_witness :
  let cell := lit "1/1997/1063 0 und 2" in
  exists parsed,
    CopyRelevant.parse_object_number (Some cell) = Some parsed
    /\ CopyRelevant.year parsed = lit "1997"
    /\ forall src,
         src ∈ (CopyRelevant.find_matching_files sample_folders
                  CopyRelevant.IMAGES_ROOT (CopyRelevant.year parsed)
                  (CopyRelevant.base_prefix parsed)).1 ->
         AutoDesc.is_image_file src = true
         /\ AutoDesc.extract_object_id (name src)
            = AutoDesc.normalize_obj_id_from_excel (Some cell).
Proof.
  apply (matched_files_are_indexed_under_the_cell (lit "1") (lit "1997")
           (lit "1063") (lit " ") (lit "0") (lit " und 2") sample_folders
           CopyRelevant.IMAGES_ROOT); shape.
Defined.

(* ===================================================================== *)
(** * The rows of the slice *)
(* ===================================================================== *)

Lemma strip_cell_nan (c : CopyRelevant.cell) :
  CopyRelevant.strip_cell c = CopyRelevant.NaN <-> c = CopyRelevant.NaN.
Proof. destruct c; cbn; split; congruence. Qed.

(** What [clean] keeps of the rows it is given: the first row of each
    value, blank cells apart. *)
Lemma clean_elem (rows : list (nat * CopyRelevant.cell)) :
  forall seen idx raw,
    (idx, raw)
      ∈ CopyRelevant.drop_duplicates seen
          (map (fun '(idx, v) => (idx, CopyRelevant.strip_cell v))
             (List.filter
                (fun '(_, v) => negb (bool_decide (v = CopyRelevant.NaN)))
                rows)) ->
    (raw ∉ seen)
    /\ exists pre post raw0,
         rows = pre ++ (idx, raw0) :: post
         /\ raw0 <> CopyRelevant.NaN
         /\ raw = CopyRelevant.strip_cell raw0
         /\ forall j c, (j, c) ∈ pre -> CopyRelevant.strip_cell c <> raw.
Proof.
  induction rows as [|[i c] rows IH]; intros seen idx raw; cbn [List.filter].
  - intros H. now apply elem_of_nil in H.
  - case_bool_decide as Hc; cbn [negb map CopyRelevant.drop_duplicates].
    + subst c.
      intros (Hseen & pre & post & raw0 & -> & Hn & -> & Hpre)%IH.
      split; [assumption|].
      exists ((i, CopyRelevant.NaN) :: pre), post, raw0.
      split; [reflexivity|]. split; [assumption|]. split; [reflexivity|].
      intros j c [[= -> ->]|Hin]%elem_of_cons; [|exact (Hpre j _ Hin)].
      cbn. intros Heq. symmetry in Heq.
      apply (proj1 (strip_cell_nan raw0)) in Heq. contradiction.
    + case_bool_decide as Hseen.
      * intros (Hraw & pre & post & raw0 & -> & Hn & -> & Hpre)%IH.
        split; [assumption|].
        exists ((i, c) :: pre), post, raw0.
        split; [reflexivity|]. split; [assumption|]. split; [reflexivity|].
        intros j c' [[= -> ->]|Hin]%elem_of_cons; [|exact (Hpre j _ Hin)].
        congruence.
      * intros [[= -> ->]|H]%elem_of_cons.
        -- split; [assumption|]. exists [], rows, c.
           split; [reflexivity|]. split; [assumption|]. split; [reflexivity|].
           intros j c' Hin. now apply elem_of_nil in Hin.
        -- apply IH in H as (Hraw & pre & post & raw0 & -> & Hn & -> & Hpre).
           apply not_elem_of_cons in Hraw as [Hne Hraw].
           split; [assumption|].
           exists ((i, c) :: pre), post, raw0.
           split; [reflexivity|]. split; [assumption|]. split; [reflexivity|].
           intros j c' [[= -> ->]|Hin]%elem_of_cons; [|exact (Hpre j _ Hin)].
           congruence.
Qed.

Lemma series_lookup (column : list CopyRelevant.cell) (k i : nat)
    (c : CopyRelevant.cell) :
  zip (seq 0 (length column)) column !! k = Some (i, c) <->
  i = k /\ column !! k = Some c.
Proof.
  rewrite lookup_zip_with_Some. split.
  - intros (x & y & [= <- <-] & Hx & Hy).
    apply lookup_seq in Hx as [-> _]. now split.
  - intros [-> Hc]. exists k, c. split; [reflexivity|]. split; [|assumption].
    apply lookup_seq. split; [reflexivity|]. now apply lookup_lt_Some in Hc.
Qed.

(** The rows of the slice, by position. *)
Lemma iloc_lookup (column : list CopyRelevant.cell)
    (row_slice : option (nat * nat)) (k i : nat) (c : CopyRelevant.cell) :
  CopyRelevant.iloc row_slice (zip (seq 0 (length column)) column) !! k
  = Some (i, c) <->
  column !! i = Some c
  /\ match row_slice with
     | None => i = k
     | Some (a, b) => i = (a + k)%nat /\ (i < b)%nat
     end.
Proof.
  destruct row_slice as [[a b]|]; cbn [CopyRelevant.iloc].
  - destruct (decide (k < b - a)%nat) as [Hk|Hk].
    + rewrite lookup_take_lt, lookup_drop, series_lookup by assumption.
      split; [intros [-> Hc]|intros [Hc [-> Hb]]]; repeat split;
        try assumption; lia.
    + rewrite lookup_take_ge by lia. split; [discriminate|].
      intros [_ [-> Hb]]. lia.
  - rewrite series_lookup. split; intros [H1 H2]; now subst.
Qed.

Lemma clean_first_row (column : list CopyRelevant.cell)
    (row_slice : option (nat * nat)) (idx : nat) (raw : CopyRelevant.cell) :
  (idx, raw)
    ∈ CopyRelevant.clean
        (CopyRelevant.iloc row_slice (zip (seq 0 (length column)) column)) ->
  first_row_of column row_slice idx raw.
Proof.
  unfold CopyRelevant.clean.
  intros (_ & pre & post & raw0 & Hrows & Hn & -> & Hpre)%clean_elem.
  assert (CopyRelevant.iloc row_slice (zip (seq 0 (length column)) column)
            !! length pre = Some (idx, raw0)) as Hk
    by (rewrite Hrows; apply list_lookup_middle; reflexivity).
  apply iloc_lookup in Hk as [Hcol Hpos].
  assert (forall j raw1 kj,
            (kj < length pre)%nat ->
            CopyRelevant.iloc row_slice (zip (seq 0 (length column)) column)
              !! kj = Some (j, raw1) ->
            CopyRelevant.strip_cell raw1 <> CopyRelevant.strip_cell raw0)
    as Hearlier.
  { intros j raw1 kj Hlt Hkj. apply (Hpre j).
    rewrite Hrows, lookup_app_l in Hkj by assumption.
    now apply list_elem_of_lookup_2 in Hkj. }
  unfold first_row_of. destruct row_slice as [[a b]|].
  - destruct Hpos as [-> Hb]. split; [lia|]. split; [now exists raw0|].
    intros j raw1 Hlt [Ha _] Hj.
    apply (Hearlier j raw1 (j - a)%nat); [lia|].
    apply iloc_lookup. split; [assumption|]. lia.
  - subst idx. split; [exact I|]. split; [now exists raw0|].
    intros j raw1 Hlt _ Hj.
    apply (Hearlier j raw1 j); [assumption|].
    apply iloc_lookup. now split.
Qed.

(** X22.  In a run of [process_list] that returns, every row of the two logs
    bears the index of a row of the column that lies in the slice, whose
    cell is not blank and is the logged cell once trimmed, and before which
    no row of the slice has a cell that reads the same. *)
Theorem logged_rows_are_first_rows_of_the_slice (fuel : nat)
    (resolve : Path -> str) (fs : folders)
    (sheet : gmap str (list CopyRelevant.cell)) (existing : gset str)
    (out_dir : str) (row_slice : option (nat * nat)) (header_name : str)
    (st : CopyRelevant.state) :
  CopyRelevant.process_list fuel resolve fs sheet existing out_dir row_slice
    header_name = CopyRelevant.Done st ->
  exists column,
    sheet !! header_name = Some column
    /\ (forall r, r ∈ CopyRelevant.copied_rows st ->
          first_row_of column row_slice (CopyRelevant.row_index r)
            (CopyRelevant.raw_T1 r))
    /\ (forall m, m ∈ CopyRelevant.misses_rows st ->
          first_row_of column row_slice (CopyRelevant.miss_row_index m)
            (CopyRelevant.miss_raw_T1 m)).
Proof.
  intros (series & Hs & [_ _ _ _ _ _ _ Hcells _ Hmisses] & _)%process_list_inv.
  unfold CopyRelevant.read_excel_column in Hs.
  destruct (sheet !! header_name) as [column|]; [|discriminate].
  injection Hs as <-. exists column. split; [reflexivity|]. split.
  - intros r Hr. destruct (Hcells r Hr) as (Hin & _).
    now apply clean_first_row.
  - intros m Hm. now apply clean_first_row, Hmisses.
Qed.

(** X22 at the sample run. *)
Lemma logged_rows_are_first_rows_of_the_slice_witness :
  exists column,
    sample_sheet !! lit "t1" = Some column
    /\ (forall r, r ∈ CopyRelevant.copied_rows sample_final ->
          first_row_of column None (CopyRelevant.row_index r)
            (CopyRelevant.raw_T1 r))
    /\ (forall m, m ∈ CopyRelevant.misses_rows sample_final ->
          first_row_of column None (CopyRelevant.miss_row_index m)
            (CopyRelevant.miss_raw_T1 m)).
Proof.
  apply (logged_rows_are_first_rows_of_the_slice 8 sample_resolve
           sample_folders sample_sheet sample_existing (lit "output/aeg") None
           (lit "t1") sample_final).
  apply sample_run_done.
Defined.

(* ===================================================================== *)
(** * The files found for a value *)
(* ===================================================================== *)

Lemma excel_parse_shape (raw : str) (res : str * str * str * str * str) :
  CopyExcel.parse_object_number (Some raw) = Some res ->
  exists p y c v,
    is_exactly (Str.strip raw) p y c v /\ res = (Str.strip raw, p, y, c, v).
Proof.
  unfold CopyExcel.parse_object_number.
  destruct (Str.strip raw) as [|a t] eqn:Es; [discriminate|].
  destruct (Re.re_match CopyExcel.OBJECT_REGEX (a :: t)) as [caps|] eqn:E;
    [|discriminate].
  apply object_regex_sound in E as (p & y & c & v & Hshape & ->).
  cbn [Re.group Nat.eqb]. intros [= <-]. now exists p, y, c, v.
Qed.

Lemma search_prefix_eq (p y c v : str) :
  CopyExcel.build_search_prefix p y c v = canonical p y c ++ " "%char :: v.
Proof.
  unfold CopyExcel.build_search_prefix, canonical.
  now repeat (rewrite <- ?app_assoc; cbn [app lit list_ascii_of_string]).
Qed.

(** X23.  The files [copy_images_from_excel.py] finds for a parsed value are
    files whose names begin with the canonical identifier, a space and the
    variant number; [extract_object_id] puts such a file under the
    identifier, and its name has no sequence blocks after the identifier. *)
Theorem excel_prefix_finds_spaced_names (value : option str)
    (s p y c v : str) (fs : folders) (images_root : str) (src : Path) :
  CopyExcel.parse_object_number value = Some (s, p, y, c, v) ->
  src ∈ CopyExcel.find_matching_files fs images_root y
          (CopyExcel.build_search_prefix p y c v) ->
  is_file src = true
  /\ (exists rest, name src = canonical p y c ++ " "%char :: v ++ rest)
  /\ AutoDesc.extract_object_id (name src) = Some (canonical p y c)
  /\ forall a b, ~ has_sequence any_tail (name src) a b.
Proof.
  intros Hparse Hsrc.
  assert (number p /\ digits 4 y /\ digits 4 c) as (Hp & Hy & Hc).
  { destruct value as [raw|]; [|discriminate].
    apply excel_parse_shape in Hparse
      as (p' & y' & c' & v' & Hshape & [= _ <- <- <- <-]).
    destruct Hshape as (ws & s1 & s2 & w & tail & _ & _ & Hp & Hy & Hc & _).
    split; [assumption|split; assumption]. }
  unfold CopyExcel.find_matching_files in Hsrc.
  destruct (fs (child_str images_root y)) as [entries|];
    [|now apply elem_of_nil in Hsrc].
  apply list_elem_of_In, filter_In in Hsrc as [_ [Hfile Hstart]%andb_true_iff].
  apply startswith_spec in Hstart as [rest Hname].
  rewrite search_prefix_eq, <- app_assoc in Hname. cbn [app] in Hname.
  assert (AutoDesc.extract_object_id (name src) = Some (canonical p y c)) as Hid
    by (rewrite Hname; now apply extract_canonical).
  split; [assumption|]. split; [now exists rest|]. split; [assumption|].
  intros a b (p' & y' & c' & rest' & Es & Hp' & Hy' & Hc' & _).
  assert (AutoDesc.extract_object_id (name src) = Some (canonical p' y' c'))
    as Hid'.
  { rewrite Es, <- canonical_app. now apply extract_canonical. }
  rewrite Hid in Hid'. injection Hid' as Hcan.
  rewrite Hname, <- canonical_app, Hcan in Es.
  apply app_inv_head in Es. discriminate.
Qed.

(** X23 at a folder with a photo named after the value and one named with
    sequence blocks, which is not found. *)
Lemma excel_prefix_finds_spaced_names_witness :
  CopyExcel.find_matching_files folders_2024 (lit "images") (lit "2024")
    (lit "1-2024-0501 0") = [spaced_photo]
  /\ is_file spaced_photo = true
  /\ (exists rest,
        name spaced_photo
        = canonical (lit "1") (lit "2024") (lit "0501")
            ++ " "%char :: lit "0" ++ rest)
  /\ AutoDesc.extract_object_id (name spaced_photo) = Some (lit "1-2024-0501")
  /\ forall a b, ~ has_sequence any_tail (name spaced_photo) a b.
Proof.
  split; [vm_compute; reflexivity|].
  apply (excel_prefix_finds_spaced_names (Some (lit " 1/2024/0501 0 "))
           (lit "1/2024/0501 0") (lit "1") (lit "2024") (lit "0501") (lit "0")
           folders_2024 (lit "images") spaced_photo).
  - vm_compute. reflexivity.
  - apply list_elem_of_In. vm_compute. left. reflexivity.
Defined.

(* ===================================================================== *)
(** * The report of the copies *)
(* ===================================================================== *)

Section Report.
Variable copy2 : Path -> str -> option str.
Variable fs : folders.
Variable images_root output_root : str.
Variable make_subdirs : bool.

Lemma copy_all_spec (original yr sp : str) (n : nat) (dest_dir : str)
    (srcs : list Path) :
  forall k rows log,
    exists errors new,
      CopyExcel.copy_all copy2 original yr sp n dest_dir srcs k rows log
      = ((k + length new)%nat, rows ++ errors, log ++ new)
      /\ Forall is_copy_error errors
      /\ Forall (fun r => CopyExcel.object r = original
                          /\ CopyExcel.matches r = n) errors
      /\ length srcs = (length new + length errors)%nat
      /\ Forall (fun c : Path * str =>
                   c.1 ∈ srcs /\ c.2 = child_str dest_dir (name c.1)
                   /\ copy2 c.1 c.2 = None) new.
Proof.
  induction srcs as [|src srcs IH]; intros k rows log.
  - exists [], []. cbn. rewrite !app_nil_r, Nat.add_0_r. repeat split; constructor.
  - cbn [CopyExcel.copy_all].
    destruct (copy2 src (child_str dest_dir (name src))) as [e|] eqn:Ec.
    + destruct (IH k (rows ++ [CopyExcel.mkReport original yr sp n k
                                 (lit "copy_error:" ++ e)]) log)
        as (errors & new & -> & Herr & Hobj & Hlen & Hnew).
      exists (CopyExcel.mkReport original yr sp n k (lit "copy_error:" ++ e)
                :: errors), new.
      split; [now rewrite <- app_assoc|].
      split; [constructor; [now exists e|assumption]|].
      split; [constructor; [now split|assumption]|].
      split; [cbn [length]; lia|].
      eapply Forall_impl; [exact Hnew|]. intros c (? & ? & ?).
      split; [now right|now split].
    + destruct (IH (S k) rows (log ++ [(src, child_str dest_dir (name src))]))
        as (errors & new & -> & Herr & Hobj & Hlen & Hnew).
      exists errors, ((src, child_str dest_dir (name src)) :: new).
      split; [rewrite <- app_assoc; cbn [length app]; f_equal; f_equal; lia|].
      split; [assumption|]. split; [assumption|].
      split; [cbn [length]; lia|].
      constructor; [cbn; split; [now left|now split]|].
      eapply Forall_impl; [exact Hnew|]. intros c (? & ? & ?).
      split; [now right|now split].
Qed.

Lemma process_value_block (st : CopyExcel.run) (raw : str) :
  let st' := CopyExcel.process_value copy2 fs images_root output_root
               make_subdirs st raw in
  exists errors summary new,
    CopyExcel.report_rows st' = CopyExcel.report_rows st ++ errors ++ [summary]
    /\ block_of fs images_root raw errors summary
    /\ CopyExcel.total_copied st'
       = (CopyExcel.total_copied st + CopyExcel.copied summary)%nat
    /\ CopyExcel.copies st' = CopyExcel.copies st ++ new
    /\ length new = CopyExcel.copied summary
    /\ Forall (fun c : Path * str => copy2 c.1 c.2 = None) new.
Proof.
  cbv zeta. unfold CopyExcel.process_value, block_of.
  destruct (CopyExcel.parse_object_number (Some raw))
    as [[[[[original prefix] yr] code] variant]|].
  - set (sp := CopyExcel.build_search_prefix prefix yr code variant).
    set (found := CopyExcel.find_matching_files fs images_root yr sp).
    set (dest := if make_subdirs then child_str output_root sp else output_root).
    destruct (copy_all_spec original yr sp (length found) dest found 0
                (CopyExcel.report_rows st) (CopyExcel.copies st))
      as (errors & new & -> & Herr & _ & Hlen & Hnew).
    cbn [Nat.add].
    eexists errors, _, new. split; [cbn; now rewrite <- app_assoc|].
    cbn [CopyExcel.object CopyExcel.year CopyExcel.pattern CopyExcel.matches
         CopyExcel.copied CopyExcel.note CopyExcel.total_copied
         CopyExcel.copies].
    split; [|split; [reflexivity|split; [reflexivity|split; [reflexivity|]]]].
    + split; [assumption|]. cbv zeta.
      repeat split; try reflexivity; [lia|].
      destruct (Nat.eqb_spec (length new) (length found)) as [E|E].
      * rewrite bool_decide_eq_true_2; [reflexivity|].
        destruct errors; [reflexivity|cbn [length] in Hlen; lia].
      * rewrite bool_decide_eq_false_2; [reflexivity|].
        intros ->. cbn [length] in Hlen. lia.
    + eapply Forall_impl; [exact Hnew|]. now intros c (_ & _ & ?).
  - exists [], (CopyExcel.mkReport raw [] [] 0 0 (lit "parse_failed")), [].
    cbn. rewrite app_nil_r, Nat.add_0_r. repeat split; constructor.
Qed.

Lemma fold_values_blocks (vals : list str) :
  forall st,
    let st' := foldl (CopyExcel.process_value copy2 fs images_root output_root
                        make_subdirs) st vals in
    exists blocks new,
      CopyExcel.report_rows st' = CopyExcel.report_rows st ++ rows_of blocks
      /\ Forall2 (fun raw b => block_of fs images_root raw b.1 b.2) vals blocks
      /\ CopyExcel.total_copied st'
         = (CopyExcel.total_copied st + length new)%nat
      /\ CopyExcel.copies st' = CopyExcel.copies st ++ new
      /\ length new
         = foldr Nat.add 0%nat (map (fun b => CopyExcel.copied b.2) blocks)
      /\ Forall (fun c : Path * str => copy2 c.1 c.2 = None) new.
Proof.
  induction vals as [|raw vals IH]; intros st; cbv zeta.
  - exists [], []. cbn. rewrite !app_nil_r, Nat.add_0_r. repeat split; constructor.
  - cbn [foldl].
    destruct (process_value_block st raw)
      as (errors & summary & new1 & Hrows1 & Hblock & Htot1 & Hcop1 & Hlen1 & Hok1).
    destruct (IH (CopyExcel.process_value copy2 fs images_root output_root
                    make_subdirs st raw))
      as (blocks & new & Hrows & Hall & Htot & Hcop & Hlen & Hok).
    exists ((errors, summary) :: blocks), (new1 ++ new).
    split; [rewrite Hrows, Hrows1; unfold rows_of; cbn [flat_map fst snd];
            now rewrite <- !app_assoc|].
    split; [now constructor|].
    split; [rewrite Htot, Htot1, length_app; lia|].
    split; [rewrite Hcop, Hcop1; now rewrite <- app_assoc|].
    split; [rewrite length_app; cbn [map foldr snd]; lia|].
    now apply Forall_app.
Qed.
End Report.

(** X24.  The report of [copy_images_from_excel.py] has one block for each
    distinct value, in order: the rows of the copies that failed, then a
    closing row. The closing row of a parsed value counts the matches as the
    copies made plus the failures and notes [ok] exactly when nothing
    failed; the total is the number of copies made, the sum over the closing
    rows. *)
Theorem report_has_one_block_per_value (copy2 : Path -> str -> option str)
    (fs : folders) (images_root output_root : str) (make_subdirs : bool)
    (df : list (str * list (option str))) (column : str) :
  let st := CopyExcel.main copy2 fs images_root output_root make_subdirs
              df column in
  let vals := CopyExcel.unique_loop ∅ (CopyExcel.values_of df column) in
  exists blocks,
    CopyExcel.report_rows st = rows_of blocks
    /\ Forall2 (fun raw b => block_of fs images_root raw b.1 b.2) vals blocks
    /\ CopyExcel.total_copied st = length (CopyExcel.copies st)
    /\ CopyExcel.total_copied st
       = foldr Nat.add 0%nat (map (fun b => CopyExcel.copied b.2) blocks)
    /\ Forall (fun c : Path * str => copy2 c.1 c.2 = None)
              (CopyExcel.copies st).
Proof.
  cbv zeta. unfold CopyExcel.main.
  destruct (fold_values_blocks copy2 fs images_root output_root make_subdirs
              (CopyExcel.unique_loop ∅ (CopyExcel.values_of df column))
              (CopyExcel.mkRun [] 0 []))
    as (blocks & new & Hrows & Hall & Htot & Hcop & Hlen & Hok).
  cbn [CopyExcel.report_rows CopyExcel.total_copied CopyExcel.copies app]
    in Hrows, Htot, Hcop.
  exists blocks. rewrite Hrows, Htot, Hcop.
  repeat split; try assumption; lia.
Qed.

Lemma excel_unique_loop_elem (seen : gset str) (l : list str) (v : str) :
  v ∈ CopyExcel.unique_loop seen l -> v ∈ l.
Proof.
  revert seen. induction l as [|x l IH]; intros seen; cbn [CopyExcel.unique_loop].
  - intros H. now apply elem_of_nil in H.
  - case_bool_decide as Hseen.
    + intros Hv%IH. now right.
    + intros [->|Hv%IH]%elem_of_cons; [now left|now right].
Qed.

(** A value that the pattern accepts after trimming is parsed. *)
Lemma detected_value_parses (x : str) :
  Re.re_match CopyExcel.OBJECT_REGEX (Str.strip x) <> None ->
  is_Some (CopyExcel.parse_object_number (Some (Str.strip x))).
Proof.
  intros Hm. unfold CopyExcel.parse_object_number. rewrite strip_idem.
  destruct (Str.strip x) as [|a t] eqn:E; [now destruct Hm|].
  destruct (Re.re_match CopyExcel.OBJECT_REGEX (a :: t)) as [caps|] eqn:Er;
    [|contradiction].
  apply object_regex_sound in Er as (p & y & c & v & _ & ->).
  cbn [Re.group Nat.eqb]. now eexists.
Qed.

(** X25.  When the sheet has no column of the name given, the values
    [copy_images_from_excel.py] detects are trimmed and all parse, so the
    report has no [parse_failed] row. *)
Theorem detected_values_always_parse (copy2 : Path -> str -> option str)
    (fs : folders) (images_root output_root : str) (make_subdirs : bool)
    (df : list (str * list (option str))) (column : str) :
  List.find (fun c => bool_decide (c.1 = column)) df = None ->
  (forall v, v ∈ CopyExcel.values_of df column ->
     Str.strip v = v /\ is_Some (CopyExcel.parse_object_number (Some v)))
  /\ forall r,
       r ∈ CopyExcel.report_rows
             (CopyExcel.main copy2 fs images_root output_root make_subdirs
                df column) ->
       CopyExcel.note r <> lit "parse_failed".
Proof.
  intros Hcol.
  assert (forall v, v ∈ CopyExcel.values_of df column ->
            Str.strip v = v
            /\ is_Some (CopyExcel.parse_object_number (Some v))) as Hvals.
  { intros v. unfold CopyExcel.values_of. rewrite Hcol.
    intros (c & _ & Hv)%list_elem_of_In%in_flat_map.
    apply filter_In in Hv as [Hin Hm].
    apply in_map_iff in Hin as (x & <- & _).
    split; [apply strip_idem|]. apply detected_value_parses.
    now destruct (Re.re_match CopyExcel.OBJECT_REGEX (Str.strip x)). }
  split; [assumption|].
  unfold CopyExcel.main.
  destruct (fold_values_blocks copy2 fs images_root output_root make_subdirs
              (CopyExcel.unique_loop ∅ (CopyExcel.values_of df column))
              (CopyExcel.mkRun [] 0 []))
    as (blocks & new & Hrows & Hall & _).
  cbn [CopyExcel.report_rows app] in Hrows. rewrite Hrows.
  intros r (b & Hb & Hr)%list_elem_of_In%in_flat_map.
  apply list_elem_of_In, list_elem_of_lookup in Hb as [i Hb].
  destruct (Forall2_lookup_r _ _ _ _ _ Hall Hb) as (raw & Hraw & Hblock).
  apply list_elem_of_lookup_2, excel_unique_loop_elem, Hvals in Hraw
    as [_ [res Hres]].
  destruct Hblock as [Herr Hsum]. rewrite Hres in Hsum.
  destruct res as [[[[original prefix] yr] code] variant].
  destruct Hsum as (_ & _ & _ & _ & _ & Hnote).
  apply in_app_iff in Hr as [Hr|[<-|[]]].
  - rewrite Forall_forall in Herr.
    destruct (Herr r) as [e He]; [now apply list_elem_of_In|].
    rewrite He. discriminate.
  - rewrite Hnote. case_bool_decide; discriminate.
Qed.

(** X25 at a sheet with two columns of other names. *)
Lemma detected_values_always_parse_witness :
  CopyExcel.values_of sample_df (lit "T1")
  = [lit "1/2024/0501 0"; lit "1-2024-0502 1"]
  /\ (forall v, v ∈ CopyExcel.values_of sample_df (lit "T1") ->
        Str.strip v = v /\ is_Some (CopyExcel.parse_object_number (Some v)))
  /\ forall r,
       r ∈ CopyExcel.report_rows
             (CopyExcel.main copy_fine folders_2024 (lit "images")
                (lit "output") false sample_df (lit "T1")) ->
       CopyExcel.note r <> lit "parse_failed".
Proof.
  split; [vm_compute; reflexivity|].
  apply (detected_values_always_parse copy_fine folders_2024 (lit "images")
           (lit "output") false sample_df (lit "T1")).
  reflexivity.
Defined.

(* ===================================================================== *)
(** * The properties on the sample inputs *)
(* ===================================================================== *)

(** Two roots with the same photo: one entry, the copy of the first root. *)
Example first_root_wins :
  index_entry fs_two_sizes two_roots (lit "1-1997-0457") = [photo_aeg]
  /\ index_entry fs_two_sizes (rev two_roots) (lit "1-1997-0457")
     = [photo_typewriters]
  /\ BuildSite.collect_images_for_object fs_two_sizes two_roots
       (lit "1-1997-0457") = [photo_aeg; photo_typewriters].
Proof. repeat split; vm_compute; reflexivity. Qed.

(** Where two files tie in the sort key, the order of the walk shows in
    the index: the same files, walked in another order, come out in
    another order. *)
Example walk_order_shows_on_ties :
  index_entry fs_jpg_first [lit "output/aeg"] (lit "1-1997-0457")
    = [scan_jpg; scan_png]
  /\ index_entry fs_png_first [lit "output/aeg"] (lit "1-1997-0457")
     = [scan_png; scan_jpg].
Proof. split; vm_compute; reflexivity. Qed.

(** What [float] reads off a hint: integers and fractions, beyond the
    range of a machine integer and beyond the precision of a float, each
    rounded once; and the hint of the sample message. *)
Example hinted_pauses :
  AutoDesc.float_of_decimal (lit "120") = 120.0%float
  /\ AutoDesc.float_of_decimal (lit "1.5") = 1.5%float
  /\ AutoDesc.float_of_decimal (lit "0.1") = 0.1%float
  /\ AutoDesc.float_of_decimal (lit "007.250") = 7.25%float
  /\ AutoDesc.float_of_decimal (lit "18446744073709551616")
     = 0x1p+64%float
  /\ AutoDesc.float_of_decimal (lit "9007199254740993")
     = 0x1p+53%float
  /\ AutoDesc.float_of_decimal (lit "0.000") = 0.0%float
  /\ hinted_pause (lit "120") 2.0%float = 120.5%float
  /\ hinted_pause (lit "0.000") 2.0%float = 2.0%float
  /\ hints_at hinted_message (lit "120").
Proof.
  repeat split; try (vm_compute; reflexivity).
  exists 46%nat. split.
  - exists (lit "try again in "), "s"%char, (lit ".").
    split; [reflexivity|]. split; [reflexivity|]. split; [|reflexivity].
    left. split; [discriminate|]. repeat constructor.
  - intros j d' Hj Hd'.
    destruct (proj1 (match_at_hint hinted_message j) d' Hd') as (caps & Hm & _).
    do 46 (destruct j as [|j]; [vm_compute in Hm; discriminate|]). lia.
Qed.

(** The first source wins the field both have; the second fills what the
    first left open; the identifier stands in for the inventory number. *)
Example merge_two_sheets :
  let merged := AutoDesc.build_metadata_for_object (lit "1-1997-0457")
                  [typewriters_sheet; aeg_sheet] in
  merged !! lit "Materials" = Some (lit "steel")
  /\ merged !! lit "Location" = Some (lit "Depot")
  /\ merged !! lit "Dimensions" = Some AutoDesc.NO_DATA
  /\ merged !! lit "InventoryNo" = Some (lit "1-1997-0457").
Proof. repeat split; vm_compute; reflexivity. Qed.

(** Six 503 replies: six requests, six pauses of back-off plus jitter, and
    the error of the exhausted retries. *)
Example retries_exhausted :
  AutoDesc.call_openai_with_retry no_content down_world
  = (AutoDesc.Raise AutoDesc.MAX_RETRIES_MSG,
     AutoDesc.mkWorld (AutoDesc.api down_world) 6 (AutoDesc.rnd down_world) 6
       (map (fun i => PrimFloat.add (backoff i) 0.25%float) (seq 0 6))).
Proof. vm_compute. reflexivity. Qed.

(** A run against an API that refuses: one request, the placeholder row,
    the object done.  The next run, whatever the API, makes no request and
    leaves the store as it is. *)
Example failed_then_skipped :
  let index := AutoDesc.collect_images_by_object fs_plain two_roots in
  let st1 := AutoDesc.main index [] None refusing_world in
  let st2 := AutoDesc.main index [] (AutoDesc.store st1) hinting_world in
  AutoDesc.store st1
    = Some [AutoDesc.mkRow (Some (lit "1-1997-0457"))
              (lit "[Error during description: Error code: 401 - invalid api key]")
              (lit "1-1997-0457, No Data, No Data, No Data, No Data, No Data, No Data, No Data")]
  /\ AutoDesc.calls (AutoDesc.the_world st1) = 1%nat
  /\ AutoDesc.store st2 = AutoDesc.store st1
  /\ AutoDesc.calls (AutoDesc.the_world st2) = 0%nat.
Proof. repeat split; vm_compute; reflexivity. Qed.
